(** * DataflowAttributes: lazily recomputed, dependency-tracking attributes

    A shallow embedding of [dataflowAttributes.py] (the descriptor class
    [DependentAttr] and its two subclasses) and of the [DataflowSuccess]
    class of [example.py], followed by the properties of the read and
    write protocols. *)

From Stdlib Require Import ZArith String Ascii List Lia DecimalString.
From stdpp Require Import base option list gmap strings.

Local Open Scope string_scope.
Local Open Scope list_scope.

(** ** Python values *)

(** Attribute and method identifiers are Python strings. *)
Abbreviation ident := string.

(** Object identifiers for the instances of the owner class. *)
Abbreviation objref := nat.

(** The payload of an ordinary object: the example only stores integers
    and strings in its attributes. *)
Inductive pydata : Type :=
| DInt (z : Z)
| DStr (s : string).

(** A Python value.  [PyNone] is the [None] singleton and [AttrNullState]
    is the class object of the same name, used as the "value is invalid"
    marker.  Every other object is identified by its address [addr], which
    is what the [is] operator compares; [PyBoundMethod] is what attribute
    lookup returns for a function of the class. *)
Inductive pyval : Type :=
| PyNone
| AttrNullState
| PyObj (addr : nat) (d : pydata)
| PyBoundMethod (self : objref) (func : ident).

Definition pydata_eqb (a b : pydata) : bool :=
  match a, b with
  | DInt x, DInt y => Z.eqb x y
  | DStr x, DStr y => String.eqb x y
  | _, _ => false
  end.

(** [a is b]: identity of objects. A bound method is created afresh by every
    lookup, so it is identical to nothing that was stored before. *)
Definition py_is (a b : pyval) : bool :=
  match a, b with
  | PyNone, PyNone => true
  | AttrNullState, AttrNullState => true
  | PyObj p _, PyObj q _ => Nat.eqb p q
  | _, _ => false
  end.

(** [a == b]: equality of contents. *)
Definition py_eq (a b : pyval) : bool :=
  match a, b with
  | PyNone, PyNone => true
  | AttrNullState, AttrNullState => true
  | PyObj _ x, PyObj _ y => pydata_eqb x y
  | PyBoundMethod o f, PyBoundMethod o' f' => Nat.eqb o o' && String.eqb f f'
  | _, _ => false
  end.

(** CPython keeps one object for each integer from -5 to 256; they sit at
    the addresses 0..261 and fresh objects are allocated above them. *)
Definition py_int (z : Z) : pyval := PyObj (Z.to_nat (z + 5)) (DInt z).
Definition first_free_addr : nat := 262.

(** [str(v)] for the values the example formats. *)
Definition py_str (v : pyval) : string :=
  match v with
  | PyNone => "None"
  | AttrNullState => "<class 'dataflowAttributes.AttrNullState'>"
  | PyObj _ (DInt z) => NilZero.string_of_int (Z.to_int z)
  | PyObj _ (DStr s) => s
  | PyBoundMethod _ f => "<bound method " ++ f ++ ">"
  end.

(** ** The descriptor object *)

(** The six fields that [DependentAttr.__init__] sets. *)
Record DependentAttr : Type := mkDependentAttr {
  value : pyval;
  dependencies : list ident;
  calc_func : option ident;
  name : ident;
  children : list ident;
  verbose : bool
}.

(** [DependentAttr.__init__(self, init_value, dependencies, calc_func, name,
    verbose)]; the two [if]s normalise the arguments, [children] starts
    empty. *)
Definition DependentAttr_init (init_value : pyval)
    (dependencies : option (list ident)) (calc_func : option ident)
    (name : ident) (verbose : bool) : DependentAttr :=
  let dependencies :=
    match dependencies with None => [] | Some ds => ds end in
  let init_value :=
    if py_is init_value PyNone && (0 <? length dependencies)%nat
    then AttrNullState else init_value in
  {| value := init_value;
     dependencies := dependencies;
     calc_func := calc_func;
     name := name;
     children := [];
     verbose := verbose |}.

(** [IndependentAttr.__init__(self, init_value, name, verbose)]. *)
Definition IndependentAttr_init (init_value : pyval) (name : ident)
    (verbose : bool) : DependentAttr :=
  DependentAttr_init init_value (Some []) None name verbose.

(** [DeterminantAttr.__init__(self, dependencies, calc_func, name, verbose)]. *)
Definition DeterminantAttr_init (dependencies : option (list ident))
    (calc_func : option ident) (name : ident) (verbose : bool)
    : DependentAttr :=
  DependentAttr_init AttrNullState dependencies calc_func name verbose.

(** ** Exceptions *)

(** The four [ValueError]s that [__get__] raises, told apart by their
    message, in the order of the source. *)
Inductive message : Type :=
| NotAnAttribute (dependency attr : ident)
    (* 'Attribute %s is a dependency of %s but is not an attribute of %s' *)
| ValueWasNone (attr dependency : ident)
    (* 'Attribute %s requires %s but value was None' *)
| CannotFindMethod (attr : ident) (calc : ident)
    (* 'Attribute %s cannot find method %s in object %s' *)
| NotUpdated (attr : ident) (calc : option ident).
    (* 'Attribute %s calling %s did not result in an updated value.' *)

Inductive exn : Type :=
| ValueError (m : message)
| AttributeError (k : ident)     (* lookup of an attribute that is absent *)
| TypeError (what : string).     (* calling or adding the wrong kind of object *)

(** The names the specification gives to the four failures. *)
Definition MissingDependencyError (attr dependency : ident) : exn :=
  ValueError (NotAnAttribute dependency attr).
Definition DependencyUpdateError (attr dependency : ident) : exn :=
  ValueError (ValueWasNone attr dependency).
Definition MissingComputeError (attr calc : ident) : exn :=
  ValueError (CannotFindMethod attr calc).
Definition StaleComputeError (attr : ident) (calc : option ident) : exn :=
  ValueError (NotUpdated attr calc).

(** ** Method bodies *)

(** The body of a method of the owner class, as the sequence of attribute
    operations it performs on [self]; what happens next may depend on the
    values read.  [New] creates an object (string concatenation, [str],
    a large integer), [Throw] raises. *)
Inductive prog : Type :=
| Return
| GetAttr (k : ident) (cont : pyval -> prog)
| SetAttr (k : ident) (v : pyval) (cont : prog)
| New (d : pydata) (cont : pyval -> prog)
| Throw (e : exn).

(** ** The class, its instances and the state of the program *)

(** What a name is bound to in the body of the owner class. *)
Inductive member : Type :=
| Descriptor (d : DependentAttr)
| ClassAttr (v : pyval)
| Method (body : prog).

(** The state: the class dictionary (the descriptor objects live here, one
    per class), the dictionary of every instance, and the next free
    address.  [calls] is instrumentation: the descriptors whose [__get__]
    has called its update function, oldest first. *)
Record world : Type := mkWorld {
  cls : gmap string member;
  inst : gmap nat (gmap string pyval);
  next_addr : nat;
  calls : list ident
}.

Definition set_cls (c : gmap string member) (w : world) : world :=
  {| cls := c; inst := inst w; next_addr := next_addr w; calls := calls w |}.

Definition set_inst (i : gmap nat (gmap string pyval)) (w : world) : world :=
  {| cls := cls w; inst := i; next_addr := next_addr w; calls := calls w |}.

(** [getattr(type(obj), k, None)] when it is a [DependentAttr]: looked up on
    the class, [__get__] is called with [obj] [None] and returns the
    descriptor itself. *)
Definition descriptor_at (w : world) (k : ident) : option DependentAttr :=
  match cls w !! k with
  | Some (Descriptor d) => Some d
  | _ => None
  end.

Definition inst_lookup (w : world) (obj : objref) (k : ident) : option pyval :=
  match inst w !! obj with
  | Some dict => dict !! k
  | None => None
  end.

(** ** Outcomes and the state-and-exception monad *)

Inductive outcome (A : Type) : Type :=
| Ok (a : A)
| Raise (e : exn)
| OutOfFuel.
Arguments Ok {A} a.
Arguments Raise {A} e.
Arguments OutOfFuel {A}.

(** A Python exception does not undo the assignments made before it, so
    the state is returned with every outcome. *)
Definition M (A : Type) : Type := world -> world * outcome A.

Definition ret {A} (a : A) : M A := fun w => (w, Ok a).
Definition raise {A} (e : exn) : M A := fun w => (w, Raise e).
Definition out_of_fuel {A} : M A := fun w => (w, OutOfFuel).

Definition bind {A B} (m : M A) (f : A -> M B) : M B :=
  fun w =>
    match m w with
    | (w', Ok a) => f a w'
    | (w', Raise e) => (w', Raise e)
    | (w', OutOfFuel) => (w', OutOfFuel)
    end.

Declare Scope py_scope.
Delimit Scope py_scope with py.
Notation "x <- c1 ;; c2" := (bind c1 (fun x => c2))
  (at level 100, c1 at next level, right associativity) : py_scope.
Notation "c1 ;; c2" := (bind c1 (fun _ => c2))
  (at level 100, right associativity) : py_scope.

(** [for x in l: body(x)]. *)
Fixpoint for_each {A} (l : list A) (body : A -> M unit) : M unit :=
  match l with
  | [] => ret tt
  | x :: l' => (body x ;; for_each l' body)%py
  end.

Definition get_world : M world := fun w => (w, Ok w).
Definition modify (f : world -> world) : M unit := fun w => (f w, Ok tt).

(** ** The write protocol *)

(** The descriptor [d] after [d.value = v], and after its children have
    become [c]. *)
Definition with_value (v : pyval) (d : DependentAttr) : DependentAttr :=
  {| value := v;
     dependencies := dependencies d;
     calc_func := calc_func d;
     name := name d;
     children := children d;
     verbose := verbose d |}.

Definition with_children (c : list ident) (d : DependentAttr) : DependentAttr :=
  {| value := value d;
     dependencies := dependencies d;
     calc_func := calc_func d;
     name := name d;
     children := c;
     verbose := verbose d |}.

(** [self.value = v] for the descriptor bound to [k]. *)
Definition store_value (k : ident) (v : pyval) (w : world) : world :=
  match descriptor_at w k with
  | Some self => set_cls (<[k := Descriptor (with_value v self)]> (cls w)) w
  | None => w
  end.

(** [obj.__dict__[k] = v]. *)
Definition inst_store (obj : objref) (k : ident) (v : pyval) (w : world)
    : world :=
  set_inst (<[obj := <[k := v]> (default ∅ (inst w !! obj))]> (inst w)) w.

(** [DependentAttr.__set__(self, obj, value)], for the descriptor [self]
    bound to [k]; [setattr] is the attribute assignment of the instance,
    through which the children are invalidated. *)
Definition DependentAttr_set (setattr : objref -> ident -> pyval -> M unit)
    (k : ident) (self : DependentAttr) (obj : objref) (v : pyval) : M unit :=
  if negb (py_is (value self) v) then
    (modify (store_value k v) ;;
     for_each (children self) (fun child => setattr obj child AttrNullState))%py
  else ret tt.

(** [setattr(obj, k, v)]: a descriptor with [__set__] found in the class
    takes the assignment, anything else goes to the instance dictionary. *)
Fixpoint setattr (fuel : nat) (obj : objref) (k : ident) (v : pyval)
    : M unit :=
  match fuel with
  | 0 => out_of_fuel
  | S fuel' =>
      fun w =>
        match cls w !! k with
        | Some (Descriptor self) =>
            DependentAttr_set (setattr fuel') k self obj v w
        | _ => modify (inst_store obj k v) w
        end
  end.

(** A descriptor that holds a value other than the marker. *)
Definition is_valid (m : member) : bool :=
  match m with
  | Descriptor d => negb (py_is (value d) AttrNullState)
  | _ => false
  end.

(** The valid slots of the class; their number bounds the depth of an
    invalidation cascade. *)
Definition valid_slots (w : world) : gmap string member :=
  filter (fun km => is_valid km.2 = true) (cls w).

(** Fuel that is always enough for one assignment (lemma
    [enough_fuel_for_write]). *)
Definition set_fuel (w : world) : nat := size (cls w) + 3.

(** [obj.k = v] as a statement of the program or of an update function. *)
Definition setattr_total (obj : objref) (k : ident) (v : pyval) : M unit :=
  fun w => setattr (set_fuel w) obj k v w.

(** ** The read protocol *)

(** [hasattr(obj, k)]: the attribute is looked up, which runs [__get__];
    only [AttributeError] is turned into [False]. *)
Definition hasattr (getattr : objref -> ident -> M pyval) (obj : objref)
    (k : ident) : M bool :=
  fun w =>
    match getattr obj k w with
    | (w', Ok _) => (w', Ok true)
    | (w', Raise (AttributeError _)) => (w', Ok false)
    | (w', Raise e) => (w', Raise e)
    | (w', OutOfFuel) => (w', OutOfFuel)
    end.

(** [getattr(obj, k, None)]. *)
Definition getattr_default (getattr : objref -> ident -> M pyval)
    (obj : objref) (k : ident) : M pyval :=
  fun w =>
    match getattr obj k w with
    | (w', Raise (AttributeError _)) => (w', Ok PyNone)
    | r => r
    end.

(** Lines 83-88: [parent = getattr(type(obj), dependency, None)], and
    [child] is appended to [parent.children] when [parent] is a
    [DependentAttr] that does not list it yet. *)
Definition register_child (dependency child : ident) (w : world) : world :=
  match descriptor_at w dependency with
  | Some parent =>
      if bool_decide (child ∈ children parent) then w
      else set_cls (<[dependency :=
                        Descriptor (with_children (children parent ++ [child])
                                                  parent)]> (cls w)) w
  | None => w
  end.

(** [isinstance(getattr(type(obj), k, None), DependentAttr)]. *)
Definition is_descriptor (w : world) (k : ident) : bool :=
  match descriptor_at w k with Some _ => true | None => false end.

(** Instrumentation: the descriptor bound to [k] is about to call its
    update function (line 102). *)
Definition log_call (k : ident) (w : world) : world :=
  {| cls := cls w; inst := inst w; next_addr := next_addr w;
     calls := calls w ++ [k] |}.

(** A new object holding [d], at the next free address. *)
Definition alloc (d : pydata) : M pyval :=
  fun w =>
    ({| cls := cls w; inst := inst w; next_addr := S (next_addr w);
        calls := calls w |},
     Ok (PyObj (next_addr w) d)).

(** Running a method body on [obj]. *)
Fixpoint run (getattr : objref -> ident -> M pyval) (obj : objref) (p : prog)
    : M unit :=
  match p with
  | Return => ret tt
  | GetAttr k cont => (v <- getattr obj k ;; run getattr obj (cont v))%py
  | SetAttr k v cont => (setattr_total obj k v ;; run getattr obj cont)%py
  | New d cont => (v <- alloc d ;; run getattr obj (cont v))%py
  | Throw e => raise e
  end.

(** [update_func()]: a bound method runs its body; the marker class is
    callable too (it makes an instance, which is dropped); anything else
    is not callable. *)
Definition call (getattr : objref -> ident -> M pyval) (f : pyval) : M unit :=
  match f with
  | PyBoundMethod self func =>
      fun w =>
        match cls w !! func with
        | Some (Method body) => run getattr self body w
        | _ => (w, Raise (TypeError "object is not callable"))
        end
  | AttrNullState => ret tt
  | _ => raise (TypeError "object is not callable")
  end.

(** The body of the loop over [self.dependencies] (lines 78-95). *)
Definition resolve_dependency (getattr : objref -> ident -> M pyval)
    (self : DependentAttr) (obj : objref) (dependency : ident) : M unit :=
  (has <- hasattr getattr obj dependency ;;
   if negb has then
     raise (ValueError (NotAnAttribute dependency (name self)))
   else
     modify (register_child dependency (name self)) ;;
     attr_value <- getattr obj dependency ;;
     w <- get_world ;;
     if py_is attr_value AttrNullState && is_descriptor w dependency then
       raise (ValueError (ValueWasNone (name self) dependency))
     else ret tt)%py.

(** The block under [if self.value is AttrNullState:] (lines 76-104): the
    dependencies are resolved in the declared order, then the update
    function is looked up on [obj] and called. *)
Definition recompute (getattr : objref -> ident -> M pyval)
    (k : ident) (self : DependentAttr) (obj : objref) : M unit :=
  (if py_is (value self) AttrNullState then
     for_each (dependencies self) (resolve_dependency getattr self obj) ;;
     match calc_func self with
     | Some f =>
         update_func <- getattr_default getattr obj f ;;
         if negb (py_is update_func PyNone) then
           modify (log_call k) ;;
           call getattr update_func
         else raise (ValueError (CannotFindMethod (name self) f))
     | None => ret tt
     end
   else ret tt)%py.

(** [DependentAttr.__get__(self, obj, objtype)] with [obj] an instance, for
    the descriptor [self] bound to [k]. *)
Definition DependentAttr_get (getattr : objref -> ident -> M pyval)
    (k : ident) (self : DependentAttr) (obj : objref) : M pyval :=
  (recompute getattr k self obj ;;
   w <- get_world ;;
   match descriptor_at w k with
   | Some self' =>
       if py_is (value self') AttrNullState then
         raise (ValueError (NotUpdated (name self) (calc_func self)))
       else ret (value self')
   | None => raise (AttributeError k)
   end)%py.

(** [getattr(obj, k)]: a data descriptor of the class first, then the
    instance dictionary, then the other names of the class. *)
Fixpoint getattr (fuel : nat) (obj : objref) (k : ident) : M pyval :=
  match fuel with
  | 0 => out_of_fuel
  | S fuel' =>
      fun w =>
        match cls w !! k with
        | Some (Descriptor self) =>
            DependentAttr_get (getattr fuel') k self obj w
        | m =>
            match inst_lookup w obj k with
            | Some v => (w, Ok v)
            | None =>
                match m with
                | Some (ClassAttr v) => (w, Ok v)
                | Some (Method _) => (w, Ok (PyBoundMethod obj k))
                | _ => (w, Raise (AttributeError k))
                end
            end
        end
  end.

(** ** The [DataflowSuccess] class of [example.py] *)

Module Example.

(** ['(' + s + ...]: concatenating a string and something else raises. *)
Definition as_str (v : pyval) (k : string -> prog) : prog :=
  match v with
  | PyObj _ (DStr s) => k s
  | _ => Throw (TypeError "can only concatenate str")
  end.

(** [self.a2 = '('+str(self.a1)+'+2'+')'; print('a2 updated to '+ self.a2)] *)
Definition update_a2 : prog :=
  GetAttr "a1" (fun a1 =>
  New (DStr ("(" ++ py_str a1 ++ "+2" ++ ")")) (fun s =>
  SetAttr "a2" s (
  GetAttr "a2" (fun a2 => as_str a2 (fun _ => Return))))).

(** [self.a3 = '('+ self.a2 + '+3)'; print('a3 updated to '+self.a3)] *)
Definition update_a3 : prog :=
  GetAttr "a2" (fun a2 => as_str a2 (fun a2 =>
  New (DStr ("(" ++ a2 ++ "+3)")) (fun s =>
  SetAttr "a3" s (
  GetAttr "a3" (fun a3 => as_str a3 (fun _ => Return)))))).

(** [self.a4 = '(' + str(self.a1) + '*' + self.a2 + '+4)'; print(...)] *)
Definition update_a4 : prog :=
  GetAttr "a1" (fun a1 =>
  GetAttr "a2" (fun a2 => as_str a2 (fun a2 =>
  New (DStr ("(" ++ py_str a1 ++ "*" ++ a2 ++ "+4)")) (fun s =>
  SetAttr "a4" s (
  GetAttr "a4" (fun a4 => as_str a4 (fun _ => Return))))))).

(** [self.a5 = '(' + str(self.a1) + '+' + self.a2 + '+' + self.a3 + '*'
               + str(self.a6) + '+5)'; print(...)] *)
Definition update_a5 : prog :=
  GetAttr "a1" (fun a1 =>
  GetAttr "a2" (fun a2 => as_str a2 (fun a2 =>
  GetAttr "a3" (fun a3 => as_str a3 (fun a3 =>
  GetAttr "a6" (fun a6 =>
  New (DStr ("(" ++ py_str a1 ++ "+" ++ a2 ++ "+" ++ a3 ++ "*"
                 ++ py_str a6 ++ "+5)")) (fun s =>
  SetAttr "a5" s (
  GetAttr "a5" (fun a5 => as_str a5 (fun _ => Return)))))))))).

(** [self.a7 = '(' + self.a4 + '*' + self.a5 + '+7)'], then the method
    prints [self.a7], evaluates it and compares it with the expected
    expression, for which it reads [self.a6] and [self.a1]. *)
Definition update_a7 : prog :=
  GetAttr "a4" (fun a4 => as_str a4 (fun a4 =>
  GetAttr "a5" (fun a5 => as_str a5 (fun a5 =>
  New (DStr ("(" ++ a4 ++ "*" ++ a5 ++ "+7)")) (fun s =>
  SetAttr "a7" s (
  GetAttr "a7" (fun a7 => as_str a7 (fun _ =>
  GetAttr "a7" (fun _ =>
  GetAttr "a6" (fun _ =>
  GetAttr "a1" (fun _ => Return))))))))))).

(** The body of [class DataflowSuccess]. *)
Definition DataflowSuccess : gmap string member :=
  list_to_map
    [ ("a1", Descriptor (IndependentAttr_init (py_int 1) "a1" false));
      ("a2", Descriptor (DeterminantAttr_init (Some ["a1"])
                           (Some "update_a2") "a2" false));
      ("a3", Descriptor (DeterminantAttr_init (Some ["a2"])
                           (Some "update_a3") "a3" false));
      ("a4", Descriptor (DeterminantAttr_init (Some ["a1"; "a2"])
                           (Some "update_a4") "a4" false));
      ("a5", Descriptor (DeterminantAttr_init (Some ["a1"; "a2"; "a3"; "a6"])
                           (Some "update_a5") "a5" false));
      ("a6", Descriptor (IndependentAttr_init (py_int 6) "a6" false));
      ("a7", Descriptor (DeterminantAttr_init (Some ["a4"; "a5"])
                           (Some "update_a7") "a7" false));
      ("update_a2", Method update_a2);
      ("update_a3", Method update_a3);
      ("update_a4", Method update_a4);
      ("update_a5", Method update_a5);
      ("update_a7", Method update_a7) ].

End Example.

(** The state right after the class statement: no instance has stored
    anything, nothing has been computed. *)
Definition fresh (c : gmap string member) : world :=
  {| cls := c; inst := ∅; next_addr := first_free_addr; calls := [] |}.

Definition slot_value (w : world) (k : ident) : option pyval :=
  value <$> descriptor_at w k.

Definition slot_children (w : world) (k : ident) : list ident :=
  match descriptor_at w k with Some d => children d | None => [] end.

(** ** Evaluating the expressions the example builds *)

(** Python's [eval] on the strings the update functions build: decimal
    literals, [+], [*] and parentheses, with the usual precedence. *)
Inductive token : Type :=
| TNum (z : Z)
| TPlus
| TStar
| TLpar
| TRpar.

Definition digit_of (c : ascii) : option Z :=
  let n := nat_of_ascii c in
  if (48 <=? n)%nat && (n <=? 57)%nat then Some (Z.of_nat (n - 48)) else None.

Definition flush (acc : option Z) (ts : list token) : list token :=
  match acc with Some z => TNum z :: ts | None => ts end.

(** The tokens are produced last first. *)
Fixpoint tokenize (acc : option Z) (out : list token) (s : string)
    : option (list token) :=
  match s with
  | EmptyString => Some (rev (flush acc out))
  | String c s' =>
      match digit_of c with
      | Some d =>
          tokenize (Some (10 * match acc with Some z => z | None => 0 end + d)%Z)
                   out s'
      | None =>
          let out := flush acc out in
          if Ascii.eqb c "+" then tokenize None (TPlus :: out) s'
          else if Ascii.eqb c "*" then tokenize None (TStar :: out) s'
          else if Ascii.eqb c "(" then tokenize None (TLpar :: out) s'
          else if Ascii.eqb c ")" then tokenize None (TRpar :: out) s'
          else if Ascii.eqb c " " then tokenize None out s'
          else None
      end
  end.

Fixpoint parse_expr (fuel : nat) (ts : list token) : option (Z * list token) :=
  match fuel with
  | 0 => None
  | S fuel' =>
      let atom ts :=
        match ts with
        | TNum z :: r => Some (z, r)
        | TLpar :: r =>
            match parse_expr fuel' r with
            | Some (v, TRpar :: r') => Some (v, r')
            | _ => None
            end
        | _ => None
        end in
      let products :=
        fix products (n : nat) (acc : Z) (ts : list token) :=
          match n, ts with
          | S n', TStar :: r =>
              match atom r with
              | Some (v, r') => products n' (acc * v)%Z r'
              | None => None
              end
          | _, _ => Some (acc, ts)
          end in
      let term ts :=
        match atom ts with
        | Some (v, r) => products (length r) v r
        | None => None
        end in
      let sums :=
        fix sums (n : nat) (acc : Z) (ts : list token) :=
          match n, ts with
          | S n', TPlus :: r =>
              match term r with
              | Some (v, r') => sums n' (acc + v)%Z r'
              | None => None
              end
          | _, _ => Some (acc, ts)
          end in
      match term ts with
      | Some (v, r) => sums (length r) v r
      | None => None
      end
  end.

Definition py_eval (s : string) : option Z :=
  match tokenize None [] s with
  | Some ts =>
      match parse_expr (S (length ts)) ts with
      | Some (v, []) => Some v
      | _ => None
      end
  | None => None
  end.

(** The number a string-valued result denotes. *)
Definition eval_value (v : pyval) : option Z :=
  match v with
  | PyObj _ (DStr s) => py_eval s
  | _ => None
  end.

(** * The vocabulary of the properties *)

(** ** How the state may change *)

(** The fields of a descriptor that no operation assigns. *)
Definition same_static (d d' : DependentAttr) : Prop :=
  dependencies d' = dependencies d /\ calc_func d' = calc_func d /\
  name d' = name d /\ verbose d' = verbose d.

(** A name of the class stays bound to the same thing; a descriptor may
    change its value and gain children. *)
Definition member_evolves (m m' : option member) : Prop :=
  match m with
  | Some (Descriptor d) =>
      exists d', m' = Some (Descriptor d') /\ same_static d d' /\
                 children d ⊆ children d'
  | _ => m' = m
  end.

(** What every operation guarantees: the class keeps its shape, the log of
    calls and the allocator only grow. *)
Definition evolves (w w' : world) : Prop :=
  (forall k, member_evolves (cls w !! k) (cls w' !! k)) /\
  calls w `prefix_of` calls w' /\
  next_addr w <= next_addr w'.

(** [c] is the name of a descriptor of the class that lists [D] among its
    dependencies. *)
Definition declares (w : world) (c D : ident) : Prop :=
  exists k d, cls w !! k = Some (Descriptor d) /\ name d = c /\
              D ∈ dependencies d.

(** Every recorded child is a declared dependent. *)
Definition children_sound (w : world) : Prop :=
  forall D p c, cls w !! D = Some (Descriptor p) -> c ∈ children p ->
                declares w c D.

(** The descriptor bound to [k] is recorded as a child of each of its
    dependencies that is a descriptor. *)
Definition registered (w : world) (k : ident) : Prop :=
  forall d dep p, cls w !! k = Some (Descriptor d) -> dep ∈ dependencies d ->
                  cls w !! dep = Some (Descriptor p) -> name d ∈ children p.

(** An outcome that is not a result, at the type of the caller. *)
Definition failure {A B} (r : outcome A) : option (outcome B) :=
  match r with
  | Ok _ => None
  | Raise e => Some (Raise e)
  | OutOfFuel => Some OutOfFuel
  end.

(** [P] survives the steps of [R]; every run of [m] from a state of [P] is
    a step of [R]. *)
Definition stable (R : world -> world -> Prop) (P : world -> Prop)
    : Prop :=
  forall w w', P w -> R w w' -> P w'.

Definition steps (R : world -> world -> Prop) {A} (P : world -> Prop)
    (m : M A) : Prop :=
  forall w w' r, P w -> m w = (w', r) -> R w w'.

Definition always : world -> Prop := fun _ => True.

(** The static fields of the descriptor [self] bound to [k] are still
    what they were when [__get__] was entered. *)
Definition still (k : ident) (self : DependentAttr) (w : world) : Prop :=
  exists d, cls w !! k = Some (Descriptor d) /\ same_static self d.

(** The relation that carries [children_sound] along. *)
Definition keeps_sound (w w' : world) : Prop :=
  evolves w w' /\ (children_sound w -> children_sound w').

(** An assignment leaves every children list as it is. *)
Definition keeps_children (w w' : world) : Prop :=
  evolves w w' /\
  forall D p p', cls w !! D = Some (Descriptor p) ->
                 cls w' !! D = Some (Descriptor p') ->
                 children p' = children p.

(** [B] occurs in no children list. *)
Definition unregistered (w : world) (B : ident) : Prop :=
  forall X q, cls w !! X = Some (Descriptor q) -> B ∉ children q.

(** ** The contract of update functions *)

Definition is_bound_method (v : pyval) : bool :=
  match v with PyBoundMethod _ _ => true | _ => false end.

(** What an update function may do, for the descriptor ranked [b]: read
    attributes ranked below [b]; assign attributes (never a method); read
    back the attribute it has just assigned a value to, as the example does
    to print it ([own] is that attribute, until something else is read). *)
Inductive reads_below (rk : ident -> nat) (b : nat)
    : option ident -> prog -> Prop :=
| rb_return own : reads_below rk b own Return
| rb_get own k cont :
    rk k < b -> (forall v, reads_below rk b None (cont v)) ->
    reads_below rk b own (GetAttr k cont)
| rb_get_own x cont :
    (forall v, reads_below rk b (Some x) (cont v)) ->
    reads_below rk b (Some x) (GetAttr x cont)
| rb_set own k v cont :
    is_bound_method v = false -> reads_below rk b None cont ->
    reads_below rk b own (SetAttr k v cont)
| rb_set_own own k v cont :
    is_bound_method v = false -> py_is v AttrNullState = false ->
    reads_below rk b (Some k) cont ->
    reads_below rk b own (SetAttr k v cont)
| rb_new own d cont :
    (forall addr, reads_below rk b own (cont (PyObj addr d))) ->
    reads_below rk b own (New d cont)
| rb_throw own e : reads_below rk b own (Throw e).

(** Reading [x] finds a value at once. *)
Definition quiet_read (own : option ident) (w : world) : Prop :=
  match own with
  | None => True
  | Some x => forall d, cls w !! x = Some (Descriptor d) ->
                        py_is (value d) AttrNullState = false
  end.

Definition instances_hold_no_method (w : world) : Prop :=
  forall obj k v, inst_lookup w obj k = Some v -> is_bound_method v = false.

Definition children_ranked (rk : ident -> nat) (w : world) : Prop :=
  forall X q c, cls w !! X = Some (Descriptor q) -> c ∈ children q ->
                rk X < rk c.

(** Every descriptor is bound to its own name; the declared graph is
    acyclic ([rk] ranks every attribute above its dependencies); every
    update function is a method of the class that keeps to [reads_below];
    no instance attribute holds a method; recorded children are ranked
    above their parent. *)
Definition contract (rk : ident -> nat) (w : world) : Prop :=
  (forall k d, cls w !! k = Some (Descriptor d) -> name d = k) /\
  (forall k d dep, cls w !! k = Some (Descriptor d) ->
                   dep ∈ dependencies d -> rk dep < rk k) /\
  (forall k d f, cls w !! k = Some (Descriptor d) -> calc_func d = Some f ->
                 exists body, cls w !! f = Some (Method body) /\
                              reads_below rk (rk k) None body) /\
  instances_hold_no_method w /\
  children_ranked rk w.

(** The calls made from [w] to [w'] are all of descriptors ranked below [b],
    and the contract is kept. *)
Definition calls_below (rk : ident -> nat) (b : nat) (w w' : world) : Prop :=
  contract rk w ->
  contract rk w' /\
  exists l, calls w' = calls w ++ l /\ forall x, x ∈ l -> rk x < b.

(** The calls made by a read of [k]: at most one of [k] itself, every
    other one of a descriptor ranked below it. *)
Definition calls_around (rk : ident -> nat) (k : ident) (w w' : world) : Prop :=
  exists l1 m l2, calls w' = calls w ++ l1 ++ m ++ l2 /\
    (forall x, x ∈ l1 -> rk x < rk k) /\ (m = [] \/ m = [k]) /\
    (forall x, x ∈ l2 -> rk x < rk k).

(** [m'] returns whatever [m] returns without running out of fuel. *)
Definition extends {A} (m m' : M A) : Prop :=
  forall w w' r, m w = (w', r) -> r <> OutOfFuel -> m' w = (w', r).

(** * The scenarios *)

Module Scenario.

(** [program_good = DataflowSuccess()] and a second instance. *)
Definition program_good : objref := 0.
Definition other_instance : objref := 1.

Definition w0 : world := fresh Example.DataflowSuccess.

(** [program_good.a7], [program_good.a6 = 4], [program_good.a7]. *)
Definition first_read := getattr 5 program_good "a7" w0.
Definition w1 : world := fst first_read.
Definition w2 : world := fst (setattr_total program_good "a6" (py_int 4) w1).
Definition second_read := getattr 5 program_good "a7" w2.

(** A class whose dependent attribute starts with a value:
    [a1 = IndependentAttr(1, 'a1')],
    [b = DependentAttr(5, ['a1'], 'update_b', 'b')],
    [def update_b(self): self.b = self.a1]. *)
Definition update_b : prog :=
  GetAttr "a1" (fun a1 => SetAttr "b" a1 Return).

Definition Lazy : gmap string member :=
  list_to_map
    [ ("a1", Descriptor (IndependentAttr_init (py_int 1) "a1" false));
      ("b", Descriptor (DependentAttr_init (py_int 5) (Some ["a1"])
                          (Some "update_b") "b" false));
      ("update_b", Method update_b) ].

(** A class whose update function [update_d] assigns nothing:
    [src = IndependentAttr(1, 'src')],
    [d = DeterminantAttr(['src'], 'update_d', 'd')],
    [a = DeterminantAttr(['d'], 'update_a', 'a')],
    [def update_d(self): pass], [def update_a(self): self.a = self.d]. *)
Definition update_d : prog := Return.

Definition update_a : prog :=
  GetAttr "d" (fun d => SetAttr "a" d Return).

Definition Broken : gmap string member :=
  list_to_map
    [ ("src", Descriptor (IndependentAttr_init (py_int 1) "src" false));
      ("d", Descriptor (DeterminantAttr_init (Some ["src"])
                          (Some "update_d") "d" false));
      ("a", Descriptor (DeterminantAttr_init (Some ["d"])
                          (Some "update_a") "a" false));
      ("update_d", Method update_d);
      ("update_a", Method update_a) ].

(** Two valid slots that list each other as a child. *)
Definition Cyclic : world :=
  {| cls := list_to_map
       [ ("p", Descriptor {| value := py_int 1; dependencies := ["q"];
                             calc_func := Some "update_p"; name := "p";
                             children := ["q"]; verbose := false |});
         ("q", Descriptor {| value := py_int 2; dependencies := ["p"];
                             calc_func := Some "update_q"; name := "q";
                             children := ["p"]; verbose := false |}) ];
     inst := ∅; next_addr := first_free_addr; calls := [] |}.

(** The position of every attribute in the dependency order of
    [DataflowSuccess]. *)
Definition rank (k : ident) : nat :=
  if String.eqb k "a2" then 1
  else if String.eqb k "a3" then 2
  else if String.eqb k "a4" then 2
  else if String.eqb k "a5" then 3
  else if String.eqb k "a7" then 4
  else 0.

(** Every attribute of [l] comes after those of its dependencies that are
    in [l]. *)
Fixpoint in_dependency_order (c : gmap string member) (l : list ident)
    : bool :=
  match l with
  | [] => true
  | k :: l' =>
      match c !! k with
      | Some (Descriptor d) =>
          forallb (fun dep => negb (existsb (String.eqb dep) l'))
                  (dependencies d)
      | _ => true
      end && in_dependency_order c l'
  end.

End Scenario.

(** * Further vocabulary *)

(** An assignment changes neither the log of calls nor the allocator, and
    keeps the children lists. *)
Definition silent (w w' : world) : Prop :=
  keeps_children w w' /\ calls w' = calls w /\ next_addr w' = next_addr w.

(** No children list holds a name twice. *)
Definition children_nodup (w : world) : Prop :=
  forall D p, cls w !! D = Some (Descriptor p) -> NoDup (children p).

Definition keeps_nodup (w w' : world) : Prop :=
  evolves w w' /\ (children_nodup w -> children_nodup w').

(** ** The invalidation cascade *)

(** [k] holds the marker if it is a descriptor at all. *)
Definition invalid_or_plain (w : world) (k : ident) : Prop :=
  forall d, cls w !! k = Some (Descriptor d) -> value d = AttrNullState.

(** The recorded children of an invalid slot are invalid, except for the
    parents in [P] and the children in [C]. *)
Definition closed_ex (P C : ident -> Prop) (w : world) : Prop :=
  forall k d c, ~ P k -> cls w !! k = Some (Descriptor d) ->
                value d = AttrNullState -> c ∈ children d -> ~ C c ->
                invalid_or_plain w c.

Definition closed (w : world) : Prop :=
  closed_ex (fun _ => False) (fun _ => False) w.

(** What is invalid stays invalid. *)
Definition invalid_mono (w w' : world) : Prop :=
  forall k d, cls w !! k = Some (Descriptor d) -> value d = AttrNullState ->
              invalid_or_plain w' k.

(** [X] is reached from [A] along the recorded children. *)
Inductive descendant (w : world) (A : ident) : ident -> Prop :=
| descendant_child X : X ∈ slot_children w A -> descendant w A X
| descendant_step Y X :
    descendant w A Y -> X ∈ slot_children w Y -> descendant w A X.

(** No descriptor of the class holds the marker. *)
Definition not_marked (m : member) : bool :=
  match m with
  | Descriptor d => negb (py_is (value d) AttrNullState)
  | _ => true
  end.

Definition all_valid (w : world) : bool :=
  bool_decide (map_Forall (fun _ m => not_marked m = true) (cls w)).

(** [B] is in no children list, as a test. *)
Definition never_child (B : ident) (m : member) : bool :=
  match m with
  | Descriptor q => negb (bool_decide (B ∈ children q))
  | _ => true
  end.

Definition unregistered_b (w : world) (B : ident) : bool :=
  bool_decide (map_Forall (fun _ m => never_child B m = true) (cls w)).

(** ** Classes that exercise the failures of a read *)

Module Cases.

(** [def update_a(self): self.a = 1]. *)
Definition update_a : prog := SetAttr "a" (py_int 1) Return.

(** [a = DeterminantAttr(['ghost'], 'update_a', 'a')]: no attribute is
    called [ghost]. *)
Definition NoSuchDependency : gmap string member :=
  list_to_map
    [ ("a", Descriptor (DeterminantAttr_init (Some ["ghost"])
                          (Some "update_a") "a" false));
      ("update_a", Method update_a) ].

(** [d = DeterminantAttr([], 'update_d', 'd')],
    [a = DeterminantAttr(['d'], 'update_a', 'a')],
    [def update_d(self): self.d = self.zz], where no attribute is called
    [zz]. *)
Definition update_d : prog := GetAttr "zz" (fun zz => SetAttr "d" zz Return).

Definition Masked : gmap string member :=
  list_to_map
    [ ("d", Descriptor (DeterminantAttr_init (Some [])
                          (Some "update_d") "d" false));
      ("a", Descriptor (DeterminantAttr_init (Some ["d"])
                          (Some "update_a") "a" false));
      ("update_d", Method update_d);
      ("update_a", Method update_a) ].

(** [src = IndependentAttr(1, 'src')],
    [a = DeterminantAttr(['src'], 'update_a', 'a')], and no method
    [update_a]. *)
Definition NoMethod : gmap string member :=
  list_to_map
    [ ("src", Descriptor (IndependentAttr_init (py_int 1) "src" false));
      ("a", Descriptor (DeterminantAttr_init (Some ["src"])
                          (Some "update_a") "a" false)) ].

(** [a1 = 1] is an ordinary class attribute,
    [a2 = DeterminantAttr(['a1'], 'update_a2', 'a2')] with the [update_a2]
    of the example. *)
Definition PlainDependency : gmap string member :=
  list_to_map
    [ ("a1", ClassAttr (py_int 1));
      ("a2", Descriptor (DeterminantAttr_init (Some ["a1"])
                           (Some "update_a2") "a2" false));
      ("update_a2", Method Example.update_a2) ].

(** The descriptor bound to [a2] was given the name [b2]:
    [a1 = IndependentAttr(1, 'a1')],
    [a2 = DeterminantAttr(['a1'], 'update_a2', 'b2')]. *)
Definition Misnamed : gmap string member :=
  list_to_map
    [ ("a1", Descriptor (IndependentAttr_init (py_int 1) "a1" false));
      ("a2", Descriptor (DeterminantAttr_init (Some ["a1"])
                           (Some "update_a2") "b2" false));
      ("update_a2", Method Example.update_a2) ].

(** [p = DeterminantAttr(['q'], 'update_p', 'p')],
    [q = DeterminantAttr(['p'], 'update_q', 'q')],
    [def update_p(self): self.p = self.q],
    [def update_q(self): self.q = self.p]. *)
Definition update_p : prog := GetAttr "q" (fun q => SetAttr "p" q Return).
Definition update_q : prog := GetAttr "p" (fun p => SetAttr "q" p Return).

Definition Loop : gmap string member :=
  list_to_map
    [ ("p", Descriptor (DeterminantAttr_init (Some ["q"])
                          (Some "update_p") "p" false));
      ("q", Descriptor (DeterminantAttr_init (Some ["p"])
                          (Some "update_q") "q" false));
      ("update_p", Method update_p);
      ("update_q", Method update_q) ].

End Cases.

(** ** Update functions that do not raise the errors of the protocol *)

(** The body never raises the [ValueError] of lines 94-95 itself. *)
Inductive raises_no_update_error : prog -> Prop :=
| rn_return : raises_no_update_error Return
| rn_get k cont :
    (forall v, raises_no_update_error (cont v)) ->
    raises_no_update_error (GetAttr k cont)
| rn_set k v cont :
    raises_no_update_error cont -> raises_no_update_error (SetAttr k v cont)
| rn_new d cont :
    (forall v, raises_no_update_error (cont v)) ->
    raises_no_update_error (New d cont)
| rn_throw e :
    (forall a d, e <> DependencyUpdateError a d) ->
    raises_no_update_error (Throw e).

Definition methods_raise_no_update_error (w : world) : Prop :=
  forall f body, cls w !! f = Some (Method body) ->
                 raises_no_update_error body.

(** The outcome is the error of lines 94-95. *)
Definition is_update_error {A} (r : outcome A) : Prop :=
  exists a d, r = Raise (DependencyUpdateError a d).

(** ** Dependencies that wait for each other *)

(** Every attribute of [P] is an invalid descriptor whose first dependency
    is in [P] again. *)
Definition waits_on (w : world) (P : ident -> Prop) : Prop :=
  forall k, P k ->
    exists d dep deps, cls w !! k = Some (Descriptor d) /\
                       value d = AttrNullState /\
                       dependencies d = dep :: deps /\ P dep.

(** * Lemmas *)

(** ** Basic facts *)

Lemma bind_inv {A B} (m : M A) (f : A -> M B) w w' r :
  bind m f w = (w', r) ->
  (exists a w1, m w = (w1, Ok a) /\ f a w1 = (w', r)) \/
  (exists r0, m w = (w', r0) /\ failure r0 = Some r).
Proof.
  unfold bind. destruct (m w) as [w1 [a|e|]]; intros H.
  - left. eauto.
  - right. inversion H; subst. eauto.
  - right. inversion H; subst. eauto.
Qed.

Lemma failure_not_ok {A B} (r0 : outcome A) (r : outcome B) b :
  failure r0 = Some r -> r <> Ok b.
Proof. destruct r0; simpl; intros H; inversion H; discriminate. Qed.

Lemma same_static_refl d : same_static d d.
Proof. repeat split. Qed.

Lemma same_static_trans d1 d2 d3 :
  same_static d1 d2 -> same_static d2 d3 -> same_static d1 d3.
Proof. unfold same_static. intuition congruence. Qed.

Lemma member_evolves_refl m : member_evolves m m.
Proof.
  destruct m as [[d| |]|]; simpl; auto.
  exists d. split; [reflexivity|]. split; [apply same_static_refl|].
  intros x Hx. exact Hx.
Qed.

Lemma member_evolves_trans m1 m2 m3 :
  member_evolves m1 m2 -> member_evolves m2 m3 -> member_evolves m1 m3.
Proof.
  destruct m1 as [[d1| |]|]; simpl.
  - intros (d2 & -> & Hs & Hc). simpl. intros (d3 & -> & Hs' & Hc').
    exists d3. split; [reflexivity|].
    split; [eapply same_static_trans; eassumption|].
    intros x Hx. apply Hc', Hc, Hx.
  - intros ->. auto.
  - intros ->. auto.
  - intros ->. auto.
Qed.

Lemma evolves_refl w : evolves w w.
Proof.
  split; [intros k; apply member_evolves_refl|]. split; [reflexivity|lia].
Qed.

Lemma evolves_trans w1 w2 w3 : evolves w1 w2 -> evolves w2 w3 -> evolves w1 w3.
Proof.
  intros (H1 & H2 & H3) (H1' & H2' & H3').
  split; [|split].
  - intros k. eapply member_evolves_trans; [apply H1|apply H1'].
  - etrans; eassumption.
  - lia.
Qed.

Lemma evolves_descriptor w w' k d :
  evolves w w' -> cls w !! k = Some (Descriptor d) ->
  exists d', cls w' !! k = Some (Descriptor d') /\ same_static d d' /\
             children d ⊆ children d'.
Proof. intros (H & _) Hk. specialize (H k). rewrite Hk in H. exact H. Qed.

Lemma evolves_descriptor_back w w' k d' :
  evolves w w' -> cls w' !! k = Some (Descriptor d') ->
  exists d, cls w !! k = Some (Descriptor d) /\ same_static d d' /\
            children d ⊆ children d'.
Proof.
  intros (H & _) Hk. specialize (H k).
  destruct (cls w !! k) as [[d| |]|] eqn:E; simpl in H.
  - destruct H as (d2 & Hd2 & Hs & Hc). rewrite Hk in Hd2.
    inversion Hd2; subst. eauto.
  - congruence.
  - congruence.
  - congruence.
Qed.

Lemma evolves_method w w' f body :
  evolves w w' -> cls w !! f = Some (Method body) ->
  cls w' !! f = Some (Method body).
Proof. intros (H & _) Hk. specialize (H f). rewrite Hk in H. exact H. Qed.

(** ** A rule for every relation that the elementary assignments respect *)

Section Steps.

Variable R : world -> world -> Prop.

Hypothesis R_refl : forall w, R w w.
Hypothesis R_trans : forall w1 w2 w3, R w1 w2 -> R w2 w3 -> R w1 w3.
Hypothesis R_evolves : forall w w', R w w' -> evolves w w'.
Hypothesis R_store : forall w k v, R w (store_value k v w).
Hypothesis R_inst : forall w obj k v, R w (inst_store obj k v w).
Hypothesis R_log : forall w k, R w (log_call k w).
Hypothesis R_alloc : forall w d, R w (fst (alloc d w)).
Hypothesis R_register : forall w k d dep,
  cls w !! k = Some (Descriptor d) -> dep ∈ dependencies d ->
  R w (register_child dep (name d) w).

Lemma steps_ret {A} P (a : A) : steps R P (ret a).
Proof. intros w w' r _ H. inversion H; subst. apply R_refl. Qed.

Lemma steps_raise {A} P e : steps R P (@raise A e).
Proof. intros w w' r _ H. inversion H; subst. apply R_refl. Qed.

Lemma steps_get_world P : steps R P get_world.
Proof. intros w w' r _ H. inversion H; subst. apply R_refl. Qed.

Lemma steps_modify P f :
  (forall w, P w -> R w (f w)) -> steps R P (modify f).
Proof. intros Hf w w' r Hw H. inversion H; subst. auto. Qed.

Lemma steps_bind {A B} P (m : M A) (f : A -> M B) :
  stable R P -> steps R P m -> (forall a, steps R P (f a)) -> steps R P (bind m f).
Proof.
  intros HP Hm Hf w w' r Hw H.
  apply bind_inv in H as [(a & w1 & H1 & H2)|(r0 & H1 & _)].
  - eapply R_trans; [eapply Hm; eassumption|].
    eapply Hf; [|eassumption]. eapply HP; [eassumption|].
    eapply Hm; eassumption.
  - eapply Hm; eassumption.
Qed.

Lemma steps_for_each {A} P (l : list A) (body : A -> M unit) :
  stable R P -> (forall x, x ∈ l -> steps R P (body x)) ->
  steps R P (for_each l body).
Proof.
  intros HP. induction l as [|x l IH]; intros Hb; simpl.
  - apply steps_ret.
  - apply steps_bind; [exact HP| |].
    + apply Hb. left.
    + intros _. apply IH. intros y Hy. apply Hb. right. exact Hy.
Qed.

Lemma steps_weaken {A} (P Q : world -> Prop) (m : M A) :
  (forall w, Q w -> P w) -> steps R P m -> steps R Q m.
Proof. intros HPQ Hm w w' r Hw H. eapply Hm; eauto. Qed.

Lemma stable_always : stable R always.
Proof. intros w w' _ _. exact I. Qed.

Lemma DependentAttr_set_steps sa k self obj v :
  (forall o c x, steps R always (sa o c x)) ->
  steps R always (DependentAttr_set sa k self obj v).
Proof.
  intros Hsa. unfold DependentAttr_set.
  destruct (negb (py_is (value self) v)).
  - apply steps_bind; [apply stable_always| |].
    + apply steps_modify. intros w _. apply R_store.
    + intros _. apply steps_for_each; [apply stable_always|].
      intros c _. apply Hsa.
  - apply steps_ret.
Qed.

Lemma setattr_steps fuel obj k v : steps R always (setattr fuel obj k v).
Proof.
  revert obj k v. induction fuel as [|fuel IH]; intros obj k v.
  - intros w w' r _ H. inversion H; subst. apply R_refl.
  - intros w w' r Hw H. simpl in H.
    destruct (cls w !! k) as [[self| |]|] eqn:Hk.
    + eapply DependentAttr_set_steps; [|exact Hw|exact H].
      intros o c x. apply IH.
    + inversion H; subst. apply R_inst.
    + inversion H; subst. apply R_inst.
    + inversion H; subst. apply R_inst.
Qed.

Lemma setattr_total_steps obj k v : steps R always (setattr_total obj k v).
Proof. intros w w' r Hw H. eapply setattr_steps; eassumption. Qed.

Section WithGetattr.

Variable ga : objref -> ident -> M pyval.
Hypothesis ga_steps : forall obj k, steps R always (ga obj k).

Lemma hasattr_steps obj k : steps R always (hasattr ga obj k).
Proof.
  intros w w' r Hw H. unfold hasattr in H.
  destruct (ga obj k w) as [w1 r1] eqn:E.
  assert (R w w1) by (eapply ga_steps; eassumption).
  destruct r1 as [a|[m|k'|s]|]; inversion H; subst; assumption.
Qed.

Lemma getattr_default_steps obj k :
  steps R always (getattr_default ga obj k).
Proof.
  intros w w' r Hw H. unfold getattr_default in H.
  destruct (ga obj k w) as [w1 r1] eqn:E.
  assert (R w w1) by (eapply ga_steps; eassumption).
  destruct r1 as [a|[m|k'|s]|]; inversion H; subst; assumption.
Qed.

Lemma run_steps obj p : steps R always (run ga obj p).
Proof.
  induction p as [|k cont IH|k v cont IH|d cont IH|e]; simpl.
  - apply steps_ret.
  - apply steps_bind; [apply stable_always|apply ga_steps|exact IH].
  - apply steps_bind; [apply stable_always|apply setattr_total_steps|].
    intros _. exact IH.
  - apply steps_bind; [apply stable_always| |exact IH].
    intros w w' r _ H. pose proof (R_alloc w d) as Ha.
    rewrite H in Ha. exact Ha.
  - apply steps_raise.
Qed.

Lemma call_steps f : steps R always (call ga f).
Proof.
  destruct f as [| |a d|self func]; simpl;
    try apply steps_ret; try apply steps_raise.
  intros w w' r Hw H.
  destruct (cls w !! func) as [[d|x|body]|].
  - inversion H; subst. apply R_refl.
  - inversion H; subst. apply R_refl.
  - eapply run_steps; eassumption.
  - inversion H; subst. apply R_refl.
Qed.

Lemma stable_still k self : stable R (still k self).
Proof.
  intros w w' (d & Hd & Hs) HR. apply R_evolves in HR.
  destruct (evolves_descriptor _ _ _ _ HR Hd) as (d' & Hd' & Hs' & _).
  exists d'. split; [exact Hd'|]. eapply same_static_trans; eassumption.
Qed.

Lemma resolve_dependency_steps k self obj dependency :
  dependency ∈ dependencies self ->
  steps R (still k self) (resolve_dependency ga self obj dependency).
Proof.
  intros Hin. unfold resolve_dependency.
  apply steps_bind; [apply stable_still| |].
  { eapply steps_weaken; [|apply hasattr_steps]. intros; exact I. }
  intros has. destruct (negb has); [apply steps_raise|].
  apply steps_bind; [apply stable_still| |].
  { apply steps_modify. intros w (d & Hd & Hs).
    destruct Hs as (Hdeps & _ & Hname & _).
    rewrite <- Hname. eapply R_register; [exact Hd|].
    rewrite Hdeps. exact Hin. }
  intros _. apply steps_bind; [apply stable_still| |].
  { eapply steps_weaken; [|apply ga_steps]. intros; exact I. }
  intros attr_value. apply steps_bind; [apply stable_still| |].
  { apply steps_get_world. }
  intros w0. destruct (py_is attr_value AttrNullState && is_descriptor w0 dependency);
    [apply steps_raise|apply steps_ret].
Qed.

Lemma DependentAttr_get_steps k self obj :
  steps R (still k self) (DependentAttr_get ga k self obj).
Proof.
  unfold DependentAttr_get, recompute.
  apply steps_bind; [apply stable_still| |].
  - destruct (py_is (value self) AttrNullState); [|apply steps_ret].
    apply steps_bind; [apply stable_still| |].
    + apply steps_for_each; [apply stable_still|].
      intros dep Hdep. apply resolve_dependency_steps. exact Hdep.
    + intros _. destruct (calc_func self) as [f|]; [|apply steps_ret].
      apply steps_bind; [apply stable_still| |].
      * eapply steps_weaken; [|apply getattr_default_steps]. intros; exact I.
      * intros update_func.
        destruct (negb (py_is update_func PyNone)); [|apply steps_raise].
        apply steps_bind; [apply stable_still| |].
        -- apply steps_modify. intros w _. apply R_log.
        -- intros _. eapply steps_weaken; [|apply call_steps].
           intros; exact I.
  - intros _. apply steps_bind; [apply stable_still|apply steps_get_world|].
    intros w0. destruct (descriptor_at w0 k) as [self'|]; [|apply steps_raise].
    destruct (py_is (value self') AttrNullState);
      [apply steps_raise|apply steps_ret].
Qed.

End WithGetattr.

Lemma getattr_steps fuel obj k : steps R always (getattr fuel obj k).
Proof.
  revert obj k. induction fuel as [|fuel IH]; intros obj k.
  - intros w w' r _ H. inversion H; subst. apply R_refl.
  - intros w w' r Hw H. simpl in H.
    destruct (cls w !! k) as [[self| |]|] eqn:Hk.
    + eapply (DependentAttr_get_steps (getattr fuel) IH k self obj);
        [|exact H].
      exists self. split; [exact Hk|apply same_static_refl].
    + destruct (inst_lookup w obj k); inversion H; subst; apply R_refl.
    + destruct (inst_lookup w obj k); inversion H; subst; apply R_refl.
    + destruct (inst_lookup w obj k); inversion H; subst; apply R_refl.
Qed.

End Steps.

(** ** The elementary assignments *)

Lemma evolves_update w k d d' :
  cls w !! k = Some (Descriptor d) -> same_static d d' ->
  children d ⊆ children d' ->
  evolves w (set_cls (<[k := Descriptor d']> (cls w)) w).
Proof.
  intros Hk Hs Hc. split; [|split; [reflexivity|simpl; lia]].
  intros k'. simpl. destruct (decide (k = k')) as [<-|Hne].
  - rewrite lookup_insert_eq, Hk. simpl. eauto.
  - rewrite lookup_insert_ne by exact Hne. apply member_evolves_refl.
Qed.

Lemma evolves_store w k v : evolves w (store_value k v w).
Proof.
  unfold store_value, descriptor_at.
  destruct (cls w !! k) as [[d| |]|] eqn:Hk; try apply evolves_refl.
  eapply evolves_update; [exact Hk|repeat split|]. intros x Hx. exact Hx.
Qed.

Lemma evolves_inst w obj k v : evolves w (inst_store obj k v w).
Proof.
  split; [intros k'; apply member_evolves_refl|].
  split; [reflexivity|simpl; lia].
Qed.

Lemma evolves_log w k : evolves w (log_call k w).
Proof.
  split; [intros k'; apply member_evolves_refl|].
  split; [simpl; apply prefix_app_r; reflexivity|simpl; lia].
Qed.

Lemma evolves_alloc w d : evolves w (fst (alloc d w)).
Proof.
  split; [intros k'; apply member_evolves_refl|].
  split; [reflexivity|simpl; lia].
Qed.

Lemma evolves_register w dep c : evolves w (register_child dep c w).
Proof.
  unfold register_child, descriptor_at.
  destruct (cls w !! dep) as [[p| |]|] eqn:Hk; try apply evolves_refl.
  destruct (bool_decide (c ∈ children p)); [apply evolves_refl|].
  eapply evolves_update; [exact Hk|repeat split|].
  intros x Hx. simpl. apply elem_of_app. left. exact Hx.
Qed.

Lemma setattr_evolves fuel obj k v w w' r :
  setattr fuel obj k v w = (w', r) -> evolves w w'.
Proof.
  intros H.
  eapply (setattr_steps evolves evolves_refl evolves_trans evolves_store
            evolves_inst fuel obj k v w w' r I H).
Qed.

Lemma getattr_evolves fuel obj k w w' r :
  getattr fuel obj k w = (w', r) -> evolves w w'.
Proof.
  intros H.
  eapply (getattr_steps evolves evolves_refl evolves_trans (fun _ _ H => H)
            evolves_store evolves_inst evolves_log evolves_alloc
            (fun w _ _ dep _ _ => evolves_register w dep _)
            fuel obj k w w' r I H).
Qed.

(** ** Children are declared dependents *)

Lemma declares_evolves w w' c D :
  evolves w w' -> declares w c D -> declares w' c D.
Proof.
  intros He (k & d & Hk & Hn & Hd).
  destruct (evolves_descriptor _ _ _ _ He Hk) as (d' & Hk' & Hs & _).
  destruct Hs as (Hdeps & _ & Hname & _).
  exists k, d'. split; [exact Hk'|]. split; [congruence|].
  rewrite Hdeps. exact Hd.
Qed.

Lemma children_sound_step w w' :
  evolves w w' ->
  (forall D p p' c, cls w !! D = Some (Descriptor p) ->
                    cls w' !! D = Some (Descriptor p') -> c ∈ children p' ->
                    c ∈ children p \/ declares w' c D) ->
  children_sound w -> children_sound w'.
Proof.
  intros He Hnew Hs D p' c Hk' Hc.
  destruct (evolves_descriptor_back _ _ _ _ He Hk') as (p & Hk & _ & _).
  destruct (Hnew D p p' c Hk Hk' Hc) as [Hold|Hd]; [|exact Hd].
  eapply declares_evolves; [exact He|]. eapply Hs; eassumption.
Qed.

Lemma keeps_sound_refl w : keeps_sound w w.
Proof. split; [apply evolves_refl|auto]. Qed.

Lemma keeps_sound_trans w1 w2 w3 :
  keeps_sound w1 w2 -> keeps_sound w2 w3 -> keeps_sound w1 w3.
Proof.
  intros (He & Hs) (He' & Hs').
  split; [eapply evolves_trans; eassumption|auto].
Qed.

Lemma keeps_sound_same_children w w' :
  evolves w w' ->
  (forall D p p', cls w !! D = Some (Descriptor p) ->
                  cls w' !! D = Some (Descriptor p') ->
                  children p' = children p) ->
  keeps_sound w w'.
Proof.
  intros He Hsame. split; [exact He|].
  apply children_sound_step; [exact He|].
  intros D p p' c Hk Hk' Hc. left.
  rewrite <- (Hsame D p p' Hk Hk'). exact Hc.
Qed.

Lemma keeps_sound_store w k v : keeps_sound w (store_value k v w).
Proof.
  apply keeps_sound_same_children; [apply evolves_store|].
  intros D p p' Hk. unfold store_value, descriptor_at.
  destruct (cls w !! k) as [[d| |]|] eqn:Hd; try congruence.
  simpl. destruct (decide (k = D)) as [->|Hne].
  - rewrite lookup_insert_eq. intros H. inversion H; subst. simpl. congruence.
  - rewrite lookup_insert_ne by exact Hne. congruence.
Qed.

Lemma keeps_sound_inst w obj k v : keeps_sound w (inst_store obj k v w).
Proof.
  apply keeps_sound_same_children; [apply evolves_inst|].
  simpl. congruence.
Qed.

Lemma keeps_sound_log w k : keeps_sound w (log_call k w).
Proof.
  apply keeps_sound_same_children; [apply evolves_log|].
  simpl. congruence.
Qed.

Lemma keeps_sound_alloc w d : keeps_sound w (fst (alloc d w)).
Proof.
  apply keeps_sound_same_children; [apply evolves_alloc|].
  simpl. congruence.
Qed.

Lemma keeps_sound_register w k d dep :
  cls w !! k = Some (Descriptor d) -> dep ∈ dependencies d ->
  keeps_sound w (register_child dep (name d) w).
Proof.
  intros Hk Hdep. split; [apply evolves_register|].
  apply children_sound_step; [apply evolves_register|].
  intros D p p' c HD. unfold register_child, descriptor_at.
  destruct (cls w !! dep) as [[q| |]|] eqn:Hq;
    try (intros H Hc; left; congruence).
  destruct (bool_decide (name d ∈ children q));
    [intros H Hc; left; congruence|].
  simpl. destruct (decide (dep = D)) as [->|Hne].
  - rewrite lookup_insert_eq. intros H. inversion H; subst. simpl.
    intros Hc. apply elem_of_app in Hc as [Hc|Hc].
    + left. congruence.
    + right. apply list_elem_of_singleton in Hc. subst c.
      apply (declares_evolves w); [|exists k, d; auto].
      eapply evolves_update; [exact Hq|repeat split|].
      intros x Hx. simpl. apply elem_of_app. left. exact Hx.
  - rewrite lookup_insert_ne by exact Hne. intros H Hc. left. congruence.
Qed.

Lemma setattr_keeps_sound fuel obj k v w w' r :
  setattr fuel obj k v w = (w', r) -> keeps_sound w w'.
Proof.
  intros H.
  eapply (setattr_steps keeps_sound keeps_sound_refl keeps_sound_trans
            keeps_sound_store keeps_sound_inst fuel obj k v w w' r I H).
Qed.

Lemma getattr_keeps_sound fuel obj k w w' r :
  getattr fuel obj k w = (w', r) -> keeps_sound w w'.
Proof.
  intros H.
  eapply (getattr_steps keeps_sound keeps_sound_refl keeps_sound_trans
            (fun _ _ H => proj1 H)
            keeps_sound_store keeps_sound_inst keeps_sound_log
            keeps_sound_alloc keeps_sound_register
            fuel obj k w w' r I H).
Qed.

(** ** A successful read of an invalid attribute registers it *)

Lemma register_child_in w dep c q :
  cls w !! dep = Some (Descriptor q) ->
  exists q', cls (register_child dep c w) !! dep = Some (Descriptor q') /\
             c ∈ children q'.
Proof.
  intros Hq. unfold register_child, descriptor_at. rewrite Hq.
  destruct (bool_decide (c ∈ children q)) eqn:Hb.
  - apply bool_decide_eq_true in Hb. eauto.
  - simpl. rewrite lookup_insert_eq. eexists. split; [reflexivity|].
    simpl. apply elem_of_app. right. left.
Qed.

Lemma getattr_steps_evolves fuel obj k :
  steps evolves always (getattr fuel obj k).
Proof. intros w w' r _ H. eapply getattr_evolves. exact H. Qed.

Lemma hasattr_evolves fuel obj k w w' r :
  hasattr (getattr fuel) obj k w = (w', r) -> evolves w w'.
Proof.
  intros H.
  eapply (hasattr_steps evolves (getattr fuel) (getattr_steps_evolves fuel)
            obj k w w' r I H).
Qed.

Lemma getattr_default_evolves fuel obj k w w' r :
  getattr_default (getattr fuel) obj k w = (w', r) -> evolves w w'.
Proof.
  intros H.
  eapply (getattr_default_steps evolves (getattr fuel)
            (getattr_steps_evolves fuel) obj k w w' r I H).
Qed.

Lemma call_evolves fuel f w w' r :
  call (getattr fuel) f w = (w', r) -> evolves w w'.
Proof.
  intros H.
  eapply (call_steps evolves evolves_refl evolves_trans evolves_store
            evolves_inst evolves_alloc (getattr fuel)
            (getattr_steps_evolves fuel) f w w' r I H).
Qed.

Lemma resolve_dependency_evolves fuel self obj dep w w' r :
  resolve_dependency (getattr fuel) self obj dep w = (w', r) -> evolves w w'.
Proof.
  unfold resolve_dependency. intros H.
  apply bind_inv in H as [(has & w1 & H1 & H)|(r0 & H1 & _)];
    [|eapply hasattr_evolves; eassumption].
  apply hasattr_evolves in H1. eapply evolves_trans; [exact H1|].
  destruct (negb has); [inversion H; subst; apply evolves_refl|].
  apply bind_inv in H as [(u & w2 & H2 & H)|(r0 & H2 & _)];
    [|inversion H2; subst; apply evolves_register].
  inversion H2; subst. eapply evolves_trans; [apply evolves_register|].
  apply bind_inv in H as [(a & w3 & H3 & H)|(r0 & H3 & _)];
    [|eapply getattr_evolves; eassumption].
  apply getattr_evolves in H3. eapply evolves_trans; [exact H3|].
  unfold bind, get_world in H.
  destruct (py_is a AttrNullState && is_descriptor w3 dep);
    inversion H; subst; apply evolves_refl.
Qed.

Lemma for_each_resolve_evolves fuel self obj deps w w' r :
  for_each deps (resolve_dependency (getattr fuel) self obj) w = (w', r) ->
  evolves w w'.
Proof.
  revert w. induction deps as [|dep deps IH]; intros w H; simpl in H.
  - inversion H; subst. apply evolves_refl.
  - apply bind_inv in H as [(u & w1 & H1 & H)|(r0 & H1 & _)].
    + eapply evolves_trans;
        [eapply resolve_dependency_evolves; eassumption|eauto].
    + eapply resolve_dependency_evolves; eassumption.
Qed.

Lemma resolve_dependency_registers fuel self obj dep w w' p :
  resolve_dependency (getattr fuel) self obj dep w = (w', Ok tt) ->
  cls w' !! dep = Some (Descriptor p) -> name self ∈ children p.
Proof.
  unfold resolve_dependency. intros H Hp.
  apply bind_inv in H as [(has & w1 & H1 & H)|(r0 & _ & Hf)];
    [|exfalso; eapply failure_not_ok; eauto].
  destruct (negb has); [discriminate H|].
  apply bind_inv in H as [(u & w2 & H2 & H)|(r0 & _ & Hf)];
    [|exfalso; eapply failure_not_ok; eauto].
  inversion H2; subst. clear H2.
  assert (Hev : evolves (register_child dep (name self) w1) w').
  { apply bind_inv in H as [(a & w3 & H3 & H)|(r0 & H3 & _)];
      [|eapply getattr_evolves; eassumption].
    apply getattr_evolves in H3. eapply evolves_trans; [exact H3|].
    unfold bind, get_world in H.
    destruct (py_is a AttrNullState && is_descriptor w3 dep);
      inversion H; subst; apply evolves_refl. }
  destruct (evolves_descriptor_back _ _ _ _ Hev Hp) as (q2 & Hq2 & _ & Hc2).
  destruct (evolves_descriptor_back _ _ _ _
              (evolves_register w1 dep (name self)) Hq2) as (q1 & Hq1 & _ & _).
  destruct (register_child_in w1 dep (name self) q1 Hq1) as (q' & Hq' & Hin).
  rewrite Hq2 in Hq'. inversion Hq'; subst. apply Hc2. exact Hin.
Qed.

Lemma for_each_resolve_registers fuel self obj deps w w' :
  for_each deps (resolve_dependency (getattr fuel) self obj) w = (w', Ok tt) ->
  forall dep p, dep ∈ deps -> cls w' !! dep = Some (Descriptor p) ->
                name self ∈ children p.
Proof.
  revert w. induction deps as [|d deps IH]; intros w H dep p Hin Hp.
  - inversion Hin.
  - simpl in H.
    apply bind_inv in H as [([] & w1 & H1 & H)|(r0 & _ & Hf)];
      [|exfalso; eapply failure_not_ok; eauto].
    apply elem_of_cons in Hin as [->|Hin].
    + apply for_each_resolve_evolves in H.
      destruct (evolves_descriptor_back _ _ _ _ H Hp) as (q & Hq & _ & Hc).
      apply Hc. eapply resolve_dependency_registers; eassumption.
    + eapply IH; eassumption.
Qed.

(** What [__get__] does once the attribute has been recomputed: it reads
    [self.value] again and returns it, unless it is still the marker. *)
Lemma DependentAttr_get_tail k self w1 w' (r : outcome pyval) :
  (w <- get_world ;;
   match descriptor_at w k with
   | Some self' =>
       if py_is (value self') AttrNullState then
         raise (ValueError (NotUpdated (name self) (calc_func self)))
       else ret (value self')
   | None => raise (AttributeError k)
   end)%py w1 = (w', r) ->
  w' = w1 /\
  forall v, r = Ok v ->
    exists d, descriptor_at w1 k = Some d /\ value d = v /\
              py_is v AttrNullState = false.
Proof.
  unfold bind, get_world. destruct (descriptor_at w1 k) as [d|].
  - destruct (py_is (value d) AttrNullState) eqn:E; intros H; inversion H;
      subst; (split; [reflexivity|]); intros v Hv; inversion Hv; subst.
    eauto.
  - intros H. inversion H; subst. split; [reflexivity|]. discriminate.
Qed.

Lemma read_registers fuel obj k self w w' v :
  cls w !! k = Some (Descriptor self) ->
  py_is (value self) AttrNullState = true ->
  getattr fuel obj k w = (w', Ok v) -> registered w' k.
Proof.
  intros Hk Hnull H. pose proof (getattr_evolves _ _ _ _ _ _ H) as Hev.
  destruct fuel as [|fuel]; [discriminate H|]. simpl in H. rewrite Hk in H.
  unfold DependentAttr_get, recompute in H. rewrite Hnull in H.
  apply bind_inv in H as [(u & w1 & H1 & H2)|(r0 & _ & Hf)];
    [|exfalso; eapply failure_not_ok; eauto].
  apply DependentAttr_get_tail in H2 as (-> & _).
  apply bind_inv in H1 as [([] & w2 & Hloop & Hcalc)|(r0 & _ & Hf)];
    [|exfalso; eapply failure_not_ok; eauto].
  assert (He2 : evolves w2 w1).
  { destruct (calc_func self) as [f|]; [|inversion Hcalc; subst; apply evolves_refl].
    apply bind_inv in Hcalc as [(uf & w3 & H3 & H4)|(r0 & H3 & _)];
      [|eapply getattr_default_evolves; eassumption].
    apply getattr_default_evolves in H3. eapply evolves_trans; [exact H3|].
    destruct (negb (py_is uf PyNone)); [|inversion H4; subst; apply evolves_refl].
    apply bind_inv in H4 as [(u' & w4 & H5 & H6)|(r0 & H5 & _)];
      [|inversion H5; subst; apply evolves_log].
    inversion H5; subst. eapply evolves_trans; [apply evolves_log|].
    eapply call_evolves; eassumption. }
  intros d dep p Hd Hdep Hp.
  destruct (evolves_descriptor _ _ _ _ Hev Hk) as (d' & Hd' & Hs & _).
  rewrite Hd in Hd'. inversion Hd'; subst d'.
  destruct Hs as (Hdeps & _ & Hname & _). rewrite Hname.
  destruct (evolves_descriptor_back _ _ _ _ He2 Hp) as (q & Hq & _ & Hc).
  apply Hc. eapply for_each_resolve_registers; [exact Hloop| |exact Hq].
  rewrite <- Hdeps. exact Hdep.
Qed.

Lemma registered_evolves w w' k :
  evolves w w' -> registered w k -> registered w' k.
Proof.
  intros He Hr d' dep p' Hd' Hdep Hp'.
  destruct (evolves_descriptor_back _ _ _ _ He Hd') as (d & Hd & Hs & _).
  destruct (evolves_descriptor_back _ _ _ _ He Hp') as (p & Hp & _ & Hc).
  destruct Hs as (Hdeps & _ & Hname & _). rewrite Hname. apply Hc.
  eapply Hr; [exact Hd| |exact Hp]. rewrite <- Hdeps. exact Hdep.
Qed.

Lemma children_complete w D p c :
  (forall k, registered w k) -> cls w !! D = Some (Descriptor p) ->
  declares w c D -> c ∈ children p.
Proof.
  intros Hr HD (k & d & Hk & <- & Hdep). eapply Hr; eassumption.
Qed.

(** ** The write protocol: identity, frame and termination *)

(** Assigning the very object that is stored changes nothing at all. *)
Lemma setattr_same_object fuel obj k d v w :
  cls w !! k = Some (Descriptor d) -> py_is (value d) v = true ->
  setattr (S fuel) obj k v w = (w, Ok tt).
Proof.
  intros Hk His. simpl. rewrite Hk. unfold DependentAttr_set.
  rewrite His. reflexivity.
Qed.

Lemma keeps_children_refl w : keeps_children w w.
Proof. split; [apply evolves_refl|]. intros D p p' H H'. congruence. Qed.

Lemma keeps_children_trans w1 w2 w3 :
  keeps_children w1 w2 -> keeps_children w2 w3 -> keeps_children w1 w3.
Proof.
  intros (He & Hc) (He' & Hc').
  split; [eapply evolves_trans; eassumption|].
  intros D p1 p3 H1 H3.
  destruct (evolves_descriptor _ _ _ _ He H1) as (p2 & H2 & _ & _).
  rewrite (Hc' D p2 p3 H2 H3). apply (Hc D p1 p2 H1 H2).
Qed.

Lemma keeps_children_store w k v : keeps_children w (store_value k v w).
Proof.
  split; [apply evolves_store|].
  intros D p p' Hk. unfold store_value, descriptor_at.
  destruct (cls w !! k) as [[d| |]|] eqn:Hd; try congruence.
  simpl. destruct (decide (k = D)) as [->|Hne].
  - rewrite lookup_insert_eq. intros H. inversion H; subst. simpl. congruence.
  - rewrite lookup_insert_ne by exact Hne. congruence.
Qed.

Lemma keeps_children_inst w obj k v : keeps_children w (inst_store obj k v w).
Proof. split; [apply evolves_inst|]. simpl. congruence. Qed.

Lemma setattr_keeps_children fuel obj k v w w' r :
  setattr fuel obj k v w = (w', r) -> keeps_children w w'.
Proof.
  intros H.
  eapply (setattr_steps keeps_children keeps_children_refl
            keeps_children_trans keeps_children_store keeps_children_inst
            fuel obj k v w w' r I H).
Qed.

Lemma unregistered_keeps w w' B :
  keeps_children w w' -> unregistered w B -> unregistered w' B.
Proof.
  intros (He & Hc) Hu X q' Hq'.
  destruct (evolves_descriptor_back _ _ _ _ He Hq') as (q & Hq & _ & _).
  rewrite (Hc X q q' Hq Hq'). eapply Hu. exact Hq.
Qed.

Lemma store_value_other w k v B :
  B <> k -> cls (store_value k v w) !! B = cls w !! B.
Proof.
  intros Hne. unfold store_value. destruct (descriptor_at w k); [|reflexivity].
  simpl. apply lookup_insert_ne. congruence.
Qed.

Lemma setattr_frame fuel : forall obj A v w w' r B,
  setattr fuel obj A v w = (w', r) -> B <> A -> unregistered w B ->
  cls w' !! B = cls w !! B.
Proof.
  induction fuel as [|fuel IH]; intros obj A v w w' r B H Hne Hu.
  - inversion H; subst. reflexivity.
  - simpl in H. destruct (cls w !! A) as [[self| |]|] eqn:HA;
      try (inversion H; subst; reflexivity).
    unfold DependentAttr_set in H.
    destruct (negb (py_is (value self) v)); [|inversion H; subst; reflexivity].
    apply bind_inv in H as [(u & w1 & H1 & H)|(r0 & H1 & _)];
      [|inversion H1; subst; apply store_value_other; exact Hne].
    inversion H1; subst. clear H1.
    rewrite <- (store_value_other w A v B Hne).
    assert (Hu1 : unregistered (store_value A v w) B)
      by (eapply unregistered_keeps; [apply keeps_children_store|exact Hu]).
    assert (Hnotin : B ∉ children self) by (eapply Hu; exact HA).
    revert Hu1 H Hnotin. generalize (store_value A v w) as w1.
    generalize (children self) as cs. clear HA Hu.
    induction cs as [|c cs IHcs]; intros w1 Hu1 H Hnotin; simpl in H.
    + inversion H; subst. reflexivity.
    + apply not_elem_of_cons in Hnotin as (Hc & Hcs).
      apply bind_inv in H as [(u' & w2 & H2 & H)|(r0 & H2 & _)].
      * rewrite <- (IH _ _ _ _ _ _ B H2 Hc Hu1). apply IHcs; [|exact H|exact Hcs].
        eapply unregistered_keeps; [|exact Hu1].
        eapply setattr_keeps_children; exact H2.
      * eapply IH; eassumption.
Qed.

(** Termination: every effective invalidation removes a valid slot. *)

Lemma valid_slots_store_null w k self :
  cls w !! k = Some (Descriptor self) ->
  py_is (value self) AttrNullState = false ->
  size (valid_slots (store_value k AttrNullState w)) < size (valid_slots w).
Proof.
  intros Hk Hv. unfold valid_slots, store_value, descriptor_at. rewrite Hk.
  simpl. rewrite map_filter_insert_False by (simpl; discriminate).
  rewrite map_filter_delete, map_size_delete.
  assert (Hin : filter (fun km : string * member => is_valid km.2 = true)
                  (cls w) !! k = Some (Descriptor self)).
  { apply map_lookup_filter_Some_2; [exact Hk|]. simpl. rewrite Hv.
    reflexivity. }
  rewrite Hin.
  assert (size (filter (fun km : string * member => is_valid km.2 = true)
                  (cls w)) <> 0).
  { apply map_size_non_empty_iff. intros He. rewrite He in Hin.
    rewrite lookup_empty in Hin. discriminate. }
  lia.
Qed.

Lemma valid_slots_store w k v :
  size (valid_slots (store_value k v w)) <= S (size (valid_slots w)).
Proof.
  unfold valid_slots, store_value, descriptor_at.
  destruct (cls w !! k) as [[self| |]|] eqn:Hk; try lia.
  simpl. rewrite map_filter_insert. case_decide.
  - rewrite map_size_insert.
    destruct (filter _ (cls w) !! k); simpl; lia.
  - rewrite map_filter_delete, map_size_delete.
    destruct (filter _ (cls w) !! k); simpl; lia.
Qed.

Lemma valid_slots_bound w : size (valid_slots w) <= size (cls w).
Proof. apply map_subseteq_size, map_filter_subseteq. Qed.

Lemma invalidate_terminates fuel : forall obj k w,
  size (valid_slots w) < fuel ->
  exists w', setattr fuel obj k AttrNullState w = (w', Ok tt) /\
             size (valid_slots w') <= size (valid_slots w).
Proof.
  induction fuel as [|fuel IH]; intros obj k w Hlt; [lia|].
  simpl. destruct (cls w !! k) as [[self| |]|] eqn:Hk;
    try (eexists; split; [reflexivity|unfold valid_slots; simpl; lia]).
  unfold DependentAttr_set.
  destruct (py_is (value self) AttrNullState) eqn:Hv; simpl;
    [eexists; split; [reflexivity|lia]|].
  unfold bind at 1. simpl.
  pose proof (valid_slots_store_null w k self Hk Hv) as Hdec.
  assert (Hloop : forall cs w1, size (valid_slots w1) < fuel ->
            exists w', for_each cs (fun child =>
                         setattr fuel obj child AttrNullState) w1 = (w', Ok tt)
                       /\ size (valid_slots w') <= size (valid_slots w1)).
  { induction cs as [|c cs IHcs]; intros w1 H1; simpl.
    - eexists; split; [reflexivity|lia].
    - destruct (IH obj c w1 H1) as (w2 & E2 & Hle).
      unfold bind. rewrite E2.
      destruct (IHcs w2 ltac:(lia)) as (w3 & E3 & Hle3).
      exists w3. split; [exact E3|lia]. }
  destruct (Hloop (children self) (store_value k AttrNullState w) ltac:(lia))
    as (w' & E & Hle).
  exists w'. split; [exact E|lia].
Qed.

Lemma enough_fuel_for_write fuel obj k v w :
  size (valid_slots w) + 3 <= fuel ->
  exists w', setattr fuel obj k v w = (w', Ok tt).
Proof.
  destruct fuel as [|fuel]; [lia|]. intros Hle. simpl.
  destruct (cls w !! k) as [[self| |]|] eqn:Hk;
    try (eexists; reflexivity).
  unfold DependentAttr_set.
  destruct (negb (py_is (value self) v)); [|eexists; reflexivity].
  unfold bind at 1. simpl.
  pose proof (valid_slots_store w k v) as Hst.
  assert (Hloop : forall cs w1, size (valid_slots w1) < fuel ->
            exists w', for_each cs (fun child =>
                         setattr fuel obj child AttrNullState) w1 = (w', Ok tt)).
  { induction cs as [|c cs IHcs]; intros w1 H1; simpl.
    - eexists; reflexivity.
    - destruct (invalidate_terminates fuel obj c w1 H1) as (w2 & E2 & Hle2).
      unfold bind. rewrite E2. apply IHcs. lia. }
  apply Hloop. lia.
Qed.

Lemma setattr_total_ok obj k v w :
  exists w', setattr_total obj k v w = (w', Ok tt).
Proof.
  unfold setattr_total, set_fuel. apply enough_fuel_for_write.
  pose proof (valid_slots_bound w). lia.
Qed.

(** ** The read protocol: memoization *)

(** A valid slot is returned at once; nothing is assigned or called. *)
Lemma getattr_hit fuel obj k d w :
  cls w !! k = Some (Descriptor d) -> py_is (value d) AttrNullState = false ->
  getattr (S fuel) obj k w = (w, Ok (value d)).
Proof.
  intros Hk Hv. simpl. rewrite Hk. unfold DependentAttr_get, recompute. rewrite Hv.
  unfold bind, ret, get_world, descriptor_at. rewrite Hk, Hv. reflexivity.
Qed.

(** A read of a descriptor that returns, returns what the slot holds then,
    and this is never the marker. *)
Lemma getattr_ok_slot fuel obj k d w w' v :
  cls w !! k = Some (Descriptor d) -> getattr fuel obj k w = (w', Ok v) ->
  exists d', cls w' !! k = Some (Descriptor d') /\ value d' = v /\
             py_is v AttrNullState = false.
Proof.
  intros Hk H. destruct fuel as [|fuel]; [discriminate H|].
  simpl in H. rewrite Hk in H. unfold DependentAttr_get, recompute in H.
  apply bind_inv in H as [(u & w1 & H1 & H2)|(r0 & _ & Hf)];
    [|exfalso; eapply failure_not_ok; eauto].
  apply DependentAttr_get_tail in H2 as (-> & H2).
  destruct (H2 v eq_refl) as (d' & Hd' & Hv & Hn).
  exists d'. split; [|auto]. unfold descriptor_at in Hd'.
  destruct (cls w1 !! k) as [[x| |]|]; congruence.
Qed.

Lemma getattr_plain fuel obj k w w' r :
  descriptor_at w k = None -> getattr fuel obj k w = (w', r) ->
  w' = w /\ forall fuel', r <> OutOfFuel -> getattr (S fuel') obj k w = (w, r).
Proof.
  intros Hn H. destruct fuel as [|fuel].
  - inversion H; subst. split; [reflexivity|]. intros fuel' Hr. congruence.
  - simpl in *. unfold descriptor_at in Hn.
    destruct (cls w !! k) as [[x| |]|]; try discriminate Hn;
      destruct (inst_lookup w obj k); inversion H; subst; auto.
Qed.

Lemma getattr_again fuel fuel' obj k w w' v :
  getattr fuel obj k w = (w', Ok v) ->
  getattr (S fuel') obj k w' = (w', Ok v).
Proof.
  intros H. destruct (cls w !! k) as [[d| |]|] eqn:Hk.
  - destruct (getattr_ok_slot _ _ _ _ _ _ _ Hk H) as (d' & Hd' & <- & Hv).
    apply getattr_hit; assumption.
  - apply getattr_plain in H as (-> & H);
      [apply H; discriminate|unfold descriptor_at; rewrite Hk; reflexivity].
  - apply getattr_plain in H as (-> & H);
      [apply H; discriminate|unfold descriptor_at; rewrite Hk; reflexivity].
  - apply getattr_plain in H as (-> & H);
      [apply H; discriminate|unfold descriptor_at; rewrite Hk; reflexivity].
Qed.

(** ** The contract of update functions and what is called during a read *)

Lemma contract_static rk w w' :
  evolves w w' -> instances_hold_no_method w' -> children_ranked rk w' ->
  contract rk w -> contract rk w'.
Proof.
  intros He Hi Hr (H0 & H1 & H2 & _ & _).
  split; [|split; [|split; [|split; assumption]]].
  - intros k d' Hk.
    destruct (evolves_descriptor_back _ _ _ _ He Hk) as (d & Hd & Hs & _).
    destruct Hs as (_ & _ & Hname & _). rewrite Hname. eapply H0. exact Hd.
  - intros k d' dep Hk Hdep.
    destruct (evolves_descriptor_back _ _ _ _ He Hk) as (d & Hd & Hs & _).
    destruct Hs as (Hdeps & _). eapply H1; [exact Hd|]. congruence.
  - intros k d' f Hk Hf.
    destruct (evolves_descriptor_back _ _ _ _ He Hk) as (d & Hd & Hs & _).
    destruct Hs as (_ & Hcalc & _).
    destruct (H2 k d f Hd ltac:(congruence)) as (body & Hb & Hr').
    exists body. split; [eapply evolves_method; eassumption|exact Hr'].
Qed.

Lemma children_ranked_keeps rk w w' :
  keeps_children w w' -> children_ranked rk w -> children_ranked rk w'.
Proof.
  intros (He & Hc) Hr X q' c Hq' Hin.
  destruct (evolves_descriptor_back _ _ _ _ He Hq') as (q & Hq & _ & _).
  rewrite (Hc X q q' Hq Hq') in Hin. eapply Hr; eassumption.
Qed.

Lemma contract_keeps rk w w' :
  keeps_children w w' ->
  (instances_hold_no_method w -> instances_hold_no_method w') ->
  contract rk w -> contract rk w'.
Proof.
  intros Hk Hi Hc. pose proof Hc as (_ & _ & _ & Hi0 & Hr).
  eapply contract_static; [exact (proj1 Hk)|auto| |exact Hc].
  eapply children_ranked_keeps; eassumption.
Qed.

Lemma keeps_children_log w k : keeps_children w (log_call k w).
Proof. split; [apply evolves_log|]. simpl. congruence. Qed.

Lemma keeps_children_alloc w d : keeps_children w (fst (alloc d w)).
Proof. split; [apply evolves_alloc|]. simpl. congruence. Qed.

Lemma register_child_quiet w dep c :
  inst (register_child dep c w) = inst w /\
  calls (register_child dep c w) = calls w.
Proof.
  unfold register_child. destruct (descriptor_at w dep) as [p|]; [|auto].
  destruct (bool_decide (c ∈ children p)); auto.
Qed.

Lemma contract_register rk w dep c :
  rk dep < rk c -> contract rk w -> contract rk (register_child dep c w).
Proof.
  intros Hlt Hc. pose proof Hc as (_ & _ & _ & Hi & Hr).
  eapply contract_static; [apply evolves_register| | |exact Hc].
  - intros obj k v. unfold inst_lookup.
    rewrite (proj1 (register_child_quiet w dep c)). apply Hi.
  - intros X q' c' Hq' Hin. unfold register_child, descriptor_at in Hq'.
    destruct (cls w !! dep) as [[p| |]|] eqn:Hp;
      try (eapply Hr; eassumption).
    destruct (bool_decide (c ∈ children p)); [eapply Hr; eassumption|].
    simpl in Hq'. destruct (decide (dep = X)) as [->|Hne].
    + rewrite lookup_insert_eq in Hq'. inversion Hq'; subst. simpl in Hin.
      apply elem_of_app in Hin as [Hin|Hin]; [eapply Hr; eassumption|].
      apply list_elem_of_singleton in Hin. subst c'. exact Hlt.
    + rewrite lookup_insert_ne in Hq' by exact Hne. eapply Hr; eassumption.
Qed.

Lemma inst_store_no_method obj k v w :
  is_bound_method v = false -> instances_hold_no_method w ->
  instances_hold_no_method (inst_store obj k v w).
Proof.
  intros Hv Hok o x y. unfold inst_lookup, inst_store. simpl.
  destruct (decide (obj = o)) as [->|Hne].
  - rewrite lookup_insert_eq. destruct (decide (k = x)) as [->|Hnx].
    + rewrite lookup_insert_eq. intros E. inversion E; subst. exact Hv.
    + rewrite lookup_insert_ne by exact Hnx.
      specialize (Hok o x y). unfold inst_lookup in Hok.
      destruct (inst w !! o); simpl; [exact Hok|].
      rewrite lookup_empty. discriminate.
  - rewrite lookup_insert_ne by exact Hne. apply (Hok o x y).
Qed.

Lemma store_value_quiet k v w :
  calls (store_value k v w) = calls w /\ inst (store_value k v w) = inst w.
Proof. unfold store_value. destruct (descriptor_at w k); auto. Qed.

(** An assignment calls nothing and stores a method only if it is given one. *)
Lemma setattr_quiet fuel : forall obj k v w w' r,
  setattr fuel obj k v w = (w', r) ->
  calls w' = calls w /\
  (is_bound_method v = false ->
   instances_hold_no_method w -> instances_hold_no_method w').
Proof.
  induction fuel as [|fuel IH]; intros obj k v w w' r H.
  - inversion H; subst. auto.
  - simpl in H.
    destruct (cls w !! k) as [[self| |]|] eqn:Hk;
      try (inversion H; subst; split;
           [reflexivity|apply inst_store_no_method]).
    unfold DependentAttr_set in H.
    destruct (negb (py_is (value self) v)); [|inversion H; subst; auto].
    apply bind_inv in H as [(u & w1 & H1 & H)|(r0 & H1 & Hf)];
      [|inversion H1; subst; discriminate Hf].
    inversion H1; subst. clear H1.
    destruct (store_value_quiet k v w) as (Hc & Hi).
    assert (Hloop : forall cs w1 w2 r2,
      for_each cs (fun child => setattr fuel obj child AttrNullState) w1
        = (w2, r2) ->
      calls w2 = calls w1 /\
      (instances_hold_no_method w1 -> instances_hold_no_method w2)).
    { induction cs as [|c cs IHcs]; intros w1 w2 r2 E; simpl in E.
      - inversion E; subst. auto.
      - apply bind_inv in E as [(u' & w3 & E1 & E)|(r0 & E1 & _)].
        + destruct (IH _ _ _ _ _ _ E1) as (Hc1 & Hi1).
          destruct (IHcs _ _ _ E) as (Hc2 & Hi2).
          split; [congruence|]. intros Hok. apply Hi2, Hi1;
            [reflexivity|exact Hok].
        + destruct (IH _ _ _ _ _ _ E1) as (Hc1 & Hi1).
          split; [exact Hc1|]. intros Hok. apply Hi1; [reflexivity|exact Hok]. }
    destruct (Hloop _ _ _ _ H) as (Hc' & Hi').
    split; [congruence|]. intros _ Hok. apply Hi'.
    intros o x y. unfold inst_lookup. rewrite Hi. apply Hok.
Qed.

(** With ranked children, an assignment to [c] only touches the slots
    ranked at least as high as [c]. *)
Lemma setattr_rank_frame rk fuel : forall obj c v w w' r X,
  children_ranked rk w -> setattr fuel obj c v w = (w', r) ->
  rk X < rk c -> cls w' !! X = cls w !! X.
Proof.
  induction fuel as [|fuel IH]; intros obj c v w w' r X Hr H Hlt.
  - inversion H; subst. reflexivity.
  - simpl in H. destruct (cls w !! c) as [[self| |]|] eqn:Hc;
      try (inversion H; subst; reflexivity).
    unfold DependentAttr_set in H.
    destruct (negb (py_is (value self) v)); [|inversion H; subst; reflexivity].
    assert (Hne : X <> c) by (intros ->; lia).
    apply bind_inv in H as [(u & w1 & H1 & H)|(r0 & H1 & _)];
      [|inversion H1; subst; apply store_value_other; exact Hne].
    inversion H1; subst. clear H1.
    rewrite <- (store_value_other w c v X Hne).
    assert (Hr1 : children_ranked rk (store_value c v w))
      by (eapply children_ranked_keeps; [apply keeps_children_store|exact Hr]).
    assert (Hcs : forall x, x ∈ children self -> rk c < rk x)
      by (intros x Hx; eapply Hr; eassumption).
    revert Hr1 H Hcs. generalize (store_value c v w) as w1.
    generalize (children self) as cs. clear Hc Hr.
    induction cs as [|x cs IHcs]; intros w1 Hr1 H Hcs; simpl in H.
    + inversion H; subst. reflexivity.
    + assert (Hx : rk X < rk x) by (specialize (Hcs x ltac:(left)); lia).
      apply bind_inv in H as [(u' & w2 & H2 & H)|(r0 & H2 & _)].
      * rewrite <- (IH _ _ _ _ _ _ X Hr1 H2 Hx). apply IHcs; [|exact H|].
        -- eapply children_ranked_keeps; [|exact Hr1].
           eapply setattr_keeps_children; exact H2.
        -- intros y Hy. apply Hcs. right. exact Hy.
      * eapply IH; eassumption.
Qed.

Lemma invalidate_all_rank_frame rk fuel obj X : forall cs w w' r,
  children_ranked rk w ->
  for_each cs (fun child => setattr fuel obj child AttrNullState) w = (w', r) ->
  (forall x, x ∈ cs -> rk X < rk x) -> cls w' !! X = cls w !! X.
Proof.
  induction cs as [|x cs IHcs]; intros w w' r Hr H Hcs; simpl in H.
  - inversion H; subst. reflexivity.
  - assert (Hx : rk X < rk x) by (apply Hcs; left).
    apply bind_inv in H as [(u & w1 & H1 & H)|(r0 & H1 & _)].
    + rewrite <- (setattr_rank_frame rk _ _ _ _ _ _ _ X Hr H1 Hx).
      eapply IHcs; [|exact H|].
      * eapply children_ranked_keeps; [|exact Hr].
        eapply setattr_keeps_children; exact H1.
      * intros y Hy. apply Hcs. right. exact Hy.
    + eapply setattr_rank_frame; eassumption.
Qed.

(** So the slot that was assigned a value still holds one afterwards. *)
Lemma setattr_leaves_valid rk fuel obj k v w w' r :
  children_ranked rk w -> py_is v AttrNullState = false ->
  setattr (S fuel) obj k v w = (w', r) -> quiet_read (Some k) w'.
Proof.
  intros Hr Hv H d' Hd'. simpl in H.
  destruct (cls w !! k) as [[self| |]|] eqn:Hk;
    try (inversion H; subst; simpl in Hd'; congruence).
  unfold DependentAttr_set in H.
  destruct (py_is (value self) v) eqn:His; simpl in H.
  - inversion H; subst. rewrite Hk in Hd'. inversion Hd'; subst.
    destruct (value d') as [| |p x|o f], v as [| |q y|o' f'];
      simpl in *; congruence.
  - apply bind_inv in H as [(u & w1 & H1 & H)|(r0 & H1 & Hf)];
      [|inversion H1; subst; discriminate Hf].
    inversion H1; subst. clear H1.
    assert (Hk1 : cls (store_value k v w) !! k
                  = Some (Descriptor (with_value v self))).
    { unfold store_value, descriptor_at. rewrite Hk. simpl.
      apply lookup_insert_eq. }
    rewrite (invalidate_all_rank_frame rk fuel obj k _ _ _ _
               (children_ranked_keeps _ _ _ (keeps_children_store w k v) Hr) H)
      in Hd'.
    + rewrite Hk1 in Hd'. inversion Hd'; subst. exact Hv.
    + intros x Hx. eapply Hr; eassumption.
Qed.

Lemma calls_below_refl rk b w : calls_below rk b w w.
Proof.
  intros Hc. split; [exact Hc|]. exists []. split; [by rewrite app_nil_r|].
  intros x Hx. inversion Hx.
Qed.

Lemma calls_below_trans rk b w1 w2 w3 :
  calls_below rk b w1 w2 -> calls_below rk b w2 w3 -> calls_below rk b w1 w3.
Proof.
  intros H12 H23 Hc. destruct (H12 Hc) as (Hc2 & l & El & Hl).
  destruct (H23 Hc2) as (Hc3 & l' & El' & Hl').
  split; [exact Hc3|]. exists (l ++ l').
  split; [rewrite El', El, app_assoc; reflexivity|].
  intros x Hx. apply elem_of_app in Hx as [Hx|Hx]; auto.
Qed.

Lemma calls_below_quiet rk b w w' :
  keeps_children w w' -> inst w' = inst w -> calls w' = calls w ->
  calls_below rk b w w'.
Proof.
  intros He Hi Hcalls Hc. split.
  - eapply contract_keeps; [exact He| |exact Hc].
    intros Hok obj k v. unfold inst_lookup. rewrite Hi. apply Hok.
  - exists []. split; [by rewrite app_nil_r|]. intros x Hx. inversion Hx.
Qed.

Lemma calls_around_below rk k b w w' :
  rk k < b -> calls_around rk k w w' ->
  exists l, calls w' = calls w ++ l /\ forall x, x ∈ l -> rk x < b.
Proof.
  intros Hlt (l1 & m & l2 & E & H1 & Hm & H2). exists (l1 ++ m ++ l2).
  split; [exact E|]. intros x Hx.
  apply elem_of_app in Hx as [Hx|Hx]; [specialize (H1 x Hx); lia|].
  apply elem_of_app in Hx as [Hx|Hx]; [|specialize (H2 x Hx); lia].
  destruct Hm as [->| ->]; [inversion Hx|].
  apply list_elem_of_singleton in Hx. subst x. exact Hlt.
Qed.

Lemma hasattr_steps_at R P ga obj k :
  steps R P (ga obj k) -> steps R P (hasattr ga obj k).
Proof.
  intros Hga w w' r Hw H. unfold hasattr in H.
  destruct (ga obj k w) as [w1 r1] eqn:E.
  assert (R w w1) by (eapply Hga; eassumption).
  destruct r1 as [a|[m|k'|s]|]; inversion H; subst; assumption.
Qed.

Lemma setattr_total_below rk b obj k v :
  is_bound_method v = false ->
  steps (calls_below rk b) always (setattr_total obj k v).
Proof.
  intros Hv w w' r _ H Hc. unfold setattr_total in H.
  destruct (setattr_quiet _ _ _ _ _ _ _ H) as (Hcalls & Hinst).
  split.
  - eapply contract_keeps; [|apply Hinst; exact Hv|exact Hc].
    eapply setattr_keeps_children; exact H.
  - exists []. split; [by rewrite app_nil_r|]. intros x Hx. inversion Hx.
Qed.

Section Below.

Variable rk : ident -> nat.
Variable b : nat.
Variable ga : objref -> ident -> M pyval.
Hypothesis ga_below :
  forall obj k, rk k < b -> steps (calls_below rk b) always (ga obj k).
Hypothesis ga_quiet :
  forall obj x w w' r,
    quiet_read (Some x) w -> ga obj x w = (w', r) -> w' = w.

Let below_refl := calls_below_refl rk b.
Let below_trans := calls_below_trans rk b.

Lemma resolve_dependency_below self obj dep :
  rk dep < b -> rk dep < rk (name self) ->
  steps (calls_below rk b) always (resolve_dependency ga self obj dep).
Proof.
  intros Hlt Hname. unfold resolve_dependency.
  apply steps_bind; auto using stable_always.
  { apply hasattr_steps_at, ga_below, Hlt. }
  intros has. destruct (negb has); [apply steps_raise; auto|].
  apply steps_bind; auto using stable_always.
  { apply steps_modify. intros w _ Hc.
    split; [apply contract_register; assumption|].
    exists []. rewrite app_nil_r.
    split; [apply register_child_quiet|]. intros x Hx. inversion Hx. }
  intros _. apply steps_bind; auto using stable_always.
  intros a. apply steps_bind; auto using stable_always.
  { apply steps_get_world; auto. }
  intros w0. destruct (py_is a AttrNullState && is_descriptor w0 dep);
    [apply steps_raise|apply steps_ret]; auto.
Qed.

Lemma run_below obj own p :
  reads_below rk b own p ->
  forall w w' r, quiet_read own w -> run ga obj p w = (w', r) ->
                 calls_below rk b w w'.
Proof.
  induction 1 as [own|own k cont Hlt Hc IH|x cont Hc IH
                 |own k v cont Hv Hc IH|own k v cont Hv Hn Hc IH
                 |own d cont Hc IH|own e];
    intros w w' r Hq H; simpl in H.
  - inversion H; subst. apply below_refl.
  - apply bind_inv in H as [(v & w1 & H1 & H)|(r0 & H1 & _)].
    + eapply below_trans; [eapply ga_below; eauto; exact I|].
      eapply IH; [exact I|exact H].
    + eapply ga_below; eauto. exact I.
  - apply bind_inv in H as [(v & w1 & H1 & H)|(r0 & H1 & _)].
    + pose proof (ga_quiet _ _ _ _ _ Hq H1) as ->.
      eapply IH; [exact Hq|exact H].
    + pose proof (ga_quiet _ _ _ _ _ Hq H1) as ->. apply below_refl.
  - apply bind_inv in H as [(u & w1 & H1 & H)|(r0 & H1 & _)].
    + eapply below_trans; [eapply setattr_total_below; eauto; exact I|].
      eapply IH; [exact I|exact H].
    + eapply setattr_total_below; eauto. exact I.
  - apply bind_inv in H as [(u & w1 & H1 & H)|(r0 & H1 & _)];
      [|eapply setattr_total_below; eauto; exact I].
    intros Hcon.
    destruct (setattr_total_below rk b obj k v Hv w w1 (Ok u) I H1 Hcon)
      as (Hcon1 & l & El & Hl).
    assert (Hq1 : quiet_read (Some k) w1).
    { unfold setattr_total, set_fuel in H1.
      replace (size (cls w) + 3) with (S (size (cls w) + 2)) in H1 by lia.
      eapply setattr_leaves_valid; [|exact Hn|exact H1].
      apply Hcon. }
    destruct (IH w1 w' r Hq1 H Hcon1) as (Hcon' & l' & El' & Hl').
    split; [exact Hcon'|]. exists (l ++ l').
    split; [rewrite El', El, app_assoc; reflexivity|].
    intros y Hy. apply elem_of_app in Hy as [Hy|Hy]; auto.
  - apply bind_inv in H as [(v & w1 & H1 & H)|(r0 & H1 & Hf)];
      [|inversion H1; subst; discriminate Hf].
    pose proof (keeps_children_alloc w d) as He. rewrite H1 in He.
    simpl in He. inversion H1; subst.
    eapply below_trans;
      [apply calls_below_quiet; [exact He|reflexivity|reflexivity]|].
    eapply IH; [|exact H]. destruct own; simpl in *; auto.
  - inversion H; subst. apply below_refl.
Qed.

Lemma call_below obj f body uf w w' r :
  uf = PyBoundMethod obj f \/ is_bound_method uf = false ->
  cls w !! f = Some (Method body) -> reads_below rk b None body ->
  call ga uf w = (w', r) -> calls_below rk b w w'.
Proof.
  intros [->|Hn] Hf Hb H.
  - simpl in H. rewrite Hf in H. eapply run_below; [exact Hb|exact I|exact H].
  - destruct uf; try discriminate Hn; inversion H; subst; apply below_refl.
Qed.

End Below.

Lemma getattr_method fuel obj f body w w' r :
  cls w !! f = Some (Method body) -> instances_hold_no_method w ->
  getattr_default (getattr fuel) obj f w = (w', r) ->
  w' = w /\
  forall uf, r = Ok uf -> uf = PyBoundMethod obj f \/ is_bound_method uf = false.
Proof.
  intros Hf Hok H. unfold getattr_default in H.
  destruct fuel as [|fuel]; simpl in H.
  - inversion H; subst. split; [reflexivity|discriminate].
  - rewrite Hf in H. destruct (inst_lookup w obj f) as [y|] eqn:E.
    + inversion H; subst. split; [reflexivity|].
      intros uf Huf. inversion Huf; subst. right. eapply Hok. exact E.
    + inversion H; subst. split; [reflexivity|].
      intros uf Huf. inversion Huf; subst. left. reflexivity.
Qed.

Lemma getattr_quiet fuel obj x w w' r :
  quiet_read (Some x) w -> getattr fuel obj x w = (w', r) -> w' = w.
Proof.
  intros Hq H. destruct fuel as [|fuel]; [inversion H; reflexivity|].
  destruct (cls w !! x) as [[d| |]|] eqn:Hx.
  - rewrite (getattr_hit fuel obj x d w Hx (Hq d Hx)) in H.
    inversion H; reflexivity.
  - apply getattr_plain in H as (-> & _); [reflexivity|].
    unfold descriptor_at. rewrite Hx. reflexivity.
  - apply getattr_plain in H as (-> & _); [reflexivity|].
    unfold descriptor_at. rewrite Hx. reflexivity.
  - apply getattr_plain in H as (-> & _); [reflexivity|].
    unfold descriptor_at. rewrite Hx. reflexivity.
Qed.

Lemma getattr_calls rk fuel : forall obj k w w' r,
  contract rk w -> getattr fuel obj k w = (w', r) ->
  contract rk w' /\ calls_around rk k w w'.
Proof.
  assert (Hnil : forall k w, calls_around rk k w w).
  { intros k w. exists [], [], []. simpl. rewrite app_nil_r.
    split; [reflexivity|]. split; [intros x Hx; inversion Hx|].
    split; [auto|intros x Hx; inversion Hx]. }
  induction fuel as [|fuel IH]; intros obj k w w' r Hc H.
  { inversion H; subst. auto. }
  simpl in H. destruct (cls w !! k) as [[self| |]|] eqn:Hk;
    try (destruct (inst_lookup w obj k); inversion H; subst; auto; fail).
  assert (IHb : forall o k', rk k' < rk k ->
            steps (calls_below rk (rk k)) always (getattr fuel o k')).
  { intros o k' Hlt w1 w2 r2 _ E Hc1.
    destruct (IH _ _ _ _ _ Hc1 E) as (Hc2 & Ha). split; [exact Hc2|].
    eapply calls_around_below; eassumption. }
  pose proof Hc as (Hname & Hdeps & Hcalc & _ & _).
  specialize (Hname k self Hk).
  specialize (Hdeps k self). specialize (Hcalc k self).
  unfold DependentAttr_get, recompute in H.
  assert (Hbody : forall w1 r1,
    (if py_is (value self) AttrNullState
     then (for_each (dependencies self)
             (resolve_dependency (getattr fuel) self obj) ;;
           match calc_func self with
           | Some f =>
               update_func <- getattr_default (getattr fuel) obj f ;;
               if negb (py_is update_func PyNone)
               then modify (log_call k) ;; call (getattr fuel) update_func
               else raise (ValueError (CannotFindMethod (name self) f))
           | None => ret tt
           end)%py
     else ret tt) w = (w1, r1) ->
    contract rk w1 /\ calls_around rk k w w1).
  { intros w1 r1 E. destruct (py_is (value self) AttrNullState);
      [|inversion E; subst; auto].
    assert (Hloop : steps (calls_below rk (rk k)) always
              (for_each (dependencies self)
                 (resolve_dependency (getattr fuel) self obj))).
    { apply (steps_for_each (calls_below rk (rk k))
               (calls_below_refl rk (rk k)) (calls_below_trans rk (rk k)));
        [apply stable_always|].
      intros dep Hdep. apply resolve_dependency_below; auto.
      rewrite Hname. auto. }
    assert (Hwrap : forall w2 l1, contract rk w2 ->
              calls w2 = calls w ++ l1 -> (forall x, x ∈ l1 -> rk x < rk k) ->
              contract rk w2 /\ calls_around rk k w w2).
    { intros w2 l1 Hc2 El Hl. split; [exact Hc2|]. exists l1, [], [].
      simpl. rewrite app_nil_r. split; [exact El|]. split; [exact Hl|].
      split; [auto|intros x Hx; inversion Hx]. }
    apply bind_inv in E as [([] & w2 & E1 & E)|(r0 & E1 & _)].
    2:{ destruct (Hloop _ _ _ I E1 Hc) as (Hc2 & l1 & El & Hl). eauto. }
    destruct (Hloop _ _ _ I E1 Hc) as (Hc2 & l1 & El & Hl).
    pose proof (for_each_resolve_evolves _ _ _ _ _ _ _ E1) as Hev.
    destruct (calc_func self) as [f|]; [|inversion E; subst; eauto].
    destruct (Hcalc f Hk eq_refl) as (body & Hf & Hrb).
    pose proof (evolves_method _ _ _ _ Hev Hf) as Hf2.
    pose proof Hc2 as (_ & _ & _ & Hinst2 & _).
    apply bind_inv in E as [(uf & w3 & E2 & E)|(r0 & E2 & _)].
    2:{ apply (getattr_method _ _ _ _ _ _ _ Hf2 Hinst2) in E2 as (-> & _).
        eauto. }
    apply (getattr_method _ _ _ _ _ _ _ Hf2 Hinst2) in E2 as (-> & Huf).
    specialize (Huf uf eq_refl).
    destruct (negb (py_is uf PyNone)); [|inversion E; subst; eauto].
    apply bind_inv in E as [(u & w4 & E3 & E)|(r0 & E3 & Hfail)];
      [|inversion E3; subst; discriminate Hfail].
    unfold modify in E3. injection E3 as <- _.
    assert (Hc4 : contract rk (log_call k w2)).
    { eapply contract_keeps; [apply keeps_children_log| |exact Hc2]. auto. }
    destruct (call_below rk (rk k) (getattr fuel) IHb
                (getattr_quiet fuel) obj f body uf
                (log_call k w2) w1 r1 Huf Hf2 Hrb E Hc4)
      as (Hc1 & l2 & El2 & Hl2).
    split; [exact Hc1|]. exists l1, [k], l2.
    split; [|split; [exact Hl|split; [auto|exact Hl2]]].
    rewrite El2. simpl. rewrite El. rewrite <- !app_assoc. reflexivity. }
  apply bind_inv in H as [(u & w1 & H1 & H2)|(r0 & H1 & _)].
  - apply DependentAttr_get_tail in H2 as (-> & _). eapply Hbody. exact H1.
  - eapply Hbody. exact H1.
Qed.

Lemma calls_around_count rk k w w' :
  calls_around rk k w w' ->
  exists l, calls w' = calls w ++ l /\ count_occ string_dec l k <= 1.
Proof.
  intros (l1 & m & l2 & E & H1 & Hm & H2). exists (l1 ++ m ++ l2).
  split; [exact E|].
  assert (Hz : forall l, (forall x, x ∈ l -> rk x < rk k) ->
                         count_occ string_dec l k = 0).
  { intros l Hl. apply count_occ_not_In. intros Hin.
    apply list_elem_of_In in Hin. specialize (Hl k Hin). lia. }
  rewrite !count_occ_app, (Hz l1 H1), (Hz l2 H2).
  destruct Hm as [->| ->]; simpl; [lia|].
  destruct (string_dec k k); [lia|congruence].
Qed.

(** ** More fuel does not change a result *)

Lemma extends_refl {A} (m : M A) : extends m m.
Proof. intros w w' r H _. exact H. Qed.

Lemma extends_bind {A B} (m m' : M A) (f f' : A -> M B) :
  extends m m' -> (forall a, extends (f a) (f' a)) ->
  extends (bind m f) (bind m' f').
Proof.
  intros Hm Hf w w' r H Hr. unfold bind in *.
  destruct (m w) as [w1 [a|e|]] eqn:E.
  - rewrite (Hm _ _ _ E ltac:(discriminate)). apply Hf; assumption.
  - rewrite (Hm _ _ _ E ltac:(discriminate)). exact H.
  - inversion H; subst. congruence.
Qed.

Lemma extends_for_each {A} (l : list A) (body body' : A -> M unit) :
  (forall x, extends (body x) (body' x)) ->
  extends (for_each l body) (for_each l body').
Proof.
  intros Hb. induction l as [|x l IH]; simpl.
  - apply extends_refl.
  - apply extends_bind; [apply Hb|intros _; exact IH].
Qed.

Section Extends.

Variables ga ga' : objref -> ident -> M pyval.
Hypothesis ga_extends : forall obj k, extends (ga obj k) (ga' obj k).

Lemma extends_hasattr obj k : extends (hasattr ga obj k) (hasattr ga' obj k).
Proof.
  intros w w' r H Hr. unfold hasattr in *.
  destruct (ga obj k w) as [w1 r1] eqn:E.
  assert (Hr1 : r1 <> OutOfFuel)
    by (intros ->; inversion H; subst; congruence).
  rewrite (ga_extends _ _ _ _ _ E Hr1). exact H.
Qed.

Lemma extends_getattr_default obj k :
  extends (getattr_default ga obj k) (getattr_default ga' obj k).
Proof.
  intros w w' r H Hr. unfold getattr_default in *.
  destruct (ga obj k w) as [w1 r1] eqn:E.
  assert (Hr1 : r1 <> OutOfFuel).
  { intros ->. inversion H; subst. congruence. }
  rewrite (ga_extends _ _ _ _ _ E Hr1). exact H.
Qed.

Lemma extends_run obj p : extends (run ga obj p) (run ga' obj p).
Proof.
  induction p as [|k cont IH|k v cont IH|d cont IH|e]; simpl.
  - apply extends_refl.
  - apply extends_bind; [apply ga_extends|exact IH].
  - apply extends_bind; [apply extends_refl|intros _; exact IH].
  - apply extends_bind; [apply extends_refl|exact IH].
  - apply extends_refl.
Qed.

Lemma extends_call f : extends (call ga f) (call ga' f).
Proof.
  destruct f as [| |a d|self func]; simpl; try apply extends_refl.
  intros w w' r H Hr. destruct (cls w !! func) as [[d|x|body]|];
    try exact H.
  eapply extends_run; eassumption.
Qed.

Lemma extends_resolve_dependency self obj dep :
  extends (resolve_dependency ga self obj dep)
          (resolve_dependency ga' self obj dep).
Proof.
  unfold resolve_dependency.
  apply extends_bind; [apply extends_hasattr|].
  intros has. destruct (negb has); [apply extends_refl|].
  apply extends_bind; [apply extends_refl|]. intros _.
  apply extends_bind; [apply ga_extends|]. intros a. apply extends_refl.
Qed.

Lemma extends_DependentAttr_get k self obj :
  extends (DependentAttr_get ga k self obj) (DependentAttr_get ga' k self obj).
Proof.
  unfold DependentAttr_get, recompute.
  apply extends_bind; [|intros _; apply extends_refl].
  destruct (py_is (value self) AttrNullState); [|apply extends_refl].
  apply extends_bind.
  - apply extends_for_each. intros dep. apply extends_resolve_dependency.
  - intros _. destruct (calc_func self) as [f|]; [|apply extends_refl].
    apply extends_bind; [apply extends_getattr_default|].
    intros uf. destruct (negb (py_is uf PyNone)); [|apply extends_refl].
    apply extends_bind; [apply extends_refl|].
    intros _. apply extends_call.
Qed.

End Extends.

Lemma getattr_fuel_S fuel : forall obj k,
  extends (getattr fuel obj k) (getattr (S fuel) obj k).
Proof.
  induction fuel as [|fuel IH]; intros obj k w w' r H Hr.
  - inversion H; subst. congruence.
  - remember (S fuel) as n eqn:En. simpl. subst n. simpl in H.
    destruct (cls w !! k) as [[self| |]|]; try exact H.
    eapply extends_DependentAttr_get; [exact IH|exact H|exact Hr].
Qed.

Lemma getattr_fuel_mono n fuel obj k w w' r :
  getattr fuel obj k w = (w', r) -> r <> OutOfFuel ->
  getattr (n + fuel) obj k w = (w', r).
Proof.
  intros H Hr. induction n as [|n IH]; [exact H|].
  change (S n + fuel) with (S (n + fuel)).
  apply getattr_fuel_S; assumption.
Qed.

Lemma setattr_fuel_S fuel : forall obj k v w w' r,
  setattr fuel obj k v w = (w', r) -> r <> OutOfFuel ->
  setattr (S fuel) obj k v w = (w', r).
Proof.
  induction fuel as [|fuel IH]; intros obj k v w w' r H Hr.
  - inversion H; subst. congruence.
  - remember (S fuel) as n eqn:En. simpl. subst n. simpl in H.
    destruct (cls w !! k) as [[self| |]|]; try exact H.
    unfold DependentAttr_set in *.
    destruct (negb (py_is (value self) v)); [|exact H].
    revert H Hr. apply extends_bind; [apply extends_refl|]. intros _.
    apply extends_for_each. intros c w1 w2 r2. apply IH.
Qed.

Lemma setattr_fuel_mono n fuel obj k v w w' r :
  setattr fuel obj k v w = (w', r) -> r <> OutOfFuel ->
  setattr (n + fuel) obj k v w = (w', r).
Proof.
  intros H Hr. induction n as [|n IH]; [exact H|].
  change (S n + fuel) with (S (n + fuel)).
  apply setattr_fuel_S; assumption.
Qed.

(** * The claims *)

(** ** C9: the two subclasses *)

(** C9, as the code has it.  [IndependentAttr(v, n)] builds the same
    descriptor as [DependentAttr(v, [], None, n)], and for a dependency list
    [ds] that is not empty [DeterminantAttr(ds, f, n)] builds the same
    descriptor as [DependentAttr(None, ds, f, n)]. *)
Theorem subclass_constructors (v : pyval) (n : ident) (vb : bool)
    (ds : list ident) (f : option ident) (n' : ident) (vb' : bool)
    (Hds : ds <> []) :
  IndependentAttr_init v n vb = DependentAttr_init v (Some []) None n vb /\
  DeterminantAttr_init (Some ds) f n' vb'
  = DependentAttr_init PyNone (Some ds) f n' vb'.
Proof.
  split; [reflexivity|].
  destruct ds as [|d ds]; [congruence|]. reflexivity.
Qed.

Lemma subclass_constructors_witness :
  ["a1"] <> [] /\
  (IndependentAttr_init (py_int 1) "a1" false
   = DependentAttr_init (py_int 1) (Some []) None "a1" false /\
   DeterminantAttr_init (Some ["a1"]) (Some "update_a2") "a2" false
   = DependentAttr_init PyNone (Some ["a1"]) (Some "update_a2") "a2" false).
Proof.
  split; [discriminate|].
  apply (subclass_constructors (py_int 1) "a1" false ["a1"]
           (Some "update_a2") "a2" false).
  discriminate.
Defined.

(** C9 as stated fails for the empty dependency list: [DeterminantAttr([],
    f, n)] starts with the marker, [DependentAttr(None, [], f, n)] with
    [None]. *)
Lemma determinant_without_dependencies :
  value (DeterminantAttr_init (Some []) (Some "f") "n" false) = AttrNullState /\
  value (DependentAttr_init PyNone (Some []) (Some "f") "n" false) = PyNone /\
  DeterminantAttr_init (Some []) (Some "f") "n" false
  <> DependentAttr_init PyNone (Some []) (Some "f") "n" false.
Proof. repeat split. discriminate. Qed.

(** ** C2: writing the stored value *)

(** C2, as the code has it ([self.value is not value]).  Writing to an
    attribute the very object it stores changes nothing: the value is not
    replaced, no child is invalidated and nothing is called, so every later
    read behaves as before. *)
Theorem write_same_object_is_noop (fuel : nat) (obj : objref) (k : ident)
    (d : DependentAttr) (v : pyval) (w : world)
    (Hk : cls w !! k = Some (Descriptor d))
    (His : py_is (value d) v = true) :
  setattr (S fuel) obj k v w = (w, Ok tt).
Proof. eapply setattr_same_object; eassumption. Qed.

Lemma write_same_object_is_noop_witness :
  exists d, cls Scenario.w1 !! "a6" = Some (Descriptor d) /\
            py_is (value d) (py_int 6) = true /\
            setattr 3 Scenario.program_good "a6" (py_int 6) Scenario.w1
            = (Scenario.w1, Ok tt).
Proof.
  eexists. split; [vm_compute; reflexivity|]. split; [reflexivity|].
  eapply (write_same_object_is_noop 2 Scenario.program_good "a6" _
            (py_int 6) Scenario.w1); [vm_compute; reflexivity|reflexivity].
Defined.

(** C2 as stated fails: an object that is equal to the stored one but is
    not that object replaces it and invalidates the children.  Here [a1] is
    set to an integer 1000, everything is recomputed, and [a1] is set to
    another integer 1000. *)
Lemma equal_value_is_written :
  let stored := PyObj 1000 (DInt 1000) in
  let again := PyObj 1001 (DInt 1000) in
  let wa := fst (setattr_total Scenario.program_good "a1" stored Scenario.w1) in
  let wb := fst (getattr 5 Scenario.program_good "a7" wa) in
  let wc := fst (setattr_total Scenario.program_good "a1" again wb) in
  slot_value wb "a1" = Some stored /\ py_eq stored again = true /\
  slot_value wb "a2" = Some (PyObj 267 (DStr "(1000+2)")) /\
  slot_value wc "a1" = Some again /\
  slot_value wc "a2" = Some AttrNullState /\
  slot_value wc "a7" = Some AttrNullState.
Proof. vm_compute. repeat split. Qed.

(** ** C10: the invalidation cascade terminates *)

(** C10.  Writing the marker to a slot that already holds it changes
    nothing and goes no further; and every write returns, whatever the
    children lists are (cycles included), as soon as the fuel exceeds the
    number of names of the class by three: every other recursive write puts
    the marker into a slot that held a value. *)
Theorem setattr_terminates (fuel : nat) (obj : objref) (k : ident)
    (v : pyval) (w : world) (Hfuel : set_fuel w <= fuel) :
  (forall d, cls w !! k = Some (Descriptor d) -> value d = AttrNullState ->
             setattr fuel obj k AttrNullState w = (w, Ok tt)) /\
  exists w', setattr fuel obj k v w = (w', Ok tt).
Proof.
  split.
  - intros d Hk Hv. unfold set_fuel in Hfuel.
    destruct fuel as [|fuel]; [lia|].
    eapply setattr_same_object; [exact Hk|]. rewrite Hv. reflexivity.
  - apply enough_fuel_for_write. unfold set_fuel in Hfuel.
    pose proof (valid_slots_bound w). lia.
Qed.

Lemma setattr_terminates_witness :
  set_fuel Scenario.Cyclic <= 5 /\
  ((forall d, cls Scenario.Cyclic !! "p" = Some (Descriptor d) ->
              value d = AttrNullState ->
              setattr 5 Scenario.program_good "p" AttrNullState Scenario.Cyclic
              = (Scenario.Cyclic, Ok tt)) /\
   exists w', setattr 5 Scenario.program_good "p" (py_int 7) Scenario.Cyclic
              = (w', Ok tt)).
Proof.
  assert (H : set_fuel Scenario.Cyclic <= 5) by (vm_compute; lia).
  split; [exact H|].
  exact (setattr_terminates 5 Scenario.program_good "p" (py_int 7)
           Scenario.Cyclic H).
Defined.

(** ** C6: a dependent that was never read *)



Ltac class_cases H :=
  apply elem_of_list_to_map_2 in H;
  repeat (apply elem_of_cons in H; destruct H as [H|H];
          [inversion H; subst; clear H|]);
  [..|inversion H].



(** ** C1: the instances of a class *)

Lemma setattr_stores rk fuel obj k v w w' r d :
  children_ranked rk w -> cls w !! k = Some (Descriptor d) ->
  setattr (S fuel) obj k v w = (w', r) ->
  exists d', cls w' !! k = Some (Descriptor d') /\
             (value d' = v \/ py_is (value d') v = true).
Proof.
  intros Hr Hk H. simpl in H. rewrite Hk in H. unfold DependentAttr_set in H.
  destruct (py_is (value d) v) eqn:His; simpl in H.
  - inversion H; subst. eauto.
  - apply bind_inv in H as [(u & w1 & H1 & H)|(r0 & H1 & Hf)];
      [|inversion H1; subst; discriminate Hf].
    inversion H1; subst. clear H1.
    exists (with_value v d). split; [|left; reflexivity].
    rewrite (invalidate_all_rank_frame rk fuel obj k _ _ _ _
               (children_ranked_keeps _ _ _ (keeps_children_store w k v) Hr) H).
    + unfold store_value, descriptor_at. rewrite Hk. simpl.
      apply lookup_insert_eq.
    + intros x Hx. eapply Hr; eassumption.
Qed.

Lemma py_is_valid v' v :
  py_is v AttrNullState = false -> v' = v \/ py_is v' v = true ->
  py_is v' AttrNullState = false.
Proof.
  intros Hv [->|His]; [exact Hv|].
  destruct v' as [| |p x|o f], v as [| |q y|o' f']; simpl in *; congruence.
Qed.

(** C1, as the code has it.  The value and the children of a slot are
    fields of the descriptor, which belongs to the class: after a value is
    written to an attribute through the instance [I], a read of that
    attribute through any instance [J] returns that object (the recorded
    children being free of cycles, so that the write does not invalidate its
    own slot).  Only the instance dictionaries are per instance. *)
Theorem slots_are_shared_by_instances (rk : ident -> nat) (fuel : nat)
    (I J : objref) (k : ident) (v : pyval) (w w' : world) (r : outcome unit)
    (d : DependentAttr)
    (Hranked : children_ranked rk w)
    (Hk : cls w !! k = Some (Descriptor d))
    (Hv : py_is v AttrNullState = false)
    (Hset : setattr_total I k v w = (w', r)) :
  exists v', (v' = v \/ py_is v' v = true) /\
             getattr (S fuel) J k w' = (w', Ok v').
Proof.
  unfold setattr_total, set_fuel in Hset.
  replace (size (cls w) + 3) with (S (size (cls w) + 2)) in Hset by lia.
  destruct (setattr_stores rk _ _ _ _ _ _ _ _ Hranked Hk Hset)
    as (d' & Hd' & Hval).
  exists (value d'). split; [exact Hval|].
  apply getattr_hit; [exact Hd'|]. eapply py_is_valid; eassumption.
Qed.

Lemma fresh_children_ranked rk (c : gmap string member) :
  (forall k d, c !! k = Some (Descriptor d) -> children d = []) ->
  children_ranked rk (fresh c).
Proof.
  intros Hc X q x Hq Hin. simpl in Hq. rewrite (Hc X q Hq) in Hin.
  inversion Hin.
Qed.

Lemma DataflowSuccess_no_children k d :
  Example.DataflowSuccess !! k = Some (Descriptor d) -> children d = [].
Proof.
  intros H. unfold Example.DataflowSuccess in H. class_cases H; reflexivity.
Qed.

Lemma slots_are_shared_by_instances_witness :
  let res := setattr_total Scenario.program_good "a1" (py_int 9) Scenario.w0 in
  children_ranked Scenario.rank Scenario.w0 /\
  cls Scenario.w0 !! "a1"
    = Some (Descriptor (IndependentAttr_init (py_int 1) "a1" false)) /\
  py_is (py_int 9) AttrNullState = false /\
  exists v', (v' = py_int 9 \/ py_is v' (py_int 9) = true) /\
             getattr 1 Scenario.other_instance "a1" (fst res)
             = (fst res, Ok v').
Proof.
  intros res.
  assert (Hr : children_ranked Scenario.rank Scenario.w0)
    by (apply fresh_children_ranked; exact DataflowSuccess_no_children).
  assert (Hk : cls Scenario.w0 !! "a1"
               = Some (Descriptor (IndependentAttr_init (py_int 1) "a1" false)))
    by (vm_compute; reflexivity).
  split; [exact Hr|]. split; [exact Hk|]. split; [reflexivity|].
  exact (slots_are_shared_by_instances Scenario.rank 0 Scenario.program_good
           Scenario.other_instance "a1" (py_int 9) Scenario.w0 (fst res)
           (snd res) _ Hr Hk eq_refl (surjective_pairing res)).
Defined.

(** C1 as stated fails: [a1] reads 1 on the second instance, and 9 after 9
    has been written to [a1] on the first. *)
Lemma write_changes_other_instance :
  let w := fst (setattr_total Scenario.program_good "a1" (py_int 9)
                  Scenario.w0) in
  snd (getattr 1 Scenario.other_instance "a1" Scenario.w0) = Ok (py_int 1) /\
  snd (getattr 1 Scenario.other_instance "a1" w) = Ok (py_int 9) /\
  snd (getattr 1 Scenario.other_instance "a1" w)
  <> snd (getattr 1 Scenario.other_instance "a1" Scenario.w0).
Proof. vm_compute. split; [reflexivity|]. split; [reflexivity|discriminate]. Qed.

(** ** C3 and C4: the scenario of the example *)

(** C3, as the code has it.  The first read of [a7] calls the update
    function of each of [a2], [a4], [a3], [a5], [a7] once, every one after
    those of its dependencies, and returns the string
    [((1*(1+2)+4)*(1+(1+2)+((1+2)+3)*6+5)+7)], whose value is 322. *)
Theorem first_read_of_a7 (n : nat) :
  exists w v,
    getattr (n + 5) Scenario.program_good "a7" Scenario.w0 = (w, Ok v) /\
    calls w = ["a2"; "a4"; "a3"; "a5"; "a7"] /\
    Forall (fun k => count_occ string_dec (calls w) k = 1)
           ["a2"; "a3"; "a4"; "a5"; "a7"] /\
    Scenario.in_dependency_order Example.DataflowSuccess (calls w) = true /\
    py_str v = "((1*(1+2)+4)*(1+(1+2)+((1+2)+3)*6+5)+7)" /\
    eval_value v = Some 322%Z /\
    ((1*(1+2)+4)*(1+(1+2)+((1+2)+3)*6+5)+7 = 322)%Z.
Proof.
  exists Scenario.w1, (PyObj 266 (DStr "((1*(1+2)+4)*(1+(1+2)+((1+2)+3)*6+5)+7)")).
  split.
  - apply getattr_fuel_mono; [|discriminate].
    vm_compute. reflexivity.
  - split; [vm_compute; reflexivity|].
    split; [vm_compute; repeat constructor|].
    split; [vm_compute; reflexivity|].
    split; [reflexivity|]. split; [vm_compute; reflexivity|reflexivity].
Qed.

(** C3 as stated fails: the expression is worth 322, not 196. *)
Lemma first_read_is_not_196 :
  match snd Scenario.first_read with
  | Ok v => eval_value v
  | _ => None
  end = Some 322%Z /\
  match snd Scenario.first_read with
  | Ok v => eval_value v
  | _ => None
  end <> Some 196%Z /\
  ((1*(1+2)+4)*(1+(1+2)+((1+2)+3)*6+5)+7 <> 196)%Z.
Proof. vm_compute. split; [reflexivity|]. split; discriminate. Qed.

(** C4.  After the first read, [a6 = 4] and a second read of [a7] call the
    update functions of [a5] and [a7] only; the slots of [a2], [a3] and
    [a4] are what they were, and the result is the expression with the new
    [a6], worth 238. *)
Theorem second_read_of_a7 (n m : nat) :
  exists wa va wb wc vc,
    getattr (n + 5) Scenario.program_good "a7" Scenario.w0 = (wa, Ok va) /\
    setattr_total Scenario.program_good "a6" (py_int 4) wa = (wb, Ok tt) /\
    getattr (m + 5) Scenario.program_good "a7" wb = (wc, Ok vc) /\
    calls wb = calls wa /\
    calls wc = calls wa ++ ["a5"; "a7"] /\
    (cls wc !! "a2" = cls wa !! "a2" /\ cls wc !! "a3" = cls wa !! "a3" /\
     cls wc !! "a4" = cls wa !! "a4") /\
    py_str vc = "((1*(1+2)+4)*(1+(1+2)+((1+2)+3)*4+5)+7)" /\
    eval_value vc = Some 238%Z /\
    ((1*(1+2)+4)*(1+(1+2)+((1+2)+3)*4+5)+7 = 238)%Z.
Proof.
  exists Scenario.w1, (PyObj 266 (DStr "((1*(1+2)+4)*(1+(1+2)+((1+2)+3)*6+5)+7)")).
  exists Scenario.w2, (fst Scenario.second_read).
  exists (PyObj 268 (DStr "((1*(1+2)+4)*(1+(1+2)+((1+2)+3)*4+5)+7)")).
  split.
  { apply getattr_fuel_mono; [|discriminate].
    vm_compute. reflexivity. }
  split.
  { vm_compute. reflexivity. }
  split.
  { apply getattr_fuel_mono; [|discriminate].
    vm_compute. reflexivity. }
  split; [vm_compute; reflexivity|].
  split; [vm_compute; reflexivity|].
  split; [split; [|split]; vm_compute; reflexivity|].
  split; [reflexivity|]. split; [vm_compute; reflexivity|reflexivity].
Qed.

(** ** C5: memoization *)

(** C5.  When a read of [A] has returned a value, a second read with no
    write in between returns the same value at once and leaves the state as
    it is, the log of calls included, so that it calls no update function;
    and when the update functions keep to their contract, the calls made by
    the two reads together contain the update function of [A] at most once. *)
Theorem memoization (rk : ident -> nat) (fuel fuel' : nat) (obj : objref)
    (A : ident) (w w1 : world) (v : pyval)
    (Hread : getattr fuel obj A w = (w1, Ok v)) :
  getattr (S fuel') obj A w1 = (w1, Ok v) /\
  (contract rk w ->
   exists l, calls w1 = calls w ++ l /\ count_occ string_dec l A <= 1).
Proof.
  split; [eapply getattr_again; exact Hread|].
  intros Hcontract. eapply calls_around_count.
  eapply getattr_calls; [exact Hcontract|exact Hread].
Qed.

Ltac solve_reads :=
  repeat first
    [ apply rb_return
    | apply rb_throw
    | apply rb_new; intros ?
    | apply rb_get_own; intros ?
    | apply rb_get; [vm_compute; lia|intros ?]
    | apply rb_set_own; [reflexivity|reflexivity|]
    | apply rb_set; [reflexivity|]
    | match goal with
      | |- reads_below _ _ _ (Example.as_str ?v _) =>
          destruct v as [| |? []|]; simpl
      | |- reads_below _ _ _ (match ?v with PyNone => _ | _ => _ end) =>
          destruct v as [| |? []|]
      end ].

Lemma DataflowSuccess_contract : contract Scenario.rank Scenario.w0.
Proof.
  unfold Scenario.w0. split; [|split; [|split; [|split]]].
  - intros k d H. simpl in H. unfold Example.DataflowSuccess in H.
    class_cases H; reflexivity.
  - intros k d dep H Hdep. simpl in H. unfold Example.DataflowSuccess in H.
    class_cases H; simpl in Hdep;
      repeat (apply elem_of_cons in Hdep; destruct Hdep as [->|Hdep];
              [vm_compute; lia|]);
      inversion Hdep.
  - intros k d f H Hf. simpl in H. unfold Example.DataflowSuccess in H.
    class_cases H; simpl in Hf; try discriminate Hf;
      inversion Hf; subst; clear Hf;
      (eexists; split; [vm_compute; reflexivity|]).
    + unfold Example.update_a2. solve_reads.
    + unfold Example.update_a3. solve_reads.
    + unfold Example.update_a4. solve_reads.
    + unfold Example.update_a5. solve_reads.
    + unfold Example.update_a7. solve_reads.
  - intros obj k v H. unfold inst_lookup in H. simpl in H.
    rewrite lookup_empty in H. discriminate H.
  - apply fresh_children_ranked. exact DataflowSuccess_no_children.
Qed.

Lemma memoization_witness :
  let w1 := Scenario.w1 in
  let v := PyObj 266 (DStr "((1*(1+2)+4)*(1+(1+2)+((1+2)+3)*6+5)+7)") in
  getattr 5 Scenario.program_good "a7" Scenario.w0 = (w1, Ok v) /\
  contract Scenario.rank Scenario.w0 /\
  getattr 1 Scenario.program_good "a7" w1 = (w1, Ok v) /\
  exists l, calls w1 = calls Scenario.w0 ++ l /\
            count_occ string_dec l "a7" <= 1.
Proof.
  intros w1 v.
  assert (Hread : getattr 5 Scenario.program_good "a7" Scenario.w0
                  = (w1, Ok v)) by (vm_compute; reflexivity).
  split; [exact Hread|]. split; [exact DataflowSuccess_contract|].
  destruct (memoization Scenario.rank 5 0 Scenario.program_good "a7"
              Scenario.w0 w1 v Hread) as (Hagain & Hcalls).
  split; [exact Hagain|]. exact (Hcalls DataflowSuccess_contract).
Defined.

(** ** C7: a dependency that stays invalid *)

Lemma bind_ok {A B} (m : M A) (f : A -> M B) w w1 a :
  m w = (w1, Ok a) -> bind m f w = f a w1.
Proof. intros H. unfold bind. rewrite H. reflexivity. Qed.

Lemma bind_raise {A B} (m : M A) (f : A -> M B) w w1 e :
  m w = (w1, Raise e) -> bind m f w = (w1, Raise e).
Proof. intros H. unfold bind. rewrite H. reflexivity. Qed.

Lemma for_each_app {A} (l1 l2 : list A) (body : A -> M unit) w w1 :
  for_each l1 body w = (w1, Ok tt) ->
  for_each (l1 ++ l2) body w = for_each l2 body w1.
Proof.
  revert w. induction l1 as [|x l1 IH]; intros w H; simpl in *.
  - inversion H; subst. reflexivity.
  - unfold bind in *. destruct (body x w) as [w' [[]|e|]]; try discriminate H.
    apply IH. exact H.
Qed.

(** The read of a descriptor whose recomputation completes and leaves the
    marker raises the error of lines 106-108. *)
Lemma stale_read fuel obj D dself w w' :
  cls w !! D = Some (Descriptor dself) ->
  recompute (getattr fuel) D dself obj w = (w', Ok tt) ->
  slot_value w' D = Some AttrNullState ->
  getattr (S fuel) obj D w
  = (w', Raise (StaleComputeError (name dself) (calc_func dself))).
Proof.
  intros HD Hre Hs. simpl. rewrite HD. unfold DependentAttr_get.
  erewrite bind_ok by exact Hre. unfold bind, get_world.
  unfold slot_value in Hs. destruct (descriptor_at w' D) as [d2|];
    [|discriminate Hs].
  simpl in Hs. inversion Hs as [Hv]. rewrite Hv. reflexivity.
Qed.

(** C7, as the code has it.  While the invalid attribute [A] is read, its
    dependencies before [D] resolve; the recomputation of the descriptor
    [D] (its own dependencies and its update function) completes but leaves
    [D] invalid.  Then the read of [D], made through [hasattr], raises
    StaleComputeError for [D], and the read of [A] ends with that very
    error: the check that raises DependencyUpdateError is not reached. *)
Theorem invalid_dependency_fails (fuel : nat) (obj : objref) (A D : ident)
    (self dself : DependentAttr) (pre post : list ident) (w w1 w2 : world)
    (HA : cls w !! A = Some (Descriptor self))
    (Hinvalid : py_is (value self) AttrNullState = true)
    (Hdeps : dependencies self = pre ++ D :: post)
    (Hpre : for_each pre (resolve_dependency (getattr (S fuel)) self obj) w
            = (w1, Ok tt))
    (HD : cls w1 !! D = Some (Descriptor dself))
    (Hrecompute : recompute (getattr fuel) D dself obj w1 = (w2, Ok tt))
    (Hstill : slot_value w2 D = Some AttrNullState) :
  getattr (S fuel) obj D w1
  = (w2, Raise (StaleComputeError (name dself) (calc_func dself))) /\
  getattr (S (S fuel)) obj A w
  = (w2, Raise (StaleComputeError (name dself) (calc_func dself))).
Proof.
  pose proof (stale_read fuel obj D dself w1 w2 HD Hrecompute Hstill) as HrD.
  split; [exact HrD|].
  remember (S fuel) as n eqn:En. simpl. rewrite HA.
  unfold DependentAttr_get. apply bind_raise.
  unfold recompute. rewrite Hinvalid. apply bind_raise.
  rewrite Hdeps. erewrite for_each_app by exact Hpre.
  simpl. apply bind_raise. unfold resolve_dependency. apply bind_raise.
  unfold hasattr. rewrite HrD. reflexivity.
Qed.

(** A read of a descriptor never returns the marker, so the check of lines
    92-95 cannot fire for a dependency that is a descriptor. *)
Lemma descriptor_read_is_valid fuel obj D dself w w' v :
  cls w !! D = Some (Descriptor dself) ->
  getattr fuel obj D w = (w', Ok v) -> py_is v AttrNullState = false.
Proof.
  intros HD H. destruct (getattr_ok_slot _ _ _ _ _ _ _ HD H) as (d' & _ & _ & Hv).
  exact Hv.
Qed.

Lemma invalid_dependency_fails_witness :
  let w := fresh Scenario.Broken in
  let self := DeterminantAttr_init (Some ["d"]) (Some "update_a") "a" false in
  let dself := DeterminantAttr_init (Some ["src"]) (Some "update_d") "d"
                 false in
  let w2 := fst (recompute (getattr 1) "d" dself Scenario.program_good w) in
  cls w !! "a" = Some (Descriptor self) /\
  py_is (value self) AttrNullState = true /\
  dependencies self = [] ++ "d" :: [] /\
  cls w !! "d" = Some (Descriptor dself) /\
  recompute (getattr 1) "d" dself Scenario.program_good w = (w2, Ok tt) /\
  slot_value w2 "d" = Some AttrNullState /\
  (getattr 2 Scenario.program_good "d" w
   = (w2, Raise (StaleComputeError "d" (Some "update_d"))) /\
   getattr 3 Scenario.program_good "a" w
   = (w2, Raise (StaleComputeError "d" (Some "update_d")))).
Proof.
  intros w self dself w2.
  assert (HA : cls w !! "a" = Some (Descriptor self))
    by (vm_compute; reflexivity).
  assert (HD : cls w !! "d" = Some (Descriptor dself))
    by (vm_compute; reflexivity).
  assert (Hre : recompute (getattr 1) "d" dself Scenario.program_good w
                = (w2, Ok tt)) by (vm_compute; reflexivity).
  assert (Hs : slot_value w2 "d" = Some AttrNullState)
    by (vm_compute; reflexivity).
  split; [exact HA|]. split; [reflexivity|]. split; [reflexivity|].
  split; [exact HD|]. split; [exact Hre|]. split; [exact Hs|].
  exact (invalid_dependency_fails 1 Scenario.program_good "a" "d" self dself
           [] [] w w w2 HA eq_refl eq_refl eq_refl HD Hre Hs).
Defined.

(** C7 as stated fails: [update_d] assigns nothing, and the read of [a],
    whose dependency [d] stays invalid, fails with the StaleComputeError of
    [d], not with DependencyUpdateError. *)
Lemma invalid_dependency_is_not_update_error :
  snd (getattr 5 Scenario.program_good "a" (fresh Scenario.Broken))
  = Raise (StaleComputeError "d" (Some "update_d")) /\
  slot_value (fst (getattr 5 Scenario.program_good "a" (fresh Scenario.Broken)))
    "d" = Some AttrNullState /\
  snd (getattr 5 Scenario.program_good "a" (fresh Scenario.Broken))
  <> Raise (DependencyUpdateError "a" "d").
Proof.
  vm_compute. split; [reflexivity|]. split; [reflexivity|discriminate].
Qed.

(** ** C8: the children lists *)

(** C8, as the code has it.  In a state where every recorded child is a
    declared dependent, a read and a write both end in such a state (also
    when they fail), and they keep every attribute registered that was; a
    read that finds the attribute invalid and returns a value leaves it
    registered with each dependency that is a descriptor; and once every
    attribute is registered, the children of a slot are exactly the names of
    the descriptors that declare it.  (An attribute that holds a value when
    it is first read registers nothing.) *)
Theorem children_lists (fuel : nat) (obj : objref) (k : ident) (v : pyval)
    (w : world) (Hsound : children_sound w) :
  (forall w' r, getattr fuel obj k w = (w', r) ->
     children_sound w' /\
     (forall j, registered w j -> registered w' j) /\
     (forall self x, r = Ok x -> cls w !! k = Some (Descriptor self) ->
                     py_is (value self) AttrNullState = true ->
                     registered w' k)) /\
  (forall w' r, setattr fuel obj k v w = (w', r) ->
     children_sound w' /\
     (forall j, registered w j -> registered w' j)) /\
  ((forall j, registered w j) ->
   forall D p c, cls w !! D = Some (Descriptor p) ->
                 (c ∈ children p <-> declares w c D)).
Proof.
  split; [|split].
  - intros w' r H. destruct (getattr_keeps_sound _ _ _ _ _ _ H) as (He & Hs).
    split; [exact (Hs Hsound)|]. split.
    + intros j. apply registered_evolves. exact He.
    + intros self x -> Hk Hnull. eapply read_registers; eassumption.
  - intros w' r H. destruct (setattr_keeps_sound _ _ _ _ _ _ _ H) as (He & Hs).
    split; [exact (Hs Hsound)|].
    intros j. apply registered_evolves. exact He.
  - intros Hreg D p c HD. split.
    + intros Hc. eapply Hsound; eassumption.
    + intros Hd. eapply children_complete; eassumption.
Qed.

Lemma fresh_children_sound (c : gmap string member) :
  (forall k d, c !! k = Some (Descriptor d) -> children d = []) ->
  children_sound (fresh c).
Proof.
  intros Hc D p x Hp Hin. simpl in Hp. rewrite (Hc D p Hp) in Hin.
  inversion Hin.
Qed.

Lemma children_lists_witness :
  children_sound Scenario.w0 /\
  ((forall w' r, getattr 5 Scenario.program_good "a7" Scenario.w0 = (w', r) ->
      children_sound w' /\
      (forall j, registered Scenario.w0 j -> registered w' j) /\
      (forall self x, r = Ok x ->
                      cls Scenario.w0 !! "a7" = Some (Descriptor self) ->
                      py_is (value self) AttrNullState = true ->
                      registered w' "a7")) /\
   (forall w' r, setattr 5 Scenario.program_good "a7" (py_int 4) Scenario.w0
                 = (w', r) ->
      children_sound w' /\
      (forall j, registered Scenario.w0 j -> registered w' j)) /\
   ((forall j, registered Scenario.w0 j) ->
    forall D p c, cls Scenario.w0 !! D = Some (Descriptor p) ->
                  (c ∈ children p <-> declares Scenario.w0 c D))).
Proof.
  assert (H : children_sound Scenario.w0)
    by (apply fresh_children_sound; exact DataflowSuccess_no_children).
  split; [exact H|].
  exact (children_lists 5 Scenario.program_good "a7" (py_int 4)
           Scenario.w0 H).
Defined.

(** C8 as stated fails: in [Lazy] the attribute [b] declares [a1] and holds
    a value from the start; after [a1] and [b] have both been read, [b] is
    still not a child of [a1]. *)
Lemma read_of_valid_attribute_registers_nothing :
  let r1 := getattr 5 Scenario.program_good "a1" (fresh Scenario.Lazy) in
  let r2 := getattr 5 Scenario.program_good "b" (fst r1) in
  snd r1 = Ok (py_int 1) /\ snd r2 = Ok (py_int 5) /\
  declares (fst r2) "b" "a1" /\ slot_children (fst r2) "a1" = [] /\
  "b" ∉ slot_children (fst r2) "a1".
Proof.
  intros r1 r2.
  assert (Hc : slot_children (fst r2) "a1" = []) by (vm_compute; reflexivity).
  split; [vm_compute; reflexivity|]. split; [vm_compute; reflexivity|].
  split; [|split; [exact Hc|rewrite Hc; apply not_elem_of_nil]].
  exists "b", (DependentAttr_init (py_int 5) (Some ["a1"]) (Some "update_b")
                 "b" false).
  split; [vm_compute; reflexivity|]. split; [reflexivity|]. simpl. left.
Qed.

(** * Further properties of the code *)

(** ** Writes are lazy *)

Lemma silent_refl w : silent w w.
Proof. split; [apply keeps_children_refl|auto]. Qed.

Lemma silent_trans w1 w2 w3 : silent w1 w2 -> silent w2 w3 -> silent w1 w3.
Proof.
  intros (H1 & H2 & H3) (H1' & H2' & H3').
  split; [eapply keeps_children_trans; eassumption|]. split; congruence.
Qed.

Lemma silent_store w k v : silent w (store_value k v w).
Proof.
  split; [apply keeps_children_store|].
  unfold store_value. destruct (descriptor_at w k); auto.
Qed.

Lemma silent_inst w obj k v : silent w (inst_store obj k v w).
Proof. split; [apply keeps_children_inst|auto]. Qed.

Lemma setattr_silent fuel obj k v w w' r :
  setattr fuel obj k v w = (w', r) -> silent w w'.
Proof.
  intros H.
  eapply (setattr_steps silent silent_refl silent_trans silent_store
            silent_inst fuel obj k v w w' r I H).
Qed.

Lemma setattr_never_raises fuel : forall obj k v w w' r e,
  setattr fuel obj k v w = (w', r) -> r <> Raise e.
Proof.
  induction fuel as [|fuel IH]; intros obj k v w w' r e H.
  - inversion H; subst. discriminate.
  - simpl in H. destruct (cls w !! k) as [[self| |]|];
      try (inversion H; subst; discriminate).
    unfold DependentAttr_set in H.
    destruct (negb (py_is (value self) v)); [|inversion H; subst; discriminate].
    apply bind_inv in H as [(u & w1 & _ & H)|(r0 & H1 & Hf)];
      [|inversion H1; subst; discriminate Hf].
    revert w1 H. generalize (children self) as cs.
    induction cs as [|c cs IHcs]; intros w1 H; simpl in H.
    + inversion H; subst. discriminate.
    + apply bind_inv in H as [(u' & w2 & _ & H)|(r0 & H2 & Hf)];
        [eapply IHcs; exact H|].
      intros ->. destruct r0 as [a|e0|]; simpl in Hf; try discriminate Hf.
      eapply IH; [exact H2|reflexivity].
Qed.

(** X1.  A write recomputes nothing: it calls no update function, creates
    no object, never raises, and leaves the declared shape and the children
    list of every descriptor as they are; only values change. *)
Theorem write_is_lazy (fuel : nat) (obj : objref) (k : ident) (v : pyval)
    (w w' : world) (r : outcome unit)
    (Hset : setattr fuel obj k v w = (w', r)) :
  calls w' = calls w /\ next_addr w' = next_addr w /\
  (forall e, r <> Raise e) /\
  (forall D p, cls w !! D = Some (Descriptor p) ->
     exists p', cls w' !! D = Some (Descriptor p') /\ same_static p p' /\
                children p' = children p).
Proof.
  destruct (setattr_silent _ _ _ _ _ _ _ Hset) as ((He & Hc) & Hcalls & Haddr).
  split; [exact Hcalls|]. split; [exact Haddr|].
  split; [intros e; eapply setattr_never_raises; exact Hset|].
  intros D p HD.
  destruct (evolves_descriptor _ _ _ _ He HD) as (p' & HD' & Hs & _).
  exists p'. split; [exact HD'|]. split; [exact Hs|]. eapply Hc; eassumption.
Qed.

Lemma write_is_lazy_witness :
  let res := setattr 5 Scenario.program_good "a6" (py_int 4) Scenario.w1 in
  slot_value (fst res) "a7" = Some AttrNullState /\
  calls (fst res) = calls Scenario.w1 /\
  next_addr (fst res) = next_addr Scenario.w1 /\
  (forall e, snd res <> Raise e) /\
  (forall D p, cls Scenario.w1 !! D = Some (Descriptor p) ->
     exists p', cls (fst res) !! D = Some (Descriptor p') /\
                same_static p p' /\ children p' = children p).
Proof.
  intros res. split; [vm_compute; reflexivity|].
  exact (write_is_lazy 5 Scenario.program_good "a6" (py_int 4) Scenario.w1
           (fst res) (snd res) (surjective_pairing res)).
Defined.

(** ** Children lists hold no duplicates *)

Lemma keeps_nodup_refl w : keeps_nodup w w.
Proof. split; [apply evolves_refl|auto]. Qed.

Lemma keeps_nodup_trans w1 w2 w3 :
  keeps_nodup w1 w2 -> keeps_nodup w2 w3 -> keeps_nodup w1 w3.
Proof.
  intros (He & Hs) (He' & Hs').
  split; [eapply evolves_trans; eassumption|auto].
Qed.

Lemma keeps_nodup_of_children w w' :
  keeps_children w w' -> keeps_nodup w w'.
Proof.
  intros (He & Hc). split; [exact He|].
  intros Hn D p' Hp'.
  destruct (evolves_descriptor_back _ _ _ _ He Hp') as (p & Hp & _ & _).
  rewrite (Hc D p p' Hp Hp'). eapply Hn. exact Hp.
Qed.

Lemma keeps_nodup_register w dep c : keeps_nodup w (register_child dep c w).
Proof.
  split; [apply evolves_register|].
  intros Hn D p' Hp'. unfold register_child, descriptor_at in Hp'.
  destruct (cls w !! dep) as [[q| |]|] eqn:Hq;
    try (eapply Hn; exact Hp').
  destruct (bool_decide (c ∈ children q)) eqn:Hb; [eapply Hn; exact Hp'|].
  apply bool_decide_eq_false in Hb. simpl in Hp'.
  destruct (decide (dep = D)) as [->|Hne].
  - rewrite lookup_insert_eq in Hp'. inversion Hp'; subst. simpl.
    apply NoDup_app. split; [eapply Hn; exact Hq|].
    split; [|apply NoDup_singleton].
    intros x Hx Hx'. apply list_elem_of_singleton in Hx'. subst x. auto.
  - rewrite lookup_insert_ne in Hp' by exact Hne. eapply Hn. exact Hp'.
Qed.

(** X2.  Registration appends a name only when it is absent: if no children
    list holds a name twice, this is still so after a read and after a
    write, whether they return or fail. *)
Theorem children_stay_free_of_duplicates (fuel : nat) (obj : objref)
    (k : ident) (v : pyval) (w : world) (Hnodup : children_nodup w) :
  children_nodup (fst (getattr fuel obj k w)) /\
  children_nodup (fst (setattr fuel obj k v w)).
Proof.
  split.
  - destruct (getattr fuel obj k w) as [w' r] eqn:H. simpl.
    refine (proj2 (getattr_steps keeps_nodup keeps_nodup_refl
                     keeps_nodup_trans (fun _ _ H => proj1 H) _ _ _ _ _
                     fuel obj k w w' r I H) Hnodup).
    + intros w0 k0 v0. apply keeps_nodup_of_children, keeps_children_store.
    + intros w0 o k0 v0. apply keeps_nodup_of_children, keeps_children_inst.
    + intros w0 k0. apply keeps_nodup_of_children, keeps_children_log.
    + intros w0 d. apply keeps_nodup_of_children, keeps_children_alloc.
    + intros w0 k0 d dep _ _. apply keeps_nodup_register.
  - destruct (setattr fuel obj k v w) as [w' r] eqn:H. simpl.
    apply setattr_keeps_children, keeps_nodup_of_children in H.
    apply H. exact Hnodup.
Qed.

Lemma fresh_children_nodup (c : gmap string member) :
  (forall k d, c !! k = Some (Descriptor d) -> children d = []) ->
  children_nodup (fresh c).
Proof.
  intros Hc D p Hp. simpl in Hp. rewrite (Hc D p Hp). apply NoDup_nil_2.
Qed.

Lemma children_stay_free_of_duplicates_witness :
  children_nodup Scenario.w0 /\
  slot_children (fst (getattr 5 Scenario.program_good "a7" Scenario.w0)) "a1"
  = ["a4"; "a2"; "a5"] /\
  children_nodup (fst (getattr 5 Scenario.program_good "a7" Scenario.w0)) /\
  children_nodup
    (fst (setattr 5 Scenario.program_good "a7" (py_int 4) Scenario.w0)).
Proof.
  assert (H : children_nodup Scenario.w0)
    by (apply fresh_children_nodup; exact DataflowSuccess_no_children).
  split; [exact H|]. split; [vm_compute; reflexivity|].
  exact (children_stay_free_of_duplicates 5 Scenario.program_good "a7"
           (py_int 4) Scenario.w0 H).
Defined.

(** ** The cascade reaches every recorded descendant *)

Lemma py_is_marker v : py_is v AttrNullState = true -> v = AttrNullState.
Proof. destruct v; simpl; congruence. Qed.

Lemma invalid_mono_refl w : invalid_mono w w.
Proof. intros k d Hk Hv d' Hk'. congruence. Qed.

Lemma invalid_mono_trans w1 w2 w3 :
  evolves w1 w2 -> invalid_mono w1 w2 -> invalid_mono w2 w3 ->
  invalid_mono w1 w3.
Proof.
  intros He H12 H23 k d Hk Hv.
  destruct (evolves_descriptor _ _ _ _ He Hk) as (d2 & Hk2 & _ & _).
  eapply H23; [exact Hk2|]. eapply H12; eassumption.
Qed.

Lemma invalidate_all_keeps_children fuel obj cs w w' r :
  for_each cs (fun child => setattr fuel obj child AttrNullState) w = (w', r) ->
  keeps_children w w'.
Proof.
  intros H.
  refine (steps_for_each keeps_children keeps_children_refl
            keeps_children_trans always cs _ (stable_always _) _ w w' r I H).
  intros c _ w1 w2 r2 _ E. eapply setattr_keeps_children. exact E.
Qed.

Lemma cascade fuel : forall (P C : ident -> Prop) obj x w w',
  closed_ex P C w ->
  setattr fuel obj x AttrNullState w = (w', Ok tt) ->
  closed_ex P C w' /\ invalid_mono w w' /\ invalid_or_plain w' x.
Proof.
  induction fuel as [|fuel IH]; intros P C obj x w w' Hcl H;
    [discriminate H|].
  simpl in H. destruct (cls w !! x) as [[self| |]|] eqn:Hx;
    try (inversion H; subst; split; [exact Hcl|];
         split; [exact (invalid_mono_refl w)|];
         intros d Hd; simpl in Hd; congruence).
  unfold DependentAttr_set in H.
  destruct (py_is (value self) AttrNullState) eqn:Hv; simpl in H.
  { inversion H; subst. split; [exact Hcl|].
    split; [apply invalid_mono_refl|].
    intros d Hd. rewrite Hx in Hd. inversion Hd; subst.
    apply py_is_marker. exact Hv. }
  apply bind_inv in H as [(u & w1 & H1 & H)|(r0 & _ & Hf)];
    [|exfalso; eapply failure_not_ok; eauto].
  inversion H1; subst. clear H1.
  set (w1 := store_value x AttrNullState w) in *.
  assert (Hx1 : cls w1 !! x
                = Some (Descriptor (with_value AttrNullState self))).
  { unfold w1, store_value, descriptor_at. rewrite Hx. simpl.
    apply lookup_insert_eq. }
  assert (Hother : forall k, k <> x -> cls w1 !! k = cls w !! k)
    by (intros k Hk; apply store_value_other; exact Hk).
  assert (Hcl1 : closed_ex (fun k => P k \/ k = x) C w1).
  { intros k d c HP Hk Hd Hc HC dc Hdc.
    assert (Hkx : k <> x) by (intros ->; apply HP; right; reflexivity).
    rewrite (Hother k Hkx) in Hk.
    destruct (decide (c = x)) as [->|Hcx].
    - rewrite Hx1 in Hdc. inversion Hdc; subst. reflexivity.
    - rewrite (Hother c Hcx) in Hdc.
      eapply (Hcl k d c); eauto. }
  assert (Hloop : forall cs wa wb,
    closed_ex (fun k => P k \/ k = x) C wa ->
    for_each cs (fun child => setattr fuel obj child AttrNullState) wa
      = (wb, Ok tt) ->
    closed_ex (fun k => P k \/ k = x) C wb /\ invalid_mono wa wb /\
    forall c, c ∈ cs -> invalid_or_plain wb c).
  { induction cs as [|c cs IHcs]; intros wa wb Ha E; simpl in E.
    - inversion E; subst. split; [exact Ha|].
      split; [apply invalid_mono_refl|]. intros c Hc. inversion Hc.
    - apply bind_inv in E as [([] & wm & E1 & E)|(r0 & _ & Hf)];
        [|exfalso; eapply failure_not_ok; eauto].
      destruct (IH _ _ _ _ _ _ Ha E1) as (Hm & Hmono1 & Hc1).
      destruct (IHcs _ _ Hm E) as (Hb & Hmono2 & Hcs).
      pose proof (setattr_evolves _ _ _ _ _ _ _ E1) as He1.
      split; [exact Hb|].
      split; [eapply invalid_mono_trans; eassumption|].
      intros c' Hc'. apply elem_of_cons in Hc' as [->|Hc']; [|auto].
      intros d' Hd'.
      assert (Hev : evolves wm wb)
        by (eapply invalidate_all_keeps_children; exact E).
      destruct (evolves_descriptor_back _ _ _ _ Hev Hd') as (dm & Hdm & _ & _).
      eapply Hmono2; [exact Hdm| |exact Hd']. apply Hc1. exact Hdm. }
  destruct (Hloop _ _ _ Hcl1 H) as (Hcl' & Hmono & Hchildren).
  assert (Hkeep : keeps_children w w').
  { eapply keeps_children_trans;
      [apply (keeps_children_store w x AttrNullState)|].
    eapply invalidate_all_keeps_children. exact H. }
  split; [|split].
  - intros k d' c HP Hk Hd Hc HC.
    destruct (decide (k = x)) as [->|Hkx].
    + apply Hchildren. destruct Hkeep as (_ & Hsame).
      rewrite <- (Hsame x self d' Hx Hk). exact Hc.
    + eapply (Hcl' k d' c); eauto. intros [HPk|Hk']; auto.
  - intros k d Hk Hd. destruct (decide (k = x)) as [->|Hkx].
    + rewrite Hx in Hk. inversion Hk; subst. rewrite Hd in Hv. discriminate Hv.
    + eapply Hmono; [rewrite (Hother k Hkx); exact Hk|exact Hd].
  - eapply Hmono; [exact Hx1|reflexivity].
Qed.

Lemma cascade_all fuel obj (P C : ident -> Prop) : forall cs wa wb,
  closed_ex P C wa ->
  for_each cs (fun child => setattr fuel obj child AttrNullState) wa
    = (wb, Ok tt) ->
  closed_ex P C wb /\ invalid_mono wa wb /\
  forall c, c ∈ cs -> invalid_or_plain wb c.
Proof.
  induction cs as [|c cs IHcs]; intros wa wb Ha E; simpl in E.
  - inversion E; subst. split; [exact Ha|].
    split; [apply invalid_mono_refl|]. intros c Hc. inversion Hc.
  - apply bind_inv in E as [([] & wm & E1 & E)|(r0 & _ & Hf)];
      [|exfalso; eapply failure_not_ok; eauto].
    destruct (cascade _ _ _ _ _ _ _ Ha E1) as (Hm & Hmono1 & Hc1).
    destruct (IHcs _ _ Hm E) as (Hb & Hmono2 & Hcs).
    pose proof (setattr_evolves _ _ _ _ _ _ _ E1) as He1.
    split; [exact Hb|].
    split; [eapply invalid_mono_trans; eassumption|].
    intros c' Hc'. apply elem_of_cons in Hc' as [->|Hc']; [|auto].
    intros d' Hd'.
    assert (Hev : evolves wm wb)
      by (eapply invalidate_all_keeps_children; exact E).
    destruct (evolves_descriptor_back _ _ _ _ Hev Hd') as (dm & Hdm & _ & _).
    eapply Hmono2; [exact Hdm| |exact Hd']. apply Hc1. exact Hdm.
Qed.

Lemma slot_children_in w Y X :
  X ∈ slot_children w Y ->
  exists d, cls w !! Y = Some (Descriptor d) /\ X ∈ children d.
Proof.
  unfold slot_children, descriptor_at.
  destruct (cls w !! Y) as [[d| |]|]; intros H; try (inversion H; fail).
  eauto.
Qed.

(** X3.  In a state where the recorded children of every invalid slot are
    invalid, writing to [A] an object other than the stored one returns, and
    leaves the marker in every descriptor reached from [A] along the
    recorded children ([A] itself apart, which holds the new value unless
    the children form a cycle through it). *)
Theorem write_invalidates_descendants (obj : objref) (A : ident) (v : pyval)
    (w w' : world) (r : outcome unit) (d : DependentAttr)
    (Hclosed : closed w)
    (HA : cls w !! A = Some (Descriptor d))
    (Hnew : py_is (value d) v = false)
    (Hset : setattr_total obj A v w = (w', r)) :
  r = Ok tt /\
  forall X dX, descendant w A X -> X <> A ->
               cls w' !! X = Some (Descriptor dX) -> value dX = AttrNullState.
Proof.
  destruct (setattr_total_ok obj A v w) as (w'' & E).
  rewrite E in Hset. inversion Hset; subst w'' r. clear Hset.
  split; [reflexivity|].
  pose proof (setattr_keeps_children _ _ _ _ _ _ _ E) as (Hev & Hsame).
  unfold setattr_total, set_fuel in E.
  replace (size (cls w) + 3) with (S (size (cls w) + 2)) in E by lia.
  simpl in E. rewrite HA in E. unfold DependentAttr_set in E.
  rewrite Hnew in E. simpl in E.
  apply bind_inv in E as [(u & w1 & E1 & E)|(r0 & _ & Hf)];
    [|exfalso; eapply failure_not_ok; eauto].
  inversion E1; subst w1. clear E1.
  assert (Hother : forall k, k <> A -> cls (store_value A v w) !! k = cls w !! k)
    by (intros k Hk; apply store_value_other; exact Hk).
  assert (Hcl1 : closed_ex (fun k => k = A) (fun c => c = A)
                   (store_value A v w)).
  { intros k dk c HP Hk Hd Hc HC dc Hdc.
    rewrite (Hother k HP) in Hk. rewrite (Hother c HC) in Hdc.
    eapply (Hclosed k dk c); eauto. }
  destruct (cascade_all _ _ _ _ _ _ _ Hcl1 E) as (Hcl' & _ & Hchildren).
  assert (Hall : forall X, descendant w A X -> X = A \/ invalid_or_plain w' X).
  { induction 1 as [X HX|Y X HY IH HX].
    - right. apply Hchildren. unfold slot_children, descriptor_at in HX.
      rewrite HA in HX. exact HX.
    - apply slot_children_in in HX as (dY & HdY & HXin).
      destruct (decide (X = A)) as [->|HXA]; [left; reflexivity|]. right.
      destruct IH as [->|HYinv].
      + apply Hchildren. rewrite HA in HdY. inversion HdY; subst. exact HXin.
      + destruct (evolves_descriptor _ _ _ _ Hev HdY) as (dY' & HdY' & _ & _).
        destruct (decide (Y = A)) as [->|HYA].
        * apply Hchildren. rewrite HA in HdY. inversion HdY; subst. exact HXin.
        * eapply (Hcl' Y dY' X); eauto.
          rewrite (Hsame Y dY dY' HdY HdY'). exact HXin. }
  intros X dX HX HXA HdX. destruct (Hall X HX) as [->|Hinv]; [congruence|].
  apply Hinv. exact HdX.
Qed.

Lemma all_valid_closed w : all_valid w = true -> closed w.
Proof.
  intros H. apply bool_decide_eq_true in H.
  intros k d c _ Hk Hd _ _. specialize (H k _ Hk). simpl in H.
  rewrite Hd in H. discriminate H.
Qed.

Lemma write_invalidates_descendants_witness :
  let w := Scenario.w1 in
  let res := setattr_total Scenario.program_good "a1" (py_int 9) w in
  closed w /\ slot_value w "a7" <> Some AttrNullState /\
  descendant w "a1" "a7" /\
  snd res = Ok tt /\ slot_value (fst res) "a1" = Some (py_int 9) /\
  forall X dX, descendant w "a1" X -> X <> "a1" ->
               cls (fst res) !! X = Some (Descriptor dX) ->
               value dX = AttrNullState.
Proof.
  intros w res.
  assert (Hc : closed w) by (apply all_valid_closed; vm_compute; reflexivity).
  assert (Hd : descendant w "a1" "a7").
  { apply (descendant_step w "a1" "a4").
    - apply descendant_child. vm_compute. left.
    - vm_compute. left. }
  split; [exact Hc|]. split; [vm_compute; discriminate|]. split; [exact Hd|].
  destruct (write_invalidates_descendants Scenario.program_good "a1"
              (py_int 9) w (fst res) (snd res)
              (with_children ["a4"; "a2"; "a5"]
                 (IndependentAttr_init (py_int 1) "a1" false))
              Hc ltac:(vm_compute; reflexivity) eq_refl
              (surjective_pairing res)) as (Hr & Hall).
  split; [exact Hr|]. split; [vm_compute; reflexivity|exact Hall].
Defined.

(** ** An invalid attribute is recomputed exactly once by a read *)

Lemma evolves_calls w w' :
  evolves w w' -> exists l, calls w' = calls w ++ l.
Proof. intros (_ & (l & Hl) & _). exists l. exact Hl. Qed.

Lemma invalid_read_calls fuel obj k self f w w' v :
  cls w !! k = Some (Descriptor self) ->
  py_is (value self) AttrNullState = true -> calc_func self = Some f ->
  getattr fuel obj k w = (w', Ok v) ->
  exists l, calls w' = calls w ++ l /\ k ∈ l.
Proof.
  intros Hk Hnull Hf H.
  destruct fuel as [|fuel]; [discriminate H|]. simpl in H. rewrite Hk in H.
  unfold DependentAttr_get, recompute in H. rewrite Hnull in H.
  apply bind_inv in H as [(u & w1 & H1 & H2)|(r0 & _ & Hfail)];
    [|exfalso; eapply failure_not_ok; eauto].
  apply DependentAttr_get_tail in H2 as (-> & _).
  apply bind_inv in H1 as [([] & w2 & Hloop & Hcalc)|(r0 & _ & Hfail)];
    [|exfalso; eapply failure_not_ok; eauto].
  rewrite Hf in Hcalc.
  apply for_each_resolve_evolves, evolves_calls in Hloop as (la & Ela).
  apply bind_inv in Hcalc as [(uf & w3 & H3 & H4)|(r0 & _ & Hfail)];
    [|exfalso; eapply failure_not_ok; eauto].
  apply getattr_default_evolves, evolves_calls in H3 as (lb & Elb).
  destruct (negb (py_is uf PyNone)); [|discriminate H4].
  apply bind_inv in H4 as [(u' & w4 & H5 & H6)|(r0 & _ & Hfail)];
    [|exfalso; eapply failure_not_ok; eauto].
  unfold modify in H5. injection H5 as <- _.
  apply call_evolves, evolves_calls in H6 as (lc & Elc). simpl in Elc.
  exists (la ++ lb ++ [k] ++ lc). split.
  - rewrite Elc, Elb, Ela. rewrite <- !app_assoc. reflexivity.
  - rewrite !elem_of_app. right. right. left. left.
Qed.

(** X4.  The update functions keep to their contract.  A read that finds
    the attribute invalid and returns a value has called the update
    function of that attribute exactly once, and the slot then holds the
    value returned, which is not the marker. *)
Theorem invalid_read_recomputes_once (rk : ident -> nat) (fuel : nat)
    (obj : objref) (k f : ident) (self : DependentAttr) (w w' : world)
    (v : pyval)
    (Hcontract : contract rk w)
    (Hk : cls w !! k = Some (Descriptor self))
    (Hinvalid : py_is (value self) AttrNullState = true)
    (Hcalc : calc_func self = Some f)
    (Hread : getattr fuel obj k w = (w', Ok v)) :
  (exists l, calls w' = calls w ++ l /\ count_occ string_dec l k = 1) /\
  slot_value w' k = Some v /\ py_is v AttrNullState = false.
Proof.
  split.
  - destruct (getattr_calls rk _ _ _ _ _ _ Hcontract Hread) as (_ & Ha).
    apply calls_around_count in Ha as (l & El & Hle).
    destruct (invalid_read_calls _ _ _ _ _ _ _ _ Hk Hinvalid Hcalc Hread)
      as (l' & El' & Hin).
    rewrite El in El'. apply app_inv_head in El'. subst l'.
    exists l. split; [exact El|].
    apply list_elem_of_In in Hin.
    apply (count_occ_In string_dec) in Hin. lia.
  - destruct (getattr_ok_slot _ _ _ _ _ _ _ Hk Hread) as (d' & Hd' & Hv & Hn).
    split; [|exact Hn]. unfold slot_value, descriptor_at. rewrite Hd'.
    simpl. congruence.
Qed.

Lemma invalid_read_recomputes_once_witness :
  let self := DeterminantAttr_init (Some ["a4"; "a5"]) (Some "update_a7")
                "a7" false in
  let v := PyObj 266 (DStr "((1*(1+2)+4)*(1+(1+2)+((1+2)+3)*6+5)+7)") in
  contract Scenario.rank Scenario.w0 /\
  cls Scenario.w0 !! "a7" = Some (Descriptor self) /\
  py_is (value self) AttrNullState = true /\
  calc_func self = Some "update_a7" /\
  getattr 5 Scenario.program_good "a7" Scenario.w0 = (Scenario.w1, Ok v) /\
  ((exists l, calls Scenario.w1 = calls Scenario.w0 ++ l /\
              count_occ string_dec l "a7" = 1) /\
   slot_value Scenario.w1 "a7" = Some v /\ py_is v AttrNullState = false).
Proof.
  intros self v.
  assert (Hk : cls Scenario.w0 !! "a7" = Some (Descriptor self))
    by (vm_compute; reflexivity).
  assert (Hread : getattr 5 Scenario.program_good "a7" Scenario.w0
                  = (Scenario.w1, Ok v)) by (vm_compute; reflexivity).
  split; [exact DataflowSuccess_contract|]. split; [exact Hk|].
  split; [reflexivity|]. split; [reflexivity|]. split; [exact Hread|].
  exact (invalid_read_recomputes_once Scenario.rank 5 Scenario.program_good
           "a7" "update_a7" self Scenario.w0 Scenario.w1 v
           DataflowSuccess_contract Hk eq_refl eq_refl Hread).
Defined.

(** ** The failures of a read *)

(** An [AttributeError] from the lookup of a dependency makes [hasattr]
    answer [False]. *)
Lemma attribute_error_in_dependency fuel obj A dep self pre post w w1 w2 x :
  cls w !! A = Some (Descriptor self) ->
  py_is (value self) AttrNullState = true ->
  dependencies self = pre ++ dep :: post ->
  for_each pre (resolve_dependency (getattr fuel) self obj) w = (w1, Ok tt) ->
  getattr fuel obj dep w1 = (w2, Raise (AttributeError x)) ->
  getattr (S fuel) obj A w
  = (w2, Raise (MissingDependencyError (name self) dep)).
Proof.
  intros HA Hnull Hdeps Hpre Hdep. simpl. rewrite HA.
  unfold DependentAttr_get. apply bind_raise.
  unfold recompute. rewrite Hnull. apply bind_raise.
  rewrite Hdeps. erewrite for_each_app by exact Hpre.
  simpl. apply bind_raise. unfold resolve_dependency.
  rewrite (bind_ok (hasattr (getattr fuel) obj dep) _ w1 w2 false);
    [reflexivity|].
  unfold hasattr. rewrite Hdep. reflexivity.
Qed.

Lemma getattr_absent fuel obj k w :
  cls w !! k = None -> inst_lookup w obj k = None ->
  getattr (S fuel) obj k w = (w, Raise (AttributeError k)).
Proof. intros Hc Hi. simpl. rewrite Hc, Hi. reflexivity. Qed.

(** X5.  While the invalid attribute [A] is read, the dependencies before
    [dep] resolve, and [dep] is bound neither in the class nor in the
    instance.  Then the read fails with MissingDependencyError for [dep], in
    the state the earlier dependencies left: [A] is registered with them,
    its update function is not called and the later dependencies are not
    looked at. *)
Theorem missing_dependency_is_reported (fuel : nat) (obj : objref)
    (A dep : ident) (self : DependentAttr) (pre post : list ident)
    (w w1 : world)
    (HA : cls w !! A = Some (Descriptor self))
    (Hinvalid : py_is (value self) AttrNullState = true)
    (Hdeps : dependencies self = pre ++ dep :: post)
    (Hpre : for_each pre (resolve_dependency (getattr (S fuel)) self obj) w
            = (w1, Ok tt))
    (Hclass : cls w1 !! dep = None)
    (Hinst : inst_lookup w1 obj dep = None) :
  getattr (S (S fuel)) obj A w
  = (w1, Raise (MissingDependencyError (name self) dep)) /\
  forall c, c ∈ pre -> forall p, cls w1 !! c = Some (Descriptor p) ->
                                 name self ∈ children p.
Proof.
  split.
  - eapply attribute_error_in_dependency; try eassumption.
    apply getattr_absent; assumption.
  - intros c Hc p Hp. eapply for_each_resolve_registers; eassumption.
Qed.

Lemma missing_dependency_is_reported_witness :
  let w := fresh Cases.NoSuchDependency in
  let self := DeterminantAttr_init (Some ["ghost"]) (Some "update_a") "a"
                false in
  cls w !! "a" = Some (Descriptor self) /\
  py_is (value self) AttrNullState = true /\
  dependencies self = [] ++ "ghost" :: [] /\
  cls w !! "ghost" = None /\
  inst_lookup w Scenario.program_good "ghost" = None /\
  getattr 2 Scenario.program_good "a" w
  = (w, Raise (MissingDependencyError "a" "ghost")).
Proof.
  intros w self.
  assert (HA : cls w !! "a" = Some (Descriptor self))
    by (vm_compute; reflexivity).
  assert (Hc : cls w !! "ghost" = None) by (vm_compute; reflexivity).
  assert (Hi : inst_lookup w Scenario.program_good "ghost" = None)
    by (vm_compute; reflexivity).
  split; [exact HA|]. split; [reflexivity|]. split; [reflexivity|].
  split; [exact Hc|]. split; [exact Hi|].
  exact (proj1 (missing_dependency_is_reported 0 Scenario.program_good "a"
                  "ghost" self [] [] w w HA eq_refl eq_refl eq_refl Hc Hi)).
Defined.

(** X6.  [hasattr] turns every [AttributeError] into [False]: when the
    lookup of a dependency [dep] raises [AttributeError], for instance
    because the update function of [dep] reads an attribute that does not
    exist, the read of [A] reports MissingDependencyError for [dep], although
    [dep] is an attribute, and the state is the one that lookup left. *)
Theorem attribute_error_is_masked (fuel : nat) (obj : objref)
    (A dep x : ident) (self : DependentAttr) (pre post : list ident)
    (w w1 w2 : world)
    (HA : cls w !! A = Some (Descriptor self))
    (Hinvalid : py_is (value self) AttrNullState = true)
    (Hdeps : dependencies self = pre ++ dep :: post)
    (Hpre : for_each pre (resolve_dependency (getattr fuel) self obj) w
            = (w1, Ok tt))
    (Hdep : getattr fuel obj dep w1 = (w2, Raise (AttributeError x))) :
  getattr (S fuel) obj A w
  = (w2, Raise (MissingDependencyError (name self) dep)).
Proof. eapply attribute_error_in_dependency; eassumption. Qed.

Lemma attribute_error_is_masked_witness :
  let w := fresh Cases.Masked in
  let self := DeterminantAttr_init (Some ["d"]) (Some "update_a") "a" false in
  let w2 := fst (getattr 2 Scenario.program_good "d" w) in
  cls w !! "a" = Some (Descriptor self) /\
  py_is (value self) AttrNullState = true /\
  dependencies self = [] ++ "d" :: [] /\
  is_descriptor w "d" = true /\
  getattr 2 Scenario.program_good "d" w = (w2, Raise (AttributeError "zz")) /\
  getattr 3 Scenario.program_good "a" w
  = (w2, Raise (MissingDependencyError "a" "d")).
Proof.
  intros w self w2.
  assert (HA : cls w !! "a" = Some (Descriptor self))
    by (vm_compute; reflexivity).
  assert (Hd : getattr 2 Scenario.program_good "d" w
               = (w2, Raise (AttributeError "zz")))
    by (vm_compute; reflexivity).
  split; [exact HA|]. split; [reflexivity|]. split; [reflexivity|].
  split; [vm_compute; reflexivity|]. split; [exact Hd|].
  exact (attribute_error_is_masked 2 Scenario.program_good "a" "d" "zz" self
           [] [] w w w2 HA eq_refl eq_refl eq_refl Hd).
Defined.

(** X7.  The dependencies of the invalid attribute [A] resolve, and its
    update function [f] is bound neither in the class nor in the instance.
    Then the read fails with MissingComputeError, in the state the
    dependencies left: the update function of no attribute is called on
    behalf of [A], which is by then registered with its dependencies. *)
Theorem missing_update_function_is_reported (fuel : nat) (obj : objref)
    (A f : ident) (self : DependentAttr) (w w1 : world)
    (HA : cls w !! A = Some (Descriptor self))
    (Hinvalid : py_is (value self) AttrNullState = true)
    (Hcalc : calc_func self = Some f)
    (Hloop : for_each (dependencies self)
               (resolve_dependency (getattr (S fuel)) self obj) w
             = (w1, Ok tt))
    (Hclass : cls w1 !! f = None)
    (Hinst : inst_lookup w1 obj f = None) :
  getattr (S (S fuel)) obj A w
  = (w1, Raise (MissingComputeError (name self) f)) /\
  registered w1 A.
Proof.
  assert (Hget : getattr (S (S fuel)) obj A w
                 = (w1, Raise (MissingComputeError (name self) f))).
  { remember (S fuel) as n eqn:En. simpl. rewrite HA.
    unfold DependentAttr_get. apply bind_raise.
    unfold recompute. rewrite Hinvalid, Hcalc.
    erewrite bind_ok by exact Hloop.
    rewrite (bind_ok (getattr_default (getattr n) obj f) _ w1 w1 PyNone);
      [reflexivity|].
    unfold getattr_default. subst n.
    rewrite (getattr_absent fuel obj f w1 Hclass Hinst). reflexivity. }
  split; [exact Hget|].
  intros d dep p Hd Hdep Hp.
  pose proof (for_each_resolve_evolves _ _ _ _ _ _ _ Hloop) as Hev.
  destruct (evolves_descriptor _ _ _ _ Hev HA) as (d' & Hd' & Hs & _).
  rewrite Hd in Hd'. inversion Hd'; subst d'.
  destruct Hs as (Hdeps & _ & Hname & _). rewrite Hname.
  eapply for_each_resolve_registers; [exact Hloop| |exact Hp].
  rewrite <- Hdeps. exact Hdep.
Qed.

Lemma missing_update_function_is_reported_witness :
  let w := fresh Cases.NoMethod in
  let self := DeterminantAttr_init (Some ["src"]) (Some "update_a") "a"
                false in
  let w1 := fst (for_each (dependencies self)
                   (resolve_dependency (getattr 1) self Scenario.program_good)
                   w) in
  cls w !! "a" = Some (Descriptor self) /\
  py_is (value self) AttrNullState = true /\
  calc_func self = Some "update_a" /\
  cls w1 !! "update_a" = None /\
  inst_lookup w1 Scenario.program_good "update_a" = None /\
  slot_children w1 "src" = ["a"] /\ calls w1 = [] /\
  getattr 2 Scenario.program_good "a" w
  = (w1, Raise (MissingComputeError "a" "update_a")) /\
  registered w1 "a".
Proof.
  intros w self w1.
  assert (HA : cls w !! "a" = Some (Descriptor self))
    by (vm_compute; reflexivity).
  assert (Hloop : for_each (dependencies self)
                    (resolve_dependency (getattr 1) self Scenario.program_good)
                    w = (w1, Ok tt)) by (vm_compute; reflexivity).
  assert (Hc : cls w1 !! "update_a" = None) by (vm_compute; reflexivity).
  assert (Hi : inst_lookup w1 Scenario.program_good "update_a" = None)
    by (vm_compute; reflexivity).
  split; [exact HA|]. split; [reflexivity|]. split; [reflexivity|].
  split; [exact Hc|]. split; [exact Hi|].
  split; [vm_compute; reflexivity|]. split; [vm_compute; reflexivity|].
  exact (missing_update_function_is_reported 0 Scenario.program_good "a"
           "update_a" self w w1 HA eq_refl eq_refl Hloop Hc Hi).
Defined.

(** X8.  An attribute without dependencies and without update function that
    holds the marker (it was written to it, or constructed with it) cannot
    be read: every read raises StaleComputeError and changes nothing. *)
Theorem invalid_independent_read_fails (fuel : nat) (obj : objref) (k : ident)
    (d : DependentAttr) (w : world)
    (Hk : cls w !! k = Some (Descriptor d))
    (Hinvalid : value d = AttrNullState)
    (Hdeps : dependencies d = [])
    (Hcalc : calc_func d = None) :
  getattr (S fuel) obj k w = (w, Raise (StaleComputeError (name d) None)).
Proof.
  simpl. rewrite Hk. unfold DependentAttr_get, recompute.
  rewrite Hinvalid, Hdeps, Hcalc. simpl.
  unfold bind, ret, get_world, descriptor_at. simpl. rewrite Hk, Hinvalid.
  reflexivity.
Qed.

Lemma invalid_independent_read_fails_witness :
  let w := fst (setattr_total Scenario.program_good "a1" AttrNullState
                  Scenario.w0) in
  let d := with_value AttrNullState
             (IndependentAttr_init (py_int 1) "a1" false) in
  cls w !! "a1" = Some (Descriptor d) /\ value d = AttrNullState /\
  dependencies d = [] /\ calc_func d = None /\
  getattr 1 Scenario.program_good "a1" w
  = (w, Raise (StaleComputeError "a1" None)).
Proof.
  intros w d.
  assert (Hk : cls w !! "a1" = Some (Descriptor d))
    by (vm_compute; reflexivity).
  split; [exact Hk|]. split; [reflexivity|]. split; [reflexivity|].
  split; [reflexivity|].
  exact (invalid_independent_read_fails 0 Scenario.program_good "a1" d w Hk
           eq_refl eq_refl eq_refl).
Defined.

(** X9.  A dependency that is not a descriptor (a class constant, a method,
    an instance attribute) is taken as it is: resolving it registers
    nothing, raises nothing even when it holds the marker, and changes
    nothing; and a write to it changes no slot, so that nothing is
    invalidated. *)
Theorem plain_dependency_is_not_tracked (fuel : nat) (obj : objref)
    (self : DependentAttr) (dep : ident) (v u : pyval) (w : world)
    (Hplain : descriptor_at w dep = None)
    (Hbound : getattr (S fuel) obj dep w = (w, Ok v)) :
  resolve_dependency (getattr (S fuel)) self obj dep w = (w, Ok tt) /\
  setattr (S fuel) obj dep u w = (inst_store obj dep u w, Ok tt) /\
  cls (inst_store obj dep u w) = cls w.
Proof.
  split; [|split; [|reflexivity]].
  - unfold resolve_dependency, bind, hasattr. rewrite Hbound. cbn [negb].
    unfold modify, register_child. rewrite Hplain, Hbound.
    unfold get_world, is_descriptor. rewrite Hplain, andb_false_r.
    reflexivity.
  - simpl. unfold descriptor_at in Hplain.
    destruct (cls w !! dep) as [[x| |]|]; try discriminate Hplain;
      reflexivity.
Qed.

Lemma plain_dependency_is_not_tracked_witness :
  let w := fst (getattr 3 Scenario.program_good "a2"
                  (fresh Cases.PlainDependency)) in
  let self := DeterminantAttr_init (Some ["a1"]) (Some "update_a2") "a2"
                false in
  let w' := inst_store Scenario.program_good "a1" (py_int 5) w in
  descriptor_at w "a1" = None /\
  getattr 1 Scenario.program_good "a1" w = (w, Ok (py_int 1)) /\
  slot_value w "a2" = Some (PyObj 262 (DStr "(1+2)")) /\
  (resolve_dependency (getattr 1) self Scenario.program_good "a1" w
   = (w, Ok tt) /\
   setattr 1 Scenario.program_good "a1" (py_int 5) w = (w', Ok tt) /\
   cls w' = cls w) /\
  snd (getattr 1 Scenario.program_good "a1" w') = Ok (py_int 5) /\
  snd (getattr 3 Scenario.program_good "a2" w')
  = Ok (PyObj 262 (DStr "(1+2)")).
Proof.
  intros w self w'.
  assert (Hp : descriptor_at w "a1" = None) by (vm_compute; reflexivity).
  assert (Hb : getattr 1 Scenario.program_good "a1" w = (w, Ok (py_int 1)))
    by (vm_compute; reflexivity).
  split; [exact Hp|]. split; [exact Hb|]. split; [vm_compute; reflexivity|].
  split; [|split; vm_compute; reflexivity].
  exact (plain_dependency_is_not_tracked 0 Scenario.program_good self "a1"
           (py_int 1) (py_int 5) w Hp Hb).
Defined.

(** ** The check of lines 92-95 never fires *)

Lemma methods_evolve w w' :
  evolves w w' -> methods_raise_no_update_error w ->
  methods_raise_no_update_error w'.
Proof.
  intros (He & _) Hm f body Hf. specialize (He f). rewrite Hf in He.
  destruct (cls w !! f) as [[d| |]|] eqn:E; simpl in He.
  - destruct He as (d' & Hd' & _). discriminate Hd'.
  - discriminate He.
  - apply (Hm f). congruence.
  - discriminate He.
Qed.

Lemma failure_update_error {A B} (r0 : outcome A) (r : outcome B) :
  failure r0 = Some r -> is_update_error r -> is_update_error r0.
Proof.
  intros Hf (a & d & ->). destruct r0 as [x|e|]; simpl in Hf;
    inversion Hf; subst. exists a, d. reflexivity.
Qed.

Lemma run_no_update_error fuel obj body :
  raises_no_update_error body ->
  (forall o k w w' r, methods_raise_no_update_error w ->
                      getattr fuel o k w = (w', r) -> ~ is_update_error r) ->
  forall w w' r, methods_raise_no_update_error w ->
                 run (getattr fuel) obj body w = (w', r) ->
                 ~ is_update_error r.
Proof.
  intros Hb IH. induction Hb as [|k cont Hc IHc|k v cont Hc IHc|d cont Hc IHc|e He];
    intros w w' r Hm H; simpl in H.
  - inversion H; subst. intros (a & d & E). discriminate E.
  - apply bind_inv in H as [(v & w1 & H1 & H)|(r0 & H1 & Hf)].
    + eapply IHc; [|exact H]. eapply methods_evolve; [|exact Hm].
      eapply getattr_evolves; exact H1.
    + intros Hr. eapply IH; [exact Hm|exact H1|].
      eapply failure_update_error; eassumption.
  - apply bind_inv in H as [(u & w1 & H1 & H)|(r0 & H1 & Hf)].
    + eapply IHc; [|exact H]. eapply methods_evolve; [|exact Hm].
      eapply setattr_evolves; exact H1.
    + intros Hr. apply (failure_update_error _ _ Hf) in Hr as (a & d0 & ->).
      eapply setattr_never_raises; [exact H1|reflexivity].
  - apply bind_inv in H as [(v & w1 & H1 & H)|(r0 & H1 & Hf)].
    + eapply IHc; [|exact H]. eapply methods_evolve; [|exact Hm].
      pose proof (evolves_alloc w d) as Hev. rewrite H1 in Hev. exact Hev.
    + inversion H1; subst. discriminate Hf.
  - inversion H; subst. intros (a & d & E). inversion E. eapply He; eauto.
Qed.

Lemma hasattr_update_error fuel obj k w w' (r : outcome bool) :
  hasattr (getattr fuel) obj k w = (w', r) -> is_update_error r ->
  exists r0, getattr fuel obj k w = (w', r0) /\ is_update_error r0.
Proof.
  unfold hasattr. destruct (getattr fuel obj k w) as [wx rx] eqn:E.
  intros H (a & d & ->).
  destruct rx as [x|[m|x|s]|]; inversion H; subst.
  eexists. split; [reflexivity|]. exists a, d. reflexivity.
Qed.

Lemma resolve_no_update_error fuel self obj dep :
  (forall o k w w' r, methods_raise_no_update_error w ->
                      getattr fuel o k w = (w', r) -> ~ is_update_error r) ->
  forall w w' r, methods_raise_no_update_error w ->
                 resolve_dependency (getattr fuel) self obj dep w = (w', r) ->
                 ~ is_update_error r.
Proof.
  intros IH w w' r Hm H Hr. unfold resolve_dependency in H.
  apply bind_inv in H as [(has & w1 & H1 & H)|(r0 & H1 & Hf)].
  2:{ apply (failure_update_error _ _ Hf) in Hr.
      destruct (hasattr_update_error _ _ _ _ _ _ H1 Hr) as (rx & E & Hx).
      eapply IH; eassumption. }
  pose proof (methods_evolve _ _ (hasattr_evolves _ _ _ _ _ _ H1) Hm) as Hm1.
  destruct (negb has);
    [inversion H; subst; destruct Hr as (a & d & E); discriminate E|].
  apply bind_inv in H as [(u & w2 & H2 & H)|(r0 & H2 & Hf)];
    [|inversion H2; subst; discriminate Hf].
  unfold modify in H2. injection H2 as <- _.
  assert (Hm2 : methods_raise_no_update_error
                  (register_child dep (name self) w1))
    by (eapply methods_evolve; [apply evolves_register|exact Hm1]).
  apply bind_inv in H as [(a & w3 & H3 & H)|(r0 & H3 & Hf)].
  2:{ apply (failure_update_error _ _ Hf) in Hr. eapply IH; eassumption. }
  unfold bind, get_world in H.
  destruct (py_is a AttrNullState && is_descriptor w3 dep) eqn:Eb;
    [|inversion H; subst; destruct Hr as (x & y & E); discriminate E].
  apply andb_true_iff in Eb as (Ea & Ed).
  unfold is_descriptor, descriptor_at in Ed.
  destruct (cls w3 !! dep) as [[d3| |]|] eqn:E3; try discriminate Ed.
  destruct (evolves_descriptor_back _ _ _ _ (getattr_evolves _ _ _ _ _ _ H3) E3)
    as (d2 & Hd2 & _).
  destruct (getattr_ok_slot _ _ _ _ _ _ _ Hd2 H3) as (_ & _ & _ & Hv).
  congruence.
Qed.

Lemma getattr_no_update_error fuel : forall obj k w w' r,
  methods_raise_no_update_error w -> getattr fuel obj k w = (w', r) ->
  ~ is_update_error r.
Proof.
  induction fuel as [|fuel IH]; intros obj k w w' r Hm H.
  { inversion H; subst. intros (a & d & E). discriminate E. }
  simpl in H. destruct (cls w !! k) as [[self| |]|] eqn:Hk;
    try (destruct (inst_lookup w obj k); inversion H; subst;
         intros (a & d & E); discriminate E).
  unfold DependentAttr_get in H.
  apply bind_inv in H as [(u & w1 & H1 & H2)|(r0 & H1 & Hf)].
  { unfold bind, get_world in H2. destruct (descriptor_at w1 k) as [d1|].
    - destruct (py_is (value d1) AttrNullState); inversion H2; subst;
        intros (a & d & E); discriminate E.
    - inversion H2; subst. intros (a & d & E). discriminate E. }
  intros Hr. apply (failure_update_error _ _ Hf) in Hr. clear Hf r.
  unfold recompute in H1.
  destruct (py_is (value self) AttrNullState);
    [|inversion H1; subst; destruct Hr as (a & d & E); discriminate E].
  apply bind_inv in H1 as [([] & w2 & Hloop & Hcalc)|(r1 & Hloop & Hf)].
  - pose proof (for_each_resolve_evolves _ _ _ _ _ _ _ Hloop) as Hev.
    pose proof (methods_evolve _ _ Hev Hm) as Hm2.
    destruct (calc_func self) as [f|];
      [|inversion Hcalc; subst; destruct Hr as (a & d & E); discriminate E].
    apply bind_inv in Hcalc as [(uf & w3 & H3 & H4)|(r1 & H3 & Hf)].
    + pose proof (methods_evolve _ _ (getattr_default_evolves _ _ _ _ _ _ H3)
                    Hm2) as Hm3.
      destruct (negb (py_is uf PyNone));
        [|inversion H4; subst; destruct Hr as (a & d & E); discriminate E].
      apply bind_inv in H4 as [(u' & w4 & H5 & H6)|(r1 & H5 & Hf)];
        [|inversion H5; subst; discriminate Hf].
      unfold modify in H5. injection H5 as <- _.
      assert (Hm4 : methods_raise_no_update_error (log_call k w3))
        by (eapply methods_evolve; [apply evolves_log|exact Hm3]).
      destruct uf as [| |p x|o g]; simpl in H6;
        try (inversion H6; subst; destruct Hr as (a & d & E); discriminate E).
      destruct (cls w3 !! g) as [[x|x|body]|] eqn:Hg;
        try (inversion H6; subst; destruct Hr as (a & d & E); discriminate E).
      eapply run_no_update_error; [eapply Hm3; exact Hg|exact IH|exact Hm4
                                  |exact H6|exact Hr].
    + apply (failure_update_error _ _ Hf) in Hr.
      unfold getattr_default in H3.
      destruct (getattr fuel obj f w2) as [wx rx] eqn:E.
      eapply (IH _ _ _ _ _ Hm2 E).
      destruct rx as [x|[m|x|s]|]; inversion H3; subst; try exact Hr;
        destruct Hr as (a & d & E'); discriminate E'.
  - apply (failure_update_error _ _ Hf) in Hr. clear Hf Hk.
    revert w Hm Hloop. generalize (dependencies self) as deps.
    induction deps as [|dep deps IHd]; intros w Hm Hloop; simpl in Hloop.
    { inversion Hloop; subst. destruct Hr as (a & d & E). discriminate E. }
    apply bind_inv in Hloop as [([] & wa & Ha & Hrest)|(r2 & Ha & Hf)].
    + eapply IHd; [|exact Hrest]. eapply methods_evolve; [|exact Hm].
      eapply resolve_dependency_evolves; exact Ha.
    + apply (failure_update_error _ _ Hf) in Hr.
      eapply resolve_no_update_error; eassumption.
Qed.

(** X10.  When no method of the class raises it itself, no read ever ends
    with DependencyUpdateError: a read of a descriptor returns a value other
    than the marker or raises, so the check of lines 92-95 never fires. *)
Theorem update_error_is_never_raised (fuel : nat) (obj : objref) (k : ident)
    (w : world) (a d : ident)
    (Hmethods : methods_raise_no_update_error w) :
  snd (getattr fuel obj k w) <> Raise (DependencyUpdateError a d).
Proof.
  destruct (getattr fuel obj k w) as [w' r] eqn:H. simpl. intros ->.
  eapply getattr_no_update_error; [exact Hmethods|exact H|].
  exists a, d. reflexivity.
Qed.

Lemma Broken_methods : methods_raise_no_update_error (fresh Scenario.Broken).
Proof.
  intros f body H. simpl in H. unfold Scenario.Broken in H.
  class_cases H; repeat constructor.
Qed.

Lemma update_error_is_never_raised_witness :
  methods_raise_no_update_error (fresh Scenario.Broken) /\
  snd (getattr 5 Scenario.program_good "a" (fresh Scenario.Broken))
  = Raise (StaleComputeError "d" (Some "update_d")) /\
  snd (getattr 5 Scenario.program_good "a" (fresh Scenario.Broken))
  <> Raise (DependencyUpdateError "a" "d").
Proof.
  split; [exact Broken_methods|]. split; [vm_compute; reflexivity|].
  exact (update_error_is_never_raised 5 Scenario.program_good "a"
           (fresh Scenario.Broken) "a" "d" Broken_methods).
Defined.

(** ** A descriptor whose name is not the name it is bound to *)

Lemma inst_lookup_store obj k v w o y :
  inst_lookup (inst_store obj k v w) o y
  = if decide (obj = o /\ k = y) then Some v else inst_lookup w o y.
Proof.
  unfold inst_lookup, inst_store. simpl.
  destruct (decide (obj = o)) as [->|Hne].
  - rewrite lookup_insert_eq. destruct (decide (k = y)) as [->|Hk].
    + rewrite lookup_insert_eq. rewrite decide_True by auto. reflexivity.
    + rewrite lookup_insert_ne by exact Hk.
      rewrite decide_False by (intros (_ & E); auto).
      destruct (inst w !! o); simpl; [reflexivity|apply lookup_empty].
  - rewrite lookup_insert_ne by exact Hne.
    rewrite decide_False by (intros (E & _); auto). reflexivity.
Qed.

(** A cascade stores nothing but the marker in an instance. *)
Lemma cascade_instance fuel : forall obj x w w' r o y,
  setattr fuel obj x AttrNullState w = (w', r) ->
  inst_lookup w' o y = inst_lookup w o y \/
  inst_lookup w' o y = Some AttrNullState.
Proof.
  induction fuel as [|fuel IH]; intros obj x w w' r o y H.
  { inversion H; subst. left. reflexivity. }
  simpl in H.
  assert (Hplain : modify (inst_store obj x AttrNullState) w = (w', r) ->
                   inst_lookup w' o y = inst_lookup w o y \/
                   inst_lookup w' o y = Some AttrNullState).
  { intros E. inversion E; subst. rewrite inst_lookup_store.
    case_decide; auto. }
  destruct (cls w !! x) as [[self| |]|]; try (apply Hplain; exact H).
  clear Hplain. unfold DependentAttr_set in H.
  destruct (negb (py_is (value self) AttrNullState));
    [|inversion H; subst; left; reflexivity].
  apply bind_inv in H as [(u & w1 & H1 & H)|(r0 & H1 & Hf)];
    [|inversion H1; subst; discriminate Hf].
  inversion H1; subst. clear H1.
  assert (Hst : inst_lookup (store_value x AttrNullState w) o y
                = inst_lookup w o y).
  { unfold inst_lookup.
    rewrite (proj2 (store_value_quiet x AttrNullState w)). reflexivity. }
  rewrite <- Hst. revert H. generalize (store_value x AttrNullState w) as w1.
  generalize (children self) as cs. clear Hst.
  induction cs as [|c cs IHcs]; intros w1 H; simpl in H.
  - inversion H; subst. left. reflexivity.
  - apply bind_inv in H as [(u & w2 & H2 & H)|(r0 & H2 & _)];
      [|eapply IH; exact H2].
    destruct (IHcs _ H) as [E|E]; [|right; exact E].
    rewrite E. eapply IH. exact H2.
Qed.

Lemma invalidate_all_instance fuel obj o y : forall cs w w' r,
  for_each cs (fun child => setattr fuel obj child AttrNullState) w = (w', r) ->
  inst_lookup w' o y = inst_lookup w o y \/
  inst_lookup w' o y = Some AttrNullState.
Proof.
  induction cs as [|c cs IHcs]; intros w w' r H; simpl in H.
  - inversion H; subst. left. reflexivity.
  - apply bind_inv in H as [(u & w2 & H2 & H)|(r0 & H2 & _)];
      [|eapply cascade_instance; exact H2].
    destruct (IHcs _ _ _ H) as [E|E]; [|right; exact E].
    rewrite E. eapply cascade_instance. exact H2.
Qed.

Lemma invalidate_all_plain_child fuel obj c : forall cs w w',
  for_each cs (fun child => setattr fuel obj child AttrNullState) w
    = (w', Ok tt) ->
  c ∈ cs -> descriptor_at w c = None ->
  inst_lookup w' obj c = Some AttrNullState.
Proof.
  induction cs as [|x cs IHcs]; intros w w' H Hin Hc; [inversion Hin|].
  simpl in H.
  apply bind_inv in H as [([] & w2 & H2 & H)|(r0 & _ & Hf)];
    [|exfalso; eapply failure_not_ok; eauto].
  assert (Hc2 : descriptor_at w2 c = None).
  { unfold descriptor_at in *.
    destruct (cls w2 !! c) as [[d2| |]|] eqn:E; try reflexivity.
    destruct (evolves_descriptor_back _ _ _ _
                (setattr_evolves _ _ _ _ _ _ _ H2) E) as (d & Hd & _).
    rewrite Hd in Hc. discriminate Hc. }
  apply elem_of_cons in Hin as [->|Hin]; [|eapply IHcs; eassumption].
  assert (E2 : inst_lookup w2 obj x = Some AttrNullState).
  { destruct fuel as [|fuel]; [discriminate H2|]. simpl in H2.
    unfold descriptor_at in Hc.
    destruct (cls w !! x) as [[d| |]|]; try discriminate Hc;
      inversion H2; subst; rewrite inst_lookup_store;
      rewrite decide_True by auto; reflexivity. }
  destruct (invalidate_all_instance _ _ obj x _ _ _ _ H) as [E|E];
    [rewrite E; exact E2|exact E].
Qed.

Lemma unregistered_b_spec w B : unregistered_b w B = true -> unregistered w B.
Proof.
  intros H X q HX Hin. apply bool_decide_eq_true in H.
  specialize (H X _ HX). simpl in H. apply negb_true_iff in H.
  apply bool_decide_eq_false in H. auto.
Qed.

(** X11.  Children are recorded by the [name] given to the constructor and
    invalidated through [setattr(obj, name, ...)].  When a recorded child
    [c] is not the name of a descriptor, a write to [A] stores the marker
    in the instance attribute [c]; and a descriptor [k] that is itself in no
    children list (it was registered under another name) keeps its slot,
    so that it goes on returning its old value. *)
Theorem misnamed_child_is_not_invalidated (fuel : nat) (obj : objref)
    (A c k : ident) (v : pyval) (w w' : world) (d : DependentAttr)
    (HA : cls w !! A = Some (Descriptor d))
    (Hnew : py_is (value d) v = false)
    (Hchild : c ∈ children d)
    (Hplain : descriptor_at w c = None)
    (Hk : k <> A)
    (Hunreg : unregistered w k)
    (Hset : setattr fuel obj A v w = (w', Ok tt)) :
  inst_lookup w' obj c = Some AttrNullState /\
  cls w' !! k = cls w !! k.
Proof.
  split; [|eapply setattr_frame; eassumption].
  destruct fuel as [|fuel]; [discriminate Hset|]. simpl in Hset.
  rewrite HA in Hset. unfold DependentAttr_set in Hset. rewrite Hnew in Hset.
  simpl in Hset.
  apply bind_inv in Hset as [(u & w1 & H1 & H)|(r0 & _ & Hf)];
    [|exfalso; eapply failure_not_ok; eauto].
  inversion H1; subst. clear H1.
  eapply invalidate_all_plain_child; [exact H|exact Hchild|].
  unfold descriptor_at in *.
  assert (Hne : c <> A) by (intros ->; rewrite HA in Hplain; discriminate).
  rewrite (store_value_other w A v c Hne). exact Hplain.
Qed.

Lemma misnamed_child_is_not_invalidated_witness :
  let w := fst (getattr 3 Scenario.program_good "a2" (fresh Cases.Misnamed)) in
  let d := with_children ["b2"] (IndependentAttr_init (py_int 1) "a1" false) in
  let res := setattr 3 Scenario.program_good "a1" (py_int 5) w in
  cls w !! "a1" = Some (Descriptor d) /\
  py_is (value d) (py_int 5) = false /\ "b2" ∈ children d /\
  descriptor_at w "b2" = None /\ "a2" <> "a1" /\ unregistered w "a2" /\
  res = (fst res, Ok tt) /\
  slot_value w "a2" = Some (PyObj 262 (DStr "(1+2)")) /\
  slot_value (fst res) "a1" = Some (py_int 5) /\
  snd (getattr 3 Scenario.program_good "a2" (fst res))
  = Ok (PyObj 262 (DStr "(1+2)")) /\
  (inst_lookup (fst res) Scenario.program_good "b2" = Some AttrNullState /\
   cls (fst res) !! "a2" = cls w !! "a2").
Proof.
  intros w d res.
  assert (HA : cls w !! "a1" = Some (Descriptor d))
    by (vm_compute; reflexivity).
  assert (Hp : descriptor_at w "b2" = None) by (vm_compute; reflexivity).
  assert (Hne : "a2" <> "a1") by discriminate.
  assert (Hu : unregistered w "a2")
    by (apply unregistered_b_spec; vm_compute; reflexivity).
  assert (Hres : res = (fst res, Ok tt)) by (vm_compute; reflexivity).
  split; [exact HA|]. split; [reflexivity|]. split; [simpl; left|].
  split; [exact Hp|]. split; [exact Hne|]. split; [exact Hu|].
  split; [exact Hres|]. split; [vm_compute; reflexivity|].
  split; [vm_compute; reflexivity|]. split; [vm_compute; reflexivity|].
  exact (misnamed_child_is_not_invalidated 3 Scenario.program_good "a1" "b2"
           "a2" (py_int 5) w (fst res) d HA eq_refl ltac:(simpl; left) Hp Hne
           Hu Hres).
Defined.

(** ** A read returns when the declared graph is acyclic *)

Lemma getattr_quiet_outcome fuel obj x w w' r :
  quiet_read (Some x) w -> getattr (S fuel) obj x w = (w', r) ->
  r <> OutOfFuel.
Proof.
  intros Hq H. destruct (cls w !! x) as [[d| |]|] eqn:Hx.
  - rewrite (getattr_hit fuel obj x d w Hx (Hq d Hx)) in H.
    inversion H; subst. discriminate.
  - simpl in H. rewrite Hx in H.
    destruct (inst_lookup w obj x); inversion H; subst; discriminate.
  - simpl in H. rewrite Hx in H.
    destruct (inst_lookup w obj x); inversion H; subst; discriminate.
  - simpl in H. rewrite Hx in H.
    destruct (inst_lookup w obj x); inversion H; subst; discriminate.
Qed.

Lemma failure_out_of_fuel {A B} (r0 : outcome A) :
  failure r0 = Some (@OutOfFuel B) -> r0 = OutOfFuel.
Proof. destruct r0; simpl; intros H; inversion H; reflexivity. Qed.

Section Terminates.

Variable rk : ident -> nat.
Variable b : nat.
Variable fuel : nat.
Hypothesis fuel_pos : 1 <= fuel.
Hypothesis reads_return :
  forall obj k w w' r, contract rk w -> rk k < b ->
                       getattr fuel obj k w = (w', r) -> r <> OutOfFuel.

Lemma run_returns obj own p :
  reads_below rk b own p ->
  forall w w' r, quiet_read own w -> contract rk w ->
                 run (getattr fuel) obj p w = (w', r) -> r <> OutOfFuel.
Proof.
  induction 1 as [own|own k cont Hlt Hc IH|x cont Hc IH
                 |own k v cont Hv Hc IH|own k v cont Hv Hn Hc IH
                 |own d cont Hc IH|own e];
    intros w w' r Hq Hcon H; simpl in H.
  - inversion H; subst. discriminate.
  - apply bind_inv in H as [(v & w1 & H1 & H)|(r0 & H1 & Hf)].
    + eapply IH; [exact I| |exact H].
      eapply getattr_calls; eassumption.
    + intros ->. apply failure_out_of_fuel in Hf. subst r0.
      eapply reads_return; eauto.
  - destruct fuel as [|fuel']; [lia|].
    apply bind_inv in H as [(v & w1 & H1 & H)|(r0 & H1 & Hf)].
    + pose proof (getattr_quiet _ _ _ _ _ _ Hq H1) as ->.
      eapply IH; [exact Hq|exact Hcon|exact H].
    + intros ->. apply failure_out_of_fuel in Hf. subst r0.
      eapply getattr_quiet_outcome; eauto.
  - apply bind_inv in H as [(u & w1 & H1 & H)|(r0 & H1 & Hf)].
    + eapply IH; [exact I| |exact H].
      eapply (setattr_total_below rk b obj k v Hv w w1 (Ok u) I H1 Hcon).
    + intros ->. apply failure_out_of_fuel in Hf. subst r0.
      destruct (setattr_total_ok obj k v w) as (wx & E). congruence.
  - apply bind_inv in H as [(u & w1 & H1 & H)|(r0 & H1 & Hf)].
    + eapply IH; [| |exact H].
      * unfold setattr_total, set_fuel in H1.
        replace (size (cls w) + 3) with (S (size (cls w) + 2)) in H1 by lia.
        eapply setattr_leaves_valid; [|exact Hn|exact H1]. apply Hcon.
      * eapply (setattr_total_below rk b obj k v Hv w w1 (Ok u) I H1 Hcon).
    + intros ->. apply failure_out_of_fuel in Hf. subst r0.
      destruct (setattr_total_ok obj k v w) as (wx & E). congruence.
  - apply bind_inv in H as [(v & w1 & H1 & H)|(r0 & H1 & Hf)];
      [|inversion H1; subst; discriminate Hf].
    pose proof (keeps_children_alloc w d) as He. rewrite H1 in He.
    simpl in He. inversion H1; subst.
    eapply IH; [| |exact H].
    + destruct own; simpl in *; auto.
    + eapply contract_keeps; [exact He| |exact Hcon]. auto.
  - inversion H; subst. discriminate.
Qed.

End Terminates.

Lemma getattr_returns rk fuel : forall obj k w w' r,
  contract rk w -> rk k + 2 <= fuel ->
  getattr fuel obj k w = (w', r) -> r <> OutOfFuel.
Proof.
  induction fuel as [|fuel IH]; intros obj k w w' r Hc Hfuel H; [lia|].
  simpl in H. destruct (cls w !! k) as [[self| |]|] eqn:Hk;
    try (destruct (inst_lookup w obj k); inversion H; subst; discriminate).
  assert (IHlow : forall o k' w1 w2 r2, contract rk w1 -> rk k' < rk k ->
            getattr fuel o k' w1 = (w2, r2) -> r2 <> OutOfFuel).
  { intros o k' w1 w2 r2 Hc1 Hlt E. eapply IH; [exact Hc1| |exact E]. lia. }
  assert (IHb : forall o k', rk k' < rk k ->
            steps (calls_below rk (rk k)) always (getattr fuel o k')).
  { intros o k' Hlt w1 w2 r2 _ E Hc1.
    destruct (getattr_calls rk _ _ _ _ _ _ Hc1 E) as (Hc2 & Ha).
    split; [exact Hc2|]. eapply calls_around_below; eassumption. }
  pose proof Hc as (Hname & Hdeps & Hcalc & _ & _).
  specialize (Hname k self Hk).
  specialize (Hdeps k self). specialize (Hcalc k self).
  unfold DependentAttr_get in H.
  apply bind_inv in H as [(u & w1 & H1 & H2)|(r0 & H1 & Hf)].
  { unfold bind, get_world in H2. destruct (descriptor_at w1 k) as [d1|].
    - destruct (py_is (value d1) AttrNullState); inversion H2; subst;
        discriminate.
    - inversion H2; subst. discriminate. }
  intros ->. apply failure_out_of_fuel in Hf. subst r0.
  unfold recompute in H1.
  destruct (py_is (value self) AttrNullState); [|discriminate H1].
  assert (Hres : forall dep w1 w2 r2, dep ∈ dependencies self ->
            contract rk w1 ->
            resolve_dependency (getattr fuel) self obj dep w1 = (w2, r2) ->
            contract rk w2 /\ r2 <> OutOfFuel).
  { intros dep wa wb rb Hdep Hca E.
    assert (Hlt : rk dep < rk k) by auto.
    split.
    { eapply (resolve_dependency_below rk (rk k) (getattr fuel) IHb self obj
                dep Hlt ltac:(rewrite Hname; exact Hlt) wa wb rb I E Hca). }
    unfold resolve_dependency in E.
    apply bind_inv in E as [(has & wc & E1 & E)|(r0 & E1 & Hf)].
    2:{ intros ->. apply failure_out_of_fuel in Hf. subst r0.
        unfold hasattr in E1.
        destruct (getattr fuel obj dep wa) as [wx rx] eqn:Eg.
        destruct rx as [x|[m|x|s]|]; inversion E1.
        eapply IHlow; eauto. }
    assert (Hcc : contract rk wc).
    { unfold hasattr in E1.
      destruct (getattr fuel obj dep wa) as [wx rx] eqn:Eg.
      destruct (getattr_calls rk _ _ _ _ _ _ Hca Eg) as (Hcx & _).
      destruct rx as [x|[m|x|s]|]; inversion E1; subst; exact Hcx. }
    destruct (negb has); [inversion E; subst; discriminate|].
    apply bind_inv in E as [(u & wd & E2 & E)|(r0 & E2 & Hf)];
      [|inversion E2; subst; discriminate Hf].
    unfold modify in E2. injection E2 as <- _.
    apply bind_inv in E as [(a & we & E3 & E)|(r0 & E3 & Hf)].
    - unfold bind, get_world in E.
      destruct (py_is a AttrNullState && is_descriptor we dep);
        inversion E; subst; discriminate.
    - intros ->. apply failure_out_of_fuel in Hf. subst r0.
      refine (IHlow _ _ _ _ _ _ Hlt E3 eq_refl).
      apply contract_register; [rewrite Hname; exact Hlt|exact Hcc]. }
  assert (Hloop : forall deps, (forall dep, dep ∈ deps ->
                                     dep ∈ dependencies self) ->
            forall w1 w2 r2, contract rk w1 ->
            for_each deps (resolve_dependency (getattr fuel) self obj) w1
            = (w2, r2) -> contract rk w2 /\ r2 <> OutOfFuel).
  { induction deps as [|dep deps IHd]; intros Hsub wa wb rb Hca E;
      simpl in E.
    - inversion E; subst. split; [exact Hca|discriminate].
    - assert (Hin : dep ∈ dependencies self) by (apply Hsub; left).
      assert (Hsub' : forall x, x ∈ deps -> x ∈ dependencies self)
        by (intros x Hx; apply Hsub; right; exact Hx).
      apply bind_inv in E as [([] & wc & Ea & Hrest)|(r2 & Ea & Hf)].
      + destruct (Hres dep wa wc (Ok tt) Hin Hca Ea) as (Hcc & _).
        eapply IHd; eauto.
      + destruct (Hres dep wa wb r2 Hin Hca Ea) as (Hcb & Hr2).
        split; [exact Hcb|]. intros ->. apply failure_out_of_fuel in Hf.
        contradiction. }
  apply bind_inv in H1 as [([] & w2 & E1 & E)|(r1 & E1 & Hf)].
  2:{ apply failure_out_of_fuel in Hf. subst r1.
      destruct (Hloop _ (fun _ H => H) _ _ _ Hc E1) as (_ & Hr).
      apply Hr. reflexivity. }
  destruct (Hloop _ (fun _ H => H) _ _ _ Hc E1) as (Hc2 & _).
  pose proof (for_each_resolve_evolves _ _ _ _ _ _ _ E1) as Hev.
  destruct (calc_func self) as [f|]; [|discriminate E].
  destruct (Hcalc f Hk eq_refl) as (body & Hf & Hrb).
  pose proof (evolves_method _ _ _ _ Hev Hf) as Hf2.
  pose proof Hc2 as (_ & _ & _ & Hinst2 & _).
  apply bind_inv in E as [(uf & w3 & E2 & E)|(r0 & E2 & Hfail)].
  2:{ apply failure_out_of_fuel in Hfail. subst r0.
      unfold getattr_default in E2.
      destruct fuel as [|fuel']; [lia|]. simpl in E2. rewrite Hf2 in E2.
      destruct (inst_lookup w2 obj f); discriminate E2. }
  apply (getattr_method _ _ _ _ _ _ _ Hf2 Hinst2) in E2 as (-> & Huf).
  specialize (Huf uf eq_refl).
  destruct (negb (py_is uf PyNone)); [|discriminate E].
  apply bind_inv in E as [(u & w4 & E3 & E)|(r0 & E3 & Hfail)];
    [|inversion E3; subst; discriminate Hfail].
  unfold modify in E3. injection E3 as <- _.
  assert (Hc4 : contract rk (log_call k w2)).
  { eapply contract_keeps; [apply keeps_children_log| |exact Hc2]. auto. }
  destruct Huf as [->|Hn].
  - simpl in E. rewrite Hf2 in E.
    refine (run_returns rk (rk k) fuel ltac:(lia) IHlow obj None body Hrb
              _ _ _ I Hc4 E eq_refl).
  - destruct uf; try discriminate Hn; discriminate E.
Qed.

(** X12. With an acyclic dependency graph (a ranking [rk] that the
    dependencies, the update functions and the recorded children respect),
    a read of [k] returns: [rk k + 2] units of fuel are enough, and any
    larger amount gives the same state and the same outcome. *)
Theorem read_returns (rk : ident -> nat) (fuel n : nat) (obj : objref)
    (k : ident) (w : world)
    (Hcontract : contract rk w)
    (Hfuel : rk k + 2 <= fuel) :
  snd (getattr fuel obj k w) <> OutOfFuel /\
  getattr (n + fuel) obj k w = getattr fuel obj k w.
Proof.
  destruct (getattr fuel obj k w) as [w' r] eqn:H.
  assert (Hr : r <> OutOfFuel) by (eapply getattr_returns; eassumption).
  split; [exact Hr|]. apply getattr_fuel_mono; assumption.
Qed.

Lemma read_returns_witness :
  contract Scenario.rank Scenario.w0 /\
  Scenario.rank "a7" + 2 <= 6 /\
  snd (getattr 6 Scenario.program_good "a7" Scenario.w0) <> OutOfFuel /\
  getattr (3 + 6) Scenario.program_good "a7" Scenario.w0
  = getattr 6 Scenario.program_good "a7" Scenario.w0.
Proof.
  assert (Hfuel : Scenario.rank "a7" + 2 <= 6) by (vm_compute; lia).
  split; [exact DataflowSuccess_contract|]. split; [exact Hfuel|].
  exact (read_returns Scenario.rank 6 3 Scenario.program_good "a7"
           Scenario.w0 DataflowSuccess_contract Hfuel).
Defined.

(** ** What a write leaves alone *)

Lemma keeps_children_slot w w' k :
  keeps_children w w' -> slot_children w' k = slot_children w k.
Proof.
  intros ((Hm & _) & Hc). specialize (Hm k).
  unfold slot_children, descriptor_at.
  destruct (cls w !! k) as [[d| |]|] eqn:Hk; simpl in Hm.
  - destruct Hm as (d' & Hd' & _). rewrite Hd'. eapply Hc; eassumption.
  - rewrite Hm. reflexivity.
  - rewrite Hm. reflexivity.
  - rewrite Hm. reflexivity.
Qed.

Lemma keeps_children_descendant w w' A X :
  keeps_children w w' -> descendant w' A X -> descendant w A X.
Proof.
  intros Hk. induction 1 as [X HX|Y X _ IH HX].
  - apply descendant_child. rewrite <- (keeps_children_slot w w' A Hk).
    exact HX.
  - eapply descendant_step; [exact IH|].
    rewrite <- (keeps_children_slot w w' Y Hk). exact HX.
Qed.

Lemma descendant_below w A c X :
  c ∈ slot_children w A -> descendant w c X -> descendant w A X.
Proof.
  intros Hc. induction 1 as [X HX|Y X _ IH HX].
  - eapply descendant_step; [apply descendant_child; exact Hc|exact HX].
  - eapply descendant_step; [exact IH|exact HX].
Qed.

Lemma setattr_outside fuel : forall obj A v w w' r X,
  setattr fuel obj A v w = (w', r) -> X <> A -> ~ descendant w A X ->
  cls w' !! X = cls w !! X.
Proof.
  induction fuel as [|fuel IH]; intros obj A v w w' r X H Hne Hnd.
  - inversion H; subst. reflexivity.
  - simpl in H. destruct (cls w !! A) as [[self| |]|] eqn:HA;
      try (inversion H; subst; reflexivity).
    unfold DependentAttr_set in H.
    destruct (negb (py_is (value self) v)); [|inversion H; subst; reflexivity].
    apply bind_inv in H as [(u & w1 & H1 & H)|(r0 & H1 & _)];
      [|inversion H1; subst; apply store_value_other; exact Hne].
    inversion H1; subst. clear H1.
    rewrite <- (store_value_other w A v X Hne).
    assert (Hsub : forall c, c ∈ children self -> c ∈ slot_children w A).
    { intros c Hc. unfold slot_children, descriptor_at. rewrite HA. exact Hc. }
    pose proof (keeps_children_store w A v) as Hk.
    revert Hsub Hk H. generalize (store_value A v w) as wa.
    generalize (children self) as cs.
    induction cs as [|c cs IHcs]; intros wa Hsub Hk H; simpl in H.
    + inversion H; subst. reflexivity.
    + assert (Hc : c ∈ slot_children w A) by (apply Hsub; left).
      assert (Hstep : forall wm r1,
                setattr fuel obj c AttrNullState wa = (wm, r1) ->
                cls wm !! X = cls wa !! X).
      { intros wm r1 E. eapply IH; [exact E| |].
        - intros ->. apply Hnd. apply descendant_child. exact Hc.
        - intros Hd. apply Hnd. eapply descendant_below; [exact Hc|].
          eapply keeps_children_descendant; eassumption. }
      apply bind_inv in H as [([] & wm & E & H)|(r0 & E & _)];
        [|eapply Hstep; exact E].
      rewrite <- (Hstep _ _ E). eapply IHcs; [| |exact H].
      * intros x Hx. apply Hsub. right. exact Hx.
      * eapply keeps_children_trans; [exact Hk|].
        eapply setattr_keeps_children. exact E.
Qed.

(** X13. An assignment to [A] reaches only [A] and what the recorded
    children lists reach from [A]: every other name of the class stays
    bound to the very same thing, a descriptor with its value and its
    children. *)
Theorem write_touches_only_descendants (fuel : nat) (obj : objref)
    (A X : ident) (v : pyval) (w w' : world) (r : outcome unit)
    (Hne : X <> A)
    (Hout : ~ descendant w A X)
    (Hset : setattr fuel obj A v w = (w', r)) :
  cls w' !! X = cls w !! X.
Proof. eapply setattr_outside; eassumption. Qed.

Lemma write_touches_only_descendants_witness :
  "a4" <> "a6" /\
  ~ descendant Scenario.w1 "a6" "a4" /\
  setattr 4 Scenario.program_good "a6" (py_int 4) Scenario.w1
  = (Scenario.w2, Ok tt) /\
  cls Scenario.w2 !! "a4" = cls Scenario.w1 !! "a4".
Proof.
  assert (Hne : "a4" <> "a6") by discriminate.
  assert (Hout : ~ descendant Scenario.w1 "a6" "a4").
  { assert (Hd : forall X, descendant Scenario.w1 "a6" X ->
                           X = "a5" \/ X = "a7").
    { induction 1 as [X HX|Y X _ IHd HX].
      - vm_compute in HX. apply list_elem_of_In in HX.
        destruct HX as [<-|[]]. left. reflexivity.
      - destruct IHd as [->| ->]; vm_compute in HX;
          apply list_elem_of_In in HX.
        + destruct HX as [<-|[]]. right. reflexivity.
        + destruct HX. }
    intros H. destruct (Hd _ H) as [E|E]; discriminate E. }
  assert (Hset : setattr 4 Scenario.program_good "a6" (py_int 4) Scenario.w1
                 = (Scenario.w2, Ok tt)) by (vm_compute; reflexivity).
  split; [exact Hne|]. split; [exact Hout|]. split; [exact Hset|].
  exact (write_touches_only_descendants 4 Scenario.program_good "a6" "a4"
           (py_int 4) Scenario.w1 Scenario.w2 (Ok tt) Hne Hout Hset).
Defined.

(** ** Dependencies that wait for each other *)

(** X14. Nothing detects a cycle of dependencies: when every attribute of
    a set is an invalid descriptor whose first dependency is in the set
    again, a read of any of them descends for ever, whatever the fuel. *)
Theorem cyclic_read_never_returns (P : ident -> Prop) (fuel : nat)
    (obj : objref) (k : ident) (w : world)
    (Hcycle : waits_on w P)
    (Hk : P k) :
  snd (getattr fuel obj k w) = OutOfFuel.
Proof.
  revert k Hk. induction fuel as [|fuel IH]; intros k Hk; [reflexivity|].
  destruct (Hcycle k Hk) as (d & dep & deps & Hd & Hv & Hdeps & Hdep).
  specialize (IH dep Hdep).
  simpl. rewrite Hd. unfold DependentAttr_get, recompute.
  rewrite Hv, Hdeps. simpl. unfold bind at 1 2 3. 
  unfold resolve_dependency, bind, hasattr.
  destruct (getattr fuel obj dep w) as [w1 r1]. simpl in IH. subst r1.
  reflexivity.
Qed.

Lemma cyclic_read_never_returns_witness :
  let P := fun k : ident => k = "p" \/ k = "q" in
  waits_on (fresh Cases.Loop) P /\ P "p" /\
  snd (getattr 1000 0 "p" (fresh Cases.Loop)) = OutOfFuel.
Proof.
  intros P.
  assert (Hcycle : waits_on (fresh Cases.Loop) P).
  { intros k [->| ->].
    - exists (DeterminantAttr_init (Some ["q"]) (Some "update_p") "p" false),
        "q", []. 
      split; [vm_compute; reflexivity|]. split; [reflexivity|].
      split; [reflexivity|]. right. reflexivity.
    - exists (DeterminantAttr_init (Some ["p"]) (Some "update_q") "q" false),
        "p", [].
      split; [vm_compute; reflexivity|]. split; [reflexivity|].
      split; [reflexivity|]. left. reflexivity. }
  assert (Hp : P "p") by (left; reflexivity).
  split; [exact Hcycle|]. split; [exact Hp|].
  exact (cyclic_read_never_returns P 1000 0 "p" (fresh Cases.Loop) Hcycle Hp).
Defined.
